(** * Seasonal Growth: object population, radial force and biome classifier

    A shallow embedding of the simulation core of the game
    (noise.js, biomes.js, gameObject.js, player.js, camera.js, sketch.js)
    and the properties its specification states about it.

    Modelling conventions.
    - A JavaScript number is a real number ([R]); the operators [+ - * /],
      [Math.sqrt], [Math.cos], [Math.sin], [Math.abs], [Math.max] and
      [Math.min] are the corresponding real functions.  Rounding, infinities
      and NaN are not represented.
    - The 32-bit integer operators of the generator ([^], [|], [>>>],
      [Math.imul]) are modelled on [Z] with their wrap-around written out.
    - Arrays are lists; [push] appends at the end.
    - A JavaScript object has an identity; a [GameObject] carries it as the
      field [oid], given by the allocation counter of the simulation state.
    - [Math.random] is an oracle [nat -> R] read at an increasing index.
    - Data that only drawing reads (sprites, particles, pickup
      notifications, background stars, the screen shake) is left out.  The
      screen shake reads [Math.random()] twice per frame while it lasts;
      these reads are not counted in the index of the oracle. *)

From Stdlib Require Import Reals Lra Lia ZArith List Bool String Permutation.
From Stdlib Require Import Psatz.
Import ListNotations.
Open Scope R_scope.

(* ================================================================== *)
(** ** JavaScript numbers *)
(* ================================================================== *)

Module JS.

(** Comparison operators, as booleans. *)
Definition ltb (x y : R) : bool := if Rlt_dec x y then true else false.
Definition leb (x y : R) : bool := if Rle_dec x y then true else false.
Definition gtb (x y : R) : bool := ltb y x.
Definition geb (x y : R) : bool := leb y x.
Definition eqb (x y : R) : bool := if Req_dec_T x y then true else false.

(** [Math.floor], as an integer. *)
Definition Math_floor (x : R) : Z := Zfloor x.

(** Truncation toward zero, the rounding of the quotient in [%]. *)
Definition trunc (x : R) : Z := if Rle_dec 0 x then Zfloor x else Zceil x.

(** [x % y]: the remainder has the sign of the dividend. *)
Definition rem (x y : R) : R := x - y * IZR (trunc (x / y)).

(** [Math.pow x y] for a base [0 <= x] and an exponent [0 < y]. *)
Definition Math_pow (x y : R) : R :=
  if Req_dec_T x 0 then 0 else Rpower x y.

Definition Math_log10 (x : R) : R := ln x / ln 10.

(** [v || d] on an optional number: [undefined] and [0] are falsy. *)
Definition or_default (v : option R) (d : R) : R :=
  match v with
  | Some w => if Req_dec_T w 0 then d else w
  | None => d
  end.

(** ToUint32 and ToInt32 of an integral number. *)
Definition to_uint32 (z : Z) : Z := (z mod 4294967296)%Z.
Definition to_int32 (z : Z) : Z :=
  let u := to_uint32 z in
  if (u >=? 2147483648)%Z then (u - 4294967296)%Z else u.

(** [a ^ b], [a | b], [a >>> n] and [Math.imul a b]. *)
Definition xor32 (a b : Z) : Z := Z.lxor (to_int32 a) (to_int32 b).
Definition or32 (a b : Z) : Z := Z.lor (to_int32 a) (to_int32 b).
Definition ushr (a n : Z) : Z := Z.shiftr (to_uint32 a) n.
Definition imul (a b : Z) : Z := to_int32 (to_int32 a * to_int32 b).

(** [Array.prototype.sort(compare)].  The sort is stable, and for a
    comparator that orders the elements consistently its result is the one
    sorted arrangement that keeps equal elements in their order: the
    result of a stable insertion sort. *)
Fixpoint sort_insert {A : Type} (compare : A -> A -> R) (a : A) (l : list A)
  : list A :=
  match l with
  | [] => [a]
  | b :: l' =>
      if leb (compare a b) 0 then a :: b :: l'
      else b :: sort_insert compare a l'
  end.

Fixpoint Array_sort {A : Type} (compare : A -> A -> R) (l : list A)
  : list A :=
  match l with
  | [] => []
  | a :: l' => sort_insert compare a (Array_sort compare l')
  end.

(** [a[i]]: [None] is [undefined], the value of a read outside the array
    (or at an index that is not a number). *)
Definition Array_get {A : Type} (a : list A) (i : Z) : option A :=
  if (i <? 0)%Z then None else nth_error a (Z.to_nat i).

(** [a[i] = v] at an index inside the array.  A write outside the array
    would grow it and leave holes; [None] stands for that case. *)
Definition Array_set {A : Type} (a : list A) (i : Z) (v : A)
  : option (list A) :=
  if ((0 <=? i)%Z && (i <? Z.of_nat (List.length a))%Z)%bool
  then Some (firstn (Z.to_nat i) a ++ v :: skipn (S (Z.to_nat i)) a)
  else None.

(** [Math.atan2(y, x)] on real numbers (zero has no sign here). *)
Definition Math_atan2 (y x : R) : R :=
  if Rlt_dec 0 x then atan (y / x)
  else if Rlt_dec x 0 then
    (if Rle_dec 0 y then atan (y / x) + PI else atan (y / x) - PI)
  else if Rlt_dec 0 y then PI / 2
  else if Rlt_dec y 0 then - PI / 2
  else 0.

End JS.

Notation "x <? y" := (JS.ltb x y) : R_scope.
Notation "x <=? y" := (JS.leb x y) : R_scope.
Notation "x >? y" := (JS.gtb x y) : R_scope.
Notation "x >=? y" := (JS.geb x y) : R_scope.

(* ================================================================== *)
(** ** noise.js: the seeded generator *)
(* ================================================================== *)

Module Noise.

Record SeededRandom := mkSeededRandom { seed : Z; state : Z }.

Definition new_SeededRandom (s : Z) : SeededRandom := mkSeededRandom s s.

(** The 32-bit output word of one mulberry32 step from the advanced state. *)
Definition mix (st : Z) : Z :=
  let t := st in
  let t := JS.imul (JS.xor32 t (JS.ushr t 15)) (JS.or32 t 1) in
  let t := JS.xor32 t (t + JS.imul (JS.xor32 t (JS.ushr t 7)) (JS.or32 t 61)) in
  JS.ushr (JS.xor32 t (JS.ushr t 14)) 0.

(** [next()]: the float in [0,1) and the generator after the call. *)
Definition next (g : SeededRandom) : R * SeededRandom :=
  let st := (state g + 0x6d2b79f5)%Z in
  (IZR (mix st) / 4294967296, mkSeededRandom (seed g) st).

(** The generator after [n] calls of [next()]. *)
Definition skip (n : nat) (g : SeededRandom) : SeededRandom :=
  Nat.iter n (fun g => snd (next g)) g.

Definition reset (g : SeededRandom) : SeededRandom :=
  mkSeededRandom (seed g) (seed g).

Definition range (g : SeededRandom) (lo hi : R) : R * SeededRandom :=
  let '(u, g') := next g in (lo + u * (hi - lo), g').

Definition int (g : SeededRandom) (lo hi : R) : Z * SeededRandom :=
  let '(v, g') := range g lo (hi + 1) in (JS.Math_floor v, g').

(** *** The simplex noise generator *)

Definition PERM_SIZE : nat := 256.

(** [[perm[i], perm[j]] = [perm[j], perm[i]]]: both entries are read, then
    [perm[i]] and [perm[j]] are written, in this order. *)
Definition swap (perm : list Z) (i j : Z) : option (list Z) :=
  match JS.Array_get perm j, JS.Array_get perm i with
  | Some pj, Some pi =>
      match JS.Array_set perm i pj with
      | Some perm1 => JS.Array_set perm1 j pi
      | None => None
      end
  | _, _ => None
  end.

(** The Fisher-Yates loop of [generatePermutation], from index [i] down
    to index 1. *)
Fixpoint shuffle (i : nat) (perm : list Z) (rng : SeededRandom)
  : option (list Z) * SeededRandom :=
  match i with
  | O => (Some perm, rng)
  | S i' =>
      let '(j, rng) := int rng 0 (IZR (Z.of_nat i)) in
      match swap perm (Z.of_nat i) j with
      | Some perm1 => shuffle i' perm1 rng
      | None => (None, rng)
      end
  end.

Definition generatePermutation (rng : SeededRandom)
  : option (list Z) * SeededRandom :=
  let perm := map Z.of_nat (seq 0 PERM_SIZE) in
  let '(shuffled, rng) := shuffle (PERM_SIZE - 1) perm rng in
  match shuffled with
  | Some perm => (Some (perm ++ perm), rng)
  | None => (None, rng)
  end.

Record SimplexNoise := mkSimplexNoise {
  noiseSeed : Z;
  noiseRng : SeededRandom;
  perm : list Z;
  permMod12 : list Z
}.

(** [new SimplexNoise(seed)]; [None] when the permutation table could not
    be built inside its array. *)
Definition new_SimplexNoise (s : Z) : option SimplexNoise :=
  let '(table, rng) := generatePermutation (new_SeededRandom s) in
  match table with
  | Some perm => Some (mkSimplexNoise s rng perm (map (fun v => Z.rem v 12) perm))
  | None => None
  end.

Definition grad2 : list (R * R) :=
  [(1, 1); (-1, 1); (1, -1); (-1, -1);
   (1, 0); (-1, 0); (0, 1); (0, -1);
   (1, 1); (-1, 1); (1, -1); (-1, -1)].

Definition F2 : R := 0.5 * (sqrt 3 - 1).
Definition G2 : R := (3 - sqrt 3) / 6.

Definition dot2 (g : R * R) (x y : R) : R := fst g * x + snd g * y.

(** The contribution of one corner of the simplex.  [gi] is the gradient
    index read from the tables ([None] when the read was outside them); the
    gradient is only used when [t] is not negative, and using a gradient
    that is [undefined] throws: the result is [None] then. *)
Definition corner (gi : option Z) (t x y : R) : option R :=
  if t <? 0 then Some 0
  else
    match gi with
    | Some k =>
        match JS.Array_get grad2 k with
        | Some g => let t := t * t in Some (t * t * dot2 g x y)
        | None => None
        end
    | None => None
    end.

(** [permMod12[base + perm[at]]] *)
Definition gradientIndex (sn : SimplexNoise) (base at_ : Z) : option Z :=
  match JS.Array_get (perm sn) at_ with
  | Some p => JS.Array_get (permMod12 sn) (base + p)
  | None => None
  end.

(** [noise2D(x, y)]; [None] when the call throws. *)
Definition noise2D (sn : SimplexNoise) (x y : R) : option R :=
  let s := (x + y) * F2 in
  let i := JS.Math_floor (x + s) in
  let j := JS.Math_floor (y + s) in
  let t := IZR (i + j) * G2 in
  let X0 := IZR i - t in
  let Y0 := IZR j - t in
  let x0 := x - X0 in
  let y0 := y - Y0 in
  let '(i1, j1) := if x0 >? y0 then (1%Z, 0%Z) else (0%Z, 1%Z) in
  let x1 := x0 - IZR i1 + G2 in
  let y1 := y0 - IZR j1 + G2 in
  let x2 := x0 - 1 + 2 * G2 in
  let y2 := y0 - 1 + 2 * G2 in
  let ii := Z.land (JS.to_int32 i) 255 in
  let jj := Z.land (JS.to_int32 j) 255 in
  let gi0 := gradientIndex sn ii jj in
  let gi1 := gradientIndex sn (ii + i1) (jj + j1) in
  let gi2 := gradientIndex sn (ii + 1) (jj + 1) in
  let t0 := 0.5 - x0 * x0 - y0 * y0 in
  let t1 := 0.5 - x1 * x1 - y1 * y1 in
  let t2 := 0.5 - x2 * x2 - y2 * y2 in
  match corner gi0 t0 x0 y0, corner gi1 t1 x1 y1, corner gi2 t2 x2 y2 with
  | Some n0, Some n1, Some n2 => Some (70 * (n0 + n1 + n2))
  | _, _, _ => None
  end.

End Noise.

(* ================================================================== *)
(** ** biomes.js: constants, spawn entries, biomes and the classifier *)
(* ================================================================== *)

Module Biomes.

Open Scope string_scope.
Open Scope R_scope.

Definition WORLD_WIDTH : R := 336 * 72.
Definition WORLD_HEIGHT : R := 262 * 72.
Definition WORLD_CENTER_X : R := WORLD_WIDTH / 2.
Definition WORLD_CENTER_Y : R := WORLD_HEIGHT / 2.
Definition ISLAND_RADIUS_X : R := WORLD_WIDTH * 0.35.
Definition ISLAND_RADIUS_Y : R := WORLD_HEIGHT * 0.35.

(** [TERRAIN_SPEED[key]], [undefined] for a key the table lacks. *)
Definition TERRAIN_SPEED (key : string) : option R :=
  if String.eqb key "normal" then Some 1
  else if String.eqb key "beach" then Some 0.75
  else if String.eqb key "wetland" then Some 0.7
  else if String.eqb key "ocean" then Some 0.4
  else None.

Definition TERRAIN_PENALTY_REDUCTION_SIZE : R := 200.

(** A runtime spawn entry, as [buildBiomes] makes it.  [adjustedWeight] is
    the property [weightedRandomSelect] adds to the copy it returns. *)
Record ObjDef := mkObjDef {
  emoji : string;
  name : string;
  minSize : R;
  maxSize : R;
  weight : option R;
  spawnPattern : string;
  minPlayerSize : option R;
  maxPlayerSize : option R;
  adjustedWeight : option R
}.

(** [{...item, adjustedWeight: w}] *)
Definition with_adjustedWeight (item : ObjDef) (w : R) : ObjDef :=
  mkObjDef (emoji item) (name item) (minSize item) (maxSize item)
           (weight item) (spawnPattern item)
           (minPlayerSize item) (maxPlayerSize item) (Some w).

(** A runtime biome.  [objects season] is [biome.objects[season]]. *)
Record Biome := mkBiome {
  id : string;
  biome_name : string;
  objects : string -> option (list ObjDef);
  objectDensity : R;
  isOcean : bool;
  terrainSpeed : option string
}.

(** [BIOMES]: the object built from biomes.json, read by key. *)
Definition BiomeTable := string -> option Biome.

Definition ANGULAR_ZONE_BIOMES (sector : Z) : option string :=
  match sector with
  | 0%Z => Some "meadow"
  | 1%Z => Some "forest"
  | 2%Z => Some "orchard"
  | 3%Z => Some "farmland"
  | 4%Z => Some "hills"
  | 5%Z => Some "beach"
  | 6%Z => Some "wetland"
  | 7%Z => Some "orchard"
  | _ => None
  end.

Definition getDistanceFromCenter (x y : R) : R :=
  let dx := (x - WORLD_CENTER_X) / ISLAND_RADIUS_X in
  let dy := (y - WORLD_CENTER_Y) / ISLAND_RADIUS_Y in
  sqrt (dx * dx + dy * dy).

Definition getTerrainType (distFromCenter noiseValue : R) : string :=
  let coastlineVariation := (noiseValue - 0.5) * 0.3 in
  let adjustedDist := distFromCenter - coastlineVariation in
  if adjustedDist <? 0.85 then "land"
  else if adjustedDist <? 0.95 then "beach"
  else if adjustedDist <? 1.05 then "wetland_shore"
  else "ocean".

Definition getZoneStrength (x y : R) : R :=
  let dist := getDistanceFromCenter x y in
  if dist <? 0.3 then 0.3
  else if dist <? 0.7 then 0.8
  else 0.5.

(** The closed set of biome keys the classifier reads from [BIOMES]. *)
Definition BiomeIds : list string :=
  ["ocean"; "beach"; "wetland"; "village"; "farmland"; "orchard"; "hills";
   "forest"; "meadow"].

(** [selectBiome]; the result is the property of [BIOMES] the rule reads,
    [None] when the table has no such key. *)
Definition selectBiome (BIOMES : BiomeTable)
  (elevation moisture temperature : R) (zonePreference : string)
  (zoneStrength x y coastlineNoise villageNoise : R) : option Biome :=
  let dist := getDistanceFromCenter x y in
  let terrainType := getTerrainType dist coastlineNoise in
  if String.eqb terrainType "ocean" then BIOMES "ocean"
  else if String.eqb terrainType "beach" then BIOMES "beach"
  else if String.eqb terrainType "wetland_shore" then
    (if moisture >? 0.5 then BIOMES "wetland" else BIOMES "beach")
  else
    let isVillageCore :=
      (villageNoise >? 0.75) && (dist >? 0.2) && (dist <? 0.7) in
    let isVillageRing :=
      (villageNoise >? 0.55) && (dist >? 0.15) && (dist <? 0.75) in
    if isVillageCore && (temperature >? 0.4) && (moisture <? 0.6) then
      BIOMES "village"
    else if isVillageRing && (villageNoise >? 0.6) && (moisture <? 0.55) then
      BIOMES "farmland"
    else if isVillageRing && (villageNoise >? 0.55) && (villageNoise <=? 0.6) then
      BIOMES "orchard"
    else if String.eqb zonePreference "farmland" && (zoneStrength >? 0.5)
            && (temperature >? 0.45) && (moisture <? 0.55) then
      BIOMES "farmland"
    else if String.eqb zonePreference "beach" && (elevation <? 0.3) then
      BIOMES "beach"
    else if String.eqb zonePreference "wetland" && (moisture >? 0.6) then
      BIOMES "wetland"
    else if elevation >? 0.65 then
      BIOMES "hills"
    else if (String.eqb zonePreference "forest"
             || ((moisture >? 0.55) && (elevation >? 0.4)))
            && ((zoneStrength >? 0.4) || (moisture >? 0.6)) then
      BIOMES "forest"
    else if String.eqb zonePreference "orchard" && (zoneStrength >? 0.5) then
      BIOMES "orchard"
    else if moisture >? 0.75 then
      BIOMES "wetland"
    else
      BIOMES "meadow".

(** [TERRAIN_SPEED[terrainType] || TERRAIN_SPEED.normal] *)
Definition baseTerrainSpeed (biome : Biome) : R :=
  let terrainType :=
    match terrainSpeed biome with
    | Some t => if String.eqb t "" then "normal" else t
    | None => "normal"
    end in
  JS.or_default (TERRAIN_SPEED terrainType) 1.

Definition getTerrainSpeedMultiplier (biome : Biome) (playerSize : R) : R :=
  let baseSpeed := baseTerrainSpeed biome in
  let sizeRatio := Rmin 1 (playerSize / TERRAIN_PENALTY_REDUCTION_SIZE) in
  let penaltyReduction := sizeRatio * 0.8 in
  baseSpeed + (1.0 - baseSpeed) * penaltyReduction.

Definition shouldSpawnForPlayerSize (objDef : ObjDef) (playerSize : R) : bool :=
  let below :=
    match minPlayerSize objDef with
    | Some m => playerSize <? m
    | None => false
    end in
  let above :=
    match maxPlayerSize objDef with
    | Some M => playerSize >? M
    | None => false
    end in
  if below then false else if above then false else true.

(** The angle from the center, in [0, 2 * PI). *)
Definition getAngleFromCenter (x y : R) : R :=
  let angle := JS.Math_atan2 (WORLD_CENTER_Y - y) (x - WORLD_CENTER_X) in
  JS.rem (angle + PI * 2) (PI * 2).

(** The sector [getZoneInfluence] computes from the angle. *)
Definition zoneSector (x y : R) : Z :=
  let angle := getAngleFromCenter x y in
  Z.rem (JS.Math_floor ((angle / (PI * 2)) * 8)) 8.

(** [getZoneInfluence(x, y)]; [None] is [undefined]. *)
Definition getZoneInfluence (x y : R) : option string :=
  ANGULAR_ZONE_BIOMES (zoneSector x y).

End Biomes.

(* ================================================================== *)
(** ** world.js: the interface the simulation reads *)
(* ================================================================== *)

Module Worlds.

(** The [World] object.  Its class is not part of the modelled sources: the
    simulation only calls [getBiomeAt] and [getStartPosition], which are
    taken as given functions. *)
Record World := mkWorld {
  getBiomeAt : R -> R -> Biomes.Biome;
  getStartPosition : R * R
}.

End Worlds.

(* ================================================================== *)
(** ** gameObject.js *)
(* ================================================================== *)

Module GameObjects.

Import Biomes.

Record GameObject := mkGameObject {
  oid : nat;
  x : R;
  y : R;
  size : R;
  type : ObjDef;
  collected : bool;
  isBoundary : bool;
  vx : R;
  vy : R;
  rotation : R;
  rotationSpeed : R;
  bobOffset : R;
  bobSpeed : R;
  bobAmount : R
}.

(** [new GameObject(x, y, size, type, sprite)]: [i] is the identity of the
    new object, [r0 .. r3] the four [Math.random()] values it draws. *)
Definition new_GameObject (i : nat) (r0 r1 r2 r3 : R)
  (x0 y0 size0 : R) (type0 : ObjDef) : GameObject :=
  mkGameObject i x0 y0 size0 type0 false false 0 0
    (r0 * PI * 2)
    ((r1 - 0.5) * 0.02 * (20 / Rmax size0 20))
    (r2 * PI * 2)
    (0.05 + r3 * 0.03)
    (Rmax 0.5 (2 - size0 * 0.02)).

Definition radius (o : GameObject) : R := size o / 2.

Definition with_position (o : GameObject) (x' y' : R) : GameObject :=
  mkGameObject (oid o) x' y' (size o) (type o) (collected o) (isBoundary o)
    (vx o) (vy o) (rotation o) (rotationSpeed o)
    (bobOffset o) (bobSpeed o) (bobAmount o).

Definition with_velocity (o : GameObject) (vx' vy' : R) : GameObject :=
  mkGameObject (oid o) (x o) (y o) (size o) (type o) (collected o)
    (isBoundary o) vx' vy' (rotation o) (rotationSpeed o)
    (bobOffset o) (bobSpeed o) (bobAmount o).

Definition with_animation (o : GameObject) (rotation' bobOffset' : R)
  : GameObject :=
  mkGameObject (oid o) (x o) (y o) (size o) (type o) (collected o)
    (isBoundary o) (vx o) (vy o) rotation' (rotationSpeed o)
    bobOffset' (bobSpeed o) (bobAmount o).

Definition with_collected (o : GameObject) (c : bool) : GameObject :=
  mkGameObject (oid o) (x o) (y o) (size o) (type o) c
    (isBoundary o) (vx o) (vy o) (rotation o) (rotationSpeed o)
    (bobOffset o) (bobSpeed o) (bobAmount o).

(** [((v % dim) + dim) % dim] *)
Definition wrap (v dim : R) : R := JS.rem (JS.rem v dim + dim) dim.

(** A parameter that defaults to [null] is truthy when it is a number
    other than zero. *)
Definition truthy (v : option R) : bool :=
  match v with
  | Some w => negb (JS.eqb w 0)
  | None => false
  end.

Definition update (o : GameObject) (worldWidth worldHeight : option R)
  : GameObject :=
  let o := with_animation o (rotation o + rotationSpeed o)
                            (bobOffset o + bobSpeed o) in
  if negb (JS.eqb (vx o) 0) || negb (JS.eqb (vy o) 0) then
    let x1 := x o + vx o in
    let y1 := y o + vy o in
    let '(x2, y2) :=
      match worldWidth, worldHeight with
      | Some w, Some h =>
          if truthy worldWidth && truthy worldHeight
          then (wrap x1 w, wrap y1 h) else (x1, y1)
      | _, _ => (x1, y1)
      end in
    let vx1 := vx o * 0.95 in
    let vy1 := vy o * 0.95 in
    let vx2 := if Rabs vx1 <? 0.01 then 0 else vx1 in
    let vy2 := if Rabs vy1 <? 0.01 then 0 else vy1 in
    with_velocity (with_position o x2 y2) vx2 vy2
  else o.

(** The shortest signed offset along one axis of the torus. *)
Definition shortest (d dim : R) : R :=
  if Rabs d >? dim / 2 then (if d >? 0 then d - dim else d + dim) else d.

(** The wrapped distance [applyGravity] computes first. *)
Definition gravityDist (o : GameObject) (targetX targetY worldWidth worldHeight : R)
  : R :=
  let dx := shortest (targetX - x o) worldWidth in
  let dy := shortest (targetY - y o) worldHeight in
  sqrt (dx * dx + dy * dy).

Definition gravityRadius (playerSize : R) : R :=
  playerSize * sqrt (playerSize / 12) * 0.6.

Definition applyGravity (o : GameObject)
  (targetX targetY strength playerSize worldWidth worldHeight : R)
  : GameObject :=
  let dx := shortest (targetX - x o) worldWidth in
  let dy := shortest (targetY - y o) worldHeight in
  let dist := sqrt (dx * dx + dy * dy) in
  if dist <? 1 then o else
  let nx := dx / dist in
  let ny := dy / dist in
  let sizeMultiplier := JS.Math_pow (playerSize / 12) 1.8 * 0.02 in
  let sizeRatio := size o / playerSize in
  let attractability := Rmax 0 (1 - sizeRatio * 1.2) in
  let gravityRadius := playerSize * sqrt (playerSize / 12) * 0.6 in
  if dist >? gravityRadius then o else
  let normalizedDist := dist / gravityRadius in
  let distanceFactor := JS.Math_pow (1 - normalizedDist) 2.5 in
  let force := strength * sizeMultiplier * attractability * distanceFactor in
  let vx1 := vx o + nx * force in
  let vy1 := vy o + ny * force in
  let maxVel := 15 in
  let vel := sqrt (vx1 * vx1 + vy1 * vy1) in
  if vel >? maxVel
  then with_velocity o (vx1 / vel * maxVel) (vy1 / vel * maxVel)
  else with_velocity o vx1 vy1.


(** The speed [Math.sqrt(vx * vx + vy * vy)] of an object. *)
Definition speed (o : GameObject) : R := sqrt (vx o * vx o + vy o * vy o).

(** The position of the object is inside the world. *)
Definition inWorld (o : GameObject) (worldWidth worldHeight : R) : Prop :=
  0 <= x o < worldWidth /\ 0 <= y o < worldHeight.

End GameObjects.

(* ================================================================== *)
(** ** player.js *)
(* ================================================================== *)

Module Players.

Import Biomes.

Definition BASE_ACCELERATION : R := 0.35.
Definition BASE_FRICTION : R := 0.92.
Definition BASE_MAX_SPEED : R := 4.5.

Record Player := mkPlayer {
  x : R;
  y : R;
  vx : R;
  vy : R;
  size : R;
  currentBiome : option Biome;
  terrainSpeedMultiplier : R
}.

Definition new_Player (x0 y0 size0 : R) : Player :=
  mkPlayer x0 y0 0 0 size0 None 1.0.

Record Input := mkInput { up : bool; down : bool; left : bool; right : bool }.

Definition radius (p : Player) : R := size p / 2.

Definition getMomentumFactor (p : Player) : R :=
  1 + JS.Math_log10 (size p / 10) * 0.3.

Definition update (p : Player) (input : Input) (worldWidth worldHeight : R)
  (world : option Worlds.World) : Player :=
  let '(currentBiome1, terrain1) :=
    match world with
    | Some w =>
        let b := Worlds.getBiomeAt w (x p) (y p) in
        (Some b, getTerrainSpeedMultiplier b (size p))
    | None => (currentBiome p, terrainSpeedMultiplier p)
    end in
  let momentum := getMomentumFactor p in
  let sizeSpeedScale := sqrt (size p / 12) in
  let acceleration :=
    (BASE_ACCELERATION * sizeSpeedScale / momentum) * terrain1 in
  let vy1 := if up input then vy p - acceleration else vy p in
  let vy2 := if down input then vy1 + acceleration else vy1 in
  let vx1 := if left input then vx p - acceleration else vx p in
  let vx2 := if right input then vx1 + acceleration else vx1 in
  let baseFriction := BASE_FRICTION in
  let baseFriction :=
    baseFriction + (1 - baseFriction) * (1 - 1 / momentum) * 0.5 in
  let baseFriction :=
    if terrain1 <? 1.0
    then baseFriction * (1 - (1 - terrain1) * 0.1)
    else baseFriction in
  let vx3 := vx2 * baseFriction in
  let vy3 := vy2 * baseFriction in
  let currentMaxSpeed := BASE_MAX_SPEED * sizeSpeedScale * terrain1 in
  let speed := sqrt (vx3 * vx3 + vy3 * vy3) in
  let vx4 := if speed >? currentMaxSpeed
             then (vx3 / speed) * currentMaxSpeed else vx3 in
  let vy4 := if speed >? currentMaxSpeed
             then (vy3 / speed) * currentMaxSpeed else vy3 in
  let x1 := x p + vx4 in
  let y1 := y p + vy4 in
  let x2 := if x1 <? 0 then x1 + worldWidth else x1 in
  let x3 := if x2 >=? worldWidth then x2 - worldWidth else x2 in
  let y2 := if y1 <? 0 then y1 + worldHeight else y1 in
  let y3 := if y2 >=? worldHeight then y2 - worldHeight else y2 in
  mkPlayer x3 y3 vx4 vy4 (size p) currentBiome1 terrain1.

Definition grow (p : Player) (amount : R) : Player :=
  mkPlayer (x p) (y p) (vx p) (vy p) (size p + amount)
           (currentBiome p) (terrainSpeedMultiplier p).

Definition bounceFrom (p : Player) (objX objY worldWidth worldHeight : R)
  : Player :=
  let dx := GameObjects.shortest (x p - objX) worldWidth in
  let dy := GameObjects.shortest (y p - objY) worldHeight in
  let dist := sqrt (dx * dx + dy * dy) in
  if dist >? 0 then
    let nx := dx / dist in
    let ny := dy / dist in
    let sizeSpeedScale := sqrt (size p / 12) in
    let knockback := 3 * sizeSpeedScale in
    mkPlayer (x p) (y p) (nx * knockback) (ny * knockback) (size p)
             (currentBiome p) (terrainSpeedMultiplier p)
  else p.

Definition collidesWith (p : Player) (obj : GameObjects.GameObject)
  (worldWidth worldHeight : R) : bool :=
  let dx := GameObjects.shortest (x p - GameObjects.x obj) worldWidth in
  let dy := GameObjects.shortest (y p - GameObjects.y obj) worldHeight in
  let dist := sqrt (dx * dx + dy * dy) in
  dist <? radius p + GameObjects.radius obj.

Definition canCollect (p : Player) (obj : GameObjects.GameObject) : bool :=
  GameObjects.size obj <? size p * 0.95.

(** The position of the player is inside the world. *)
Definition inWorld (p : Player) (worldWidth worldHeight : R) : Prop :=
  0 <= x p < worldWidth /\ 0 <= y p < worldHeight.

(** The bound [update] puts on the speed of a player of this size on
    terrain without penalty. *)
Definition speedCap (p : Player) : R := BASE_MAX_SPEED * sqrt (size p / 12).

End Players.

(* ================================================================== *)
(** ** camera.js *)
(* ================================================================== *)

Module Cameras.

Record Camera := mkCamera {
  screenWidth : R;
  screenHeight : R;
  worldWidth : R;
  worldHeight : R;
  x : R;
  y : R;
  zoom : R;
  targetZoom : R;
  zoomSmoothing : R;
  smoothing : R
}.

Record Bounds := mkBounds { left : R; right : R; top : R; bottom : R }.

Definition new_Camera (sw sh ww wh : R) : Camera :=
  mkCamera sw sh ww wh 0 0 1 1 0.03 0.08.

Definition setTargetZoom (c : Camera) (z : R) : Camera :=
  mkCamera (screenWidth c) (screenHeight c) (worldWidth c) (worldHeight c)
           (x c) (y c) (zoom c) (Rmax 0.15 (Rmin 2 z))
           (zoomSmoothing c) (smoothing c).

Definition follow (c : Camera) (targetPosX targetPosY : R) : Camera :=
  let zoom1 := zoom c + (targetZoom c - zoom c) * zoomSmoothing c in
  let effectiveWidth := screenWidth c / zoom1 in
  let effectiveHeight := screenHeight c / zoom1 in
  let targetX := targetPosX - effectiveWidth / 2 in
  let targetY := targetPosY - effectiveHeight / 2 in
  let dx := targetX - x c in
  let dy := targetY - y c in
  let dx := if dx >? worldWidth c / 2 then dx - worldWidth c else dx in
  let dx := if dx <? - worldWidth c / 2 then dx + worldWidth c else dx in
  let dy := if dy >? worldHeight c / 2 then dy - worldHeight c else dy in
  let dy := if dy <? - worldHeight c / 2 then dy + worldHeight c else dy in
  mkCamera (screenWidth c) (screenHeight c) (worldWidth c) (worldHeight c)
           (x c + dx * smoothing c) (y c + dy * smoothing c)
           zoom1 (targetZoom c) (zoomSmoothing c) (smoothing c).

Definition getVisibleBounds (c : Camera) : Bounds :=
  let effectiveWidth := screenWidth c / zoom c in
  let effectiveHeight := screenHeight c / zoom c in
  mkBounds (x c) (x c + effectiveWidth) (y c) (y c + effectiveHeight).

Definition centerOn (c : Camera) (px py : R) : Camera :=
  let effectiveWidth := screenWidth c / zoom c in
  let effectiveHeight := screenHeight c / zoom c in
  mkCamera (screenWidth c) (screenHeight c) (worldWidth c) (worldHeight c)
           (px - effectiveWidth / 2) (py - effectiveHeight / 2)
           (zoom c) (targetZoom c) (zoomSmoothing c) (smoothing c).

(** The center of the view in world coordinates ([camCenterX] and
    [camCenterY]). *)
Definition viewCenter (c : Camera) : R * R :=
  (x c + screenWidth c / zoom c / 2, y c + screenHeight c / zoom c / 2).

Definition worldToScreen (c : Camera) (worldX worldY : R) : R * R :=
  ((worldX - x c) * zoom c, (worldY - y c) * zoom c).

Definition screenToWorld (c : Camera) (screenX screenY : R) : R * R :=
  (screenX / zoom c + x c, screenY / zoom c + y c).

(** The two conditional steps that wrap a delta along one axis. *)
Definition wrapDelta (d dim : R) : R :=
  let d := if d >? dim / 2 then d - dim else d in
  if d <? - dim / 2 then d + dim else d.

Definition isVisible (c : Camera) (worldX worldY size : R) : bool :=
  let effectiveWidth := screenWidth c / zoom c in
  let effectiveHeight := screenHeight c / zoom c in
  let margin := size in
  let dx := worldX - (x c + effectiveWidth / 2) in
  let dy := worldY - (y c + effectiveHeight / 2) in
  let dx := wrapDelta dx (worldWidth c) in
  let dy := wrapDelta dy (worldHeight c) in
  (Rabs dx <? effectiveWidth / 2 + margin)
  && (Rabs dy <? effectiveHeight / 2 + margin).

Definition getWrappedPosition (c : Camera) (objX objY : R) : R * R :=
  let effectiveWidth := screenWidth c / zoom c in
  let effectiveHeight := screenHeight c / zoom c in
  let camCenterX := x c + effectiveWidth / 2 in
  let camCenterY := y c + effectiveHeight / 2 in
  let dx := objX - camCenterX in
  let dy := objY - camCenterY in
  let dx := wrapDelta dx (worldWidth c) in
  let dy := wrapDelta dy (worldHeight c) in
  (camCenterX + dx, camCenterY + dy).

End Cameras.

(* ================================================================== *)
(** ** sketch.js: the simulation state and its operations *)
(* ================================================================== *)

Module Sketch.

Import Biomes.
Import GameObjects.
Open Scope string_scope.
Open Scope list_scope.
Open Scope R_scope.

Definition SCREEN_WIDTH : R := 336.
Definition SCREEN_HEIGHT : R := 262.

(** [gameState]: the three members of [STATE], and [undefined], which is
    what [STATE.WIN] evaluates to. *)
Inductive STATE := TITLE | PLAYING | PLANET_CONSUMED | STATE_undefined.

Definition SEASON_CYCLE : list string := ["spring"; "summer"; "fall"; "winter"].
Definition TOTAL_SEASONS : nat := 10.
Definition SEASON_DURATION : nat := 15 * 60.
Definition STARTING_SIZE : R := 12.
Definition PLANET_CONSUME_SIZE : R := 2500.
Definition PLAYER_SCREEN_RATIO : R := 0.15.
Definition MIN_ZOOM : R := 0.1.
Definition MAX_ZOOM : R := 4.5.
Definition WORLD_SEED : Z := 42.
Definition BASE_SPAWN_RADIUS : R := 400.
Definition BASE_DESPAWN_RADIUS : R := 600.
Definition BASE_KEEP_RADIUS : R := 250.
Definition SPAWN_CHECK_INTERVAL : nat := 30.
Definition MAX_OBJECTS : nat := 1500.

Definition PERMANENT_EMOJIS : list string :=
  ["🌲"; "🌳"; "🌴"; "🪨"; "🏠"; "🏚️"; "🛖"; "🏪"; "🏰"; "🏔️"].

Definition PERMANENT_EMOJIS_has (e : string) : bool :=
  existsb (String.eqb e) PERMANENT_EMOJIS.

(** The allocation counter (the identity of the next [GameObject]) and the
    index of the next [Math.random()] value. *)
Record Alloc := mkAlloc { nextOid : nat; randomIndex : nat }.

Record State := mkState {
  gameState : STATE;
  currentSeasonIndex : nat;
  seasonTimer : nat;
  player : option Players.Player;
  objects : list GameObject;
  collectedCount : nat;
  world : Worlds.World;
  camera : Cameras.Camera;
  spawnRng : option Noise.SeededRandom;
  spawnCheckCounter : nat;
  lastPlayerX : R;
  lastPlayerY : R;
  frameCount : nat;
  alloc : Alloc;
  Math_random : nat -> R
}.

Definition set_objects (st : State) (objs : list GameObject) (a : Alloc)
  : State :=
  mkState (gameState st) (currentSeasonIndex st) (seasonTimer st) (player st)
    objs (collectedCount st) (world st) (camera st) (spawnRng st)
    (spawnCheckCounter st) (lastPlayerX st) (lastPlayerY st) (frameCount st)
    a (Math_random st).

Definition set_spawnCheckCounter (st : State) (n : nat) : State :=
  mkState (gameState st) (currentSeasonIndex st) (seasonTimer st) (player st)
    (objects st) (collectedCount st) (world st) (camera st) (spawnRng st)
    n (lastPlayerX st) (lastPlayerY st) (frameCount st)
    (alloc st) (Math_random st).

Definition set_lastPlayer (st : State) (px py : R) : State :=
  mkState (gameState st) (currentSeasonIndex st) (seasonTimer st) (player st)
    (objects st) (collectedCount st) (world st) (camera st) (spawnRng st)
    (spawnCheckCounter st) px py (frameCount st)
    (alloc st) (Math_random st).

Definition set_spawnRng (st : State) (g : Noise.SeededRandom) : State :=
  mkState (gameState st) (currentSeasonIndex st) (seasonTimer st) (player st)
    (objects st) (collectedCount st) (world st) (camera st) (Some g)
    (spawnCheckCounter st) (lastPlayerX st) (lastPlayerY st) (frameCount st)
    (alloc st) (Math_random st).

Definition set_season (st : State) (idx timer : nat) (gs : STATE) : State :=
  mkState gs idx timer (player st)
    (objects st) (collectedCount st) (world st) (camera st) (spawnRng st)
    (spawnCheckCounter st) (lastPlayerX st) (lastPlayerY st) (frameCount st)
    (alloc st) (Math_random st).

Definition set_player_camera (st : State) (p : Players.Player)
  (c : Cameras.Camera) : State :=
  mkState (gameState st) (currentSeasonIndex st) (seasonTimer st) (Some p)
    (objects st) (collectedCount st) (world st) c (spawnRng st)
    (spawnCheckCounter st) (lastPlayerX st) (lastPlayerY st) (frameCount st)
    (alloc st) (Math_random st).

Definition set_collisions (st : State) (objs : list GameObject)
  (p : Players.Player) (cc : nat) (gs : STATE) : State :=
  mkState gs (currentSeasonIndex st) (seasonTimer st) (Some p)
    objs cc (world st) (camera st) (spawnRng st)
    (spawnCheckCounter st) (lastPlayerX st) (lastPlayerY st) (frameCount st)
    (alloc st) (Math_random st).

Definition set_frameCount (st : State) (n : nat) : State :=
  mkState (gameState st) (currentSeasonIndex st) (seasonTimer st) (player st)
    (objects st) (collectedCount st) (world st) (camera st) (spawnRng st)
    (spawnCheckCounter st) (lastPlayerX st) (lastPlayerY st) n
    (alloc st) (Math_random st).

(** [new GameObject(...)] in the simulation: the object and the counters
    after the allocation. *)
Definition create (rnd : nat -> R) (a : Alloc) (x0 y0 size0 : R)
  (type0 : ObjDef) : GameObject * Alloc :=
  let k := randomIndex a in
  (new_GameObject (nextOid a) (rnd k) (rnd (1 + k)%nat) (rnd (2 + k)%nat)
                  (rnd (3 + k)%nat) x0 y0 size0 type0,
   mkAlloc (S (nextOid a)) (4 + k)).

Definition getCurrentSeason (idx : nat) : string :=
  nth (idx mod 4) SEASON_CYCLE "spring".

(** [biome.objects[season] || []] *)
Definition seasonalObjectsOf (biome : Biome) (season : string) : list ObjDef :=
  match Biomes.objects biome season with
  | Some l => l
  | None => []
  end.

Definition calculateZoom (p : Players.Player) : R :=
  let targetScreenSize := SCREEN_HEIGHT * PLAYER_SCREEN_RATIO in
  let zoom := targetScreenSize / Players.size p in
  Rmax MIN_ZOOM (Rmin MAX_ZOOM zoom).

Definition getWrappedDistance (x1 y1 x2 y2 : R) : R :=
  let dx := Rabs (x1 - x2) in
  let dy := Rabs (y1 - y2) in
  let dx := if dx >? WORLD_WIDTH / 2 then WORLD_WIDTH - dx else dx in
  let dy := if dy >? WORLD_HEIGHT / 2 then WORLD_HEIGHT - dy else dy in
  sqrt (dx * dx + dy * dy).

Definition calculateGrowthAmount (objectSize playerSize : R) : R :=
  let sizeRatio := objectSize / playerSize in
  let baseGrowth := objectSize * 0.04 in
  let scaledGrowth := baseGrowth * JS.Math_pow sizeRatio 0.5 in
  Rmax 0.1 scaledGrowth.

(** *** Weighted selection *)

(** The weight [weightedRandomSelect] gives one entry. *)
Definition adjustWeight (playerSize : option R) (item : ObjDef) : R :=
  let weight := JS.or_default (weight item) 1 in
  match playerSize with
  | None => weight
  | Some ps =>
      let collectibleThreshold := ps * 0.95 in
      let avgSize := (minSize item + maxSize item) / 2 in
      if avgSize <=? collectibleThreshold then
        let sizeRatio := avgSize / collectibleThreshold in
        let boost := 1 + (1 - sizeRatio) * 4 in
        weight * boost
      else
        let obstacleRatio := avgSize / collectibleThreshold in
        let reduction :=
          Rmin 0.99 (1 - JS.Math_pow 0.5 (obstacleRatio - 1)) in
        weight * (1 - reduction)
  end.

(** [item.adjustedWeight] of an entry of [adjustedItems]. *)
Definition adjustedWeightOf (item : ObjDef) : R :=
  match adjustedWeight item with
  | Some w => w
  | None => 0
  end.

(** The cumulative draw: the first entry at which [rand] falls to zero or
    below, [None] when the loop runs to its end. *)
Fixpoint pickCumulative (adjustedItems : list ObjDef) (rand : R)
  : option ObjDef :=
  match adjustedItems with
  | [] => None
  | item :: rest =>
      let rand := rand - adjustedWeightOf item in
      if rand <=? 0 then Some item else pickCumulative rest rand
  end.

(** [weightedRandomSelect(items, rng, playerSize)]; [None] is [null]. *)
Definition weightedRandomSelect (items : option (list ObjDef))
  (rng : Noise.SeededRandom) (playerSize : option R)
  : option ObjDef * Noise.SeededRandom :=
  match items with
  | None => (None, rng)
  | Some [] => (None, rng)
  | Some (first :: others) =>
      let items := first :: others in
      let adjustedItems :=
        map (fun item => with_adjustedWeight item (adjustWeight playerSize item))
            items in
      let totalWeight :=
        fold_left (fun sum item => sum + adjustedWeightOf item) adjustedItems 0 in
      let '(u, rng) := Noise.next rng in
      let rand := u * totalWeight in
      match pickCumulative adjustedItems rand with
      | Some item => (Some item, rng)
      | None => (Some first, rng)
      end
  end.

(** *** Spawn points of a season transition *)

Record Point := mkPoint { px : R; py : R; pbiome : Biome }.

Fixpoint generateLandSpawnPoints_loop (w : Worlds.World) (count : nat)
  (rng : Noise.SeededRandom) : list Point :=
  match count with
  | O => []
  | S count' =>
      let '(u1, rng) := Noise.next rng in
      let angle := u1 * PI * 2 in
      let '(u2, rng) := Noise.next rng in
      let distRatio := sqrt u2 * 0.85 in
      let x := WORLD_CENTER_X + cos angle * ISLAND_RADIUS_X * distRatio in
      let y := WORLD_CENTER_Y + sin angle * ISLAND_RADIUS_Y * distRatio in
      let biome := Worlds.getBiomeAt w x y in
      if isOcean biome
      then generateLandSpawnPoints_loop w count' rng
      else mkPoint x y biome :: generateLandSpawnPoints_loop w count' rng
  end.

Definition generateLandSpawnPoints (w : Worlds.World) (count : nat) (seed : Z)
  : list Point :=
  generateLandSpawnPoints_loop w count (Noise.new_SeededRandom seed).

Fixpoint generateOceanSpawnPoints_loop (w : Worlds.World) (count : nat)
  (rng : Noise.SeededRandom) : list Point :=
  match count with
  | O => []
  | S count' =>
      let '(u1, rng) := Noise.next rng in
      let angle := u1 * PI * 2 in
      let '(u2, rng) := Noise.next rng in
      let distRatio := 1.1 + u2 * 0.3 in
      let x := WORLD_CENTER_X + cos angle * ISLAND_RADIUS_X * distRatio in
      let y := WORLD_CENTER_Y + sin angle * ISLAND_RADIUS_Y * distRatio in
      if (x <? 50) || (x >? WORLD_WIDTH - 50)
         || (y <? 50) || (y >? WORLD_HEIGHT - 50)
      then generateOceanSpawnPoints_loop w count' rng
      else
        let biome := Worlds.getBiomeAt w x y in
        if isOcean biome
        then mkPoint x y biome :: generateOceanSpawnPoints_loop w count' rng
        else generateOceanSpawnPoints_loop w count' rng
  end.

Definition generateOceanSpawnPoints (w : Worlds.World) (count : nat) (seed : Z)
  : list Point :=
  generateOceanSpawnPoints_loop w count (Noise.new_SeededRandom seed).

(** *** Spatial pattern expansion *)

Section PatternExpansion.

Variable w : Worlds.World.
Variable rnd : nat -> R.
Variables seedX seedY : R.
Variable objDef : ObjDef.

(** The loop of the [clustered] pattern, [n] iterations. *)
Fixpoint clusterLoop (clusterRadius : R) (n : nat)
  (rng : Noise.SeededRandom) (a : Alloc)
  : list GameObject * Noise.SeededRandom * Alloc :=
  match n with
  | O => ([], rng, a)
  | S n' =>
      let '(u1, rng) := Noise.next rng in
      let angle := u1 * PI * 2 in
      let '(u2, rng) := Noise.next rng in
      let dist := u2 * clusterRadius in
      let x := seedX + cos angle * dist in
      let y := seedY + sin angle * dist in
      let x := wrap x WORLD_WIDTH in
      let y := wrap y WORLD_HEIGHT in
      let pointBiome := Worlds.getBiomeAt w x y in
      if isOcean pointBiome then clusterLoop clusterRadius n' rng a
      else
        let '(u3, rng) := Noise.next rng in
        let size := minSize objDef + u3 * (maxSize objDef - minSize objDef) in
        let '(obj, a) := create rnd a x y size objDef in
        let '(rest, rng, a) := clusterLoop clusterRadius n' rng a in
        (obj :: rest, rng, a)
  end.

(** The cells the two nested loops of the [grid] pattern visit, in order. *)
Definition gridCells (rows cols : nat) : list (nat * nat) :=
  flat_map (fun row => map (fun col => (row, col)) (seq 0 cols)) (seq 0 rows).

Fixpoint gridLoop (rows cols : nat) (spacing cosR sinR startX startY : R)
  (cells : list (nat * nat)) (rng : Noise.SeededRandom) (a : Alloc)
  : list GameObject * Noise.SeededRandom * Alloc :=
  match cells with
  | [] => ([], rng, a)
  | (row, col) :: cells' =>
      if ((row =? rows / 2) && (col =? cols / 2))%nat
      then gridLoop rows cols spacing cosR sinR startX startY cells' rng a
      else
        let '(u1, rng) := Noise.next rng in
        let jitterX := (u1 - 0.5) * spacing * 0.2 in
        let '(u2, rng) := Noise.next rng in
        let jitterY := (u2 - 0.5) * spacing * 0.2 in
        let localX := INR col * spacing + jitterX in
        let localY := INR row * spacing + jitterY in
        let rotatedX := localX * cosR - localY * sinR in
        let rotatedY := localX * sinR + localY * cosR in
        let x := startX + rotatedX in
        let y := startY + rotatedY in
        let x := wrap x WORLD_WIDTH in
        let y := wrap y WORLD_HEIGHT in
        let pointBiome := Worlds.getBiomeAt w x y in
        if isOcean pointBiome
        then gridLoop rows cols spacing cosR sinR startX startY cells' rng a
        else
          let '(u3, rng) := Noise.next rng in
          let size := minSize objDef + u3 * (maxSize objDef - minSize objDef) in
          let '(obj, a) := create rnd a x y size objDef in
          let '(rest, rng, a) :=
            gridLoop rows cols spacing cosR sinR startX startY cells' rng a in
          (obj :: rest, rng, a)
  end.

(** [objDef.spawnPattern || "scattered"] *)
Definition patternOf : string :=
  if String.eqb (spawnPattern objDef) "" then "scattered"
  else spawnPattern objDef.

Definition spawnPatternObjects (rng : Noise.SeededRandom) (a : Alloc)
  : list GameObject * Noise.SeededRandom * Alloc :=
  let pattern := patternOf in
  if String.eqb pattern "scattered" then ([], rng, a) else
  let '(clustered, rng, a) :=
    if String.eqb pattern "clustered" then
      let '(u, rng) := Noise.next rng in
      let clusterCount := (4 + JS.Math_floor (u * 7))%Z in
      let clusterRadius := Rmax 60 (maxSize objDef * 3) in
      clusterLoop clusterRadius (Z.to_nat clusterCount) rng a
    else ([], rng, a) in
  let '(grid, rng, a) :=
    if String.eqb pattern "grid" then
      let '(u1, rng) := Noise.next rng in
      let rows := Z.to_nat (3 + JS.Math_floor (u1 * 3)) in
      let '(u2, rng) := Noise.next rng in
      let cols := Z.to_nat (4 + JS.Math_floor (u2 * 4)) in
      let spacing := Rmax (maxSize objDef * 1.5) 35 in
      let '(u3, rng) := Noise.next rng in
      let rotation := u3 * PI * 0.12 - PI * 0.06 in
      let cosR := cos rotation in
      let sinR := sin rotation in
      let startX := seedX - (INR cols - 1) * spacing / 2 in
      let startY := seedY - (INR rows - 1) * spacing / 2 in
      gridLoop rows cols spacing cosR sinR startX startY
               (gridCells rows cols) rng a
    else ([], rng, a) in
  (clustered ++ grid, rng, a).

End PatternExpansion.

(** An upper bound on the distance between an object of a pattern and the
    seed of the pattern: the cluster radius, eleven times the grid spacing
    (the grid has at most five rows and seven columns, jittered by a tenth
    of the spacing), and zero for an object that spawns alone. *)
Definition patternReach (objDef : ObjDef) : R :=
  if String.eqb (patternOf objDef) "clustered"
  then Rmax 60 (maxSize objDef * 3)
  else if String.eqb (patternOf objDef) "grid"
  then 11 * Rmax (maxSize objDef * 1.5) 35
  else 0.

(** The distance between an object and the center of the world. *)
Definition distanceFromWorldCenter (o : GameObject) : R :=
  sqrt ((x o - WORLD_CENTER_X) * (x o - WORLD_CENTER_X)
        + (y o - WORLD_CENTER_Y) * (y o - WORLD_CENTER_Y)).

(** An object of type [objDef] no farther than [bound] from the center of
    the world. *)
Definition placedWithin (objDef : ObjDef) (bound : R) (o : GameObject) : Prop :=
  type o = objDef /\ distanceFromWorldCenter o <= bound.

(** *** Ring seeding *)

(** The loop that pushes the pattern objects until the ring is full. *)
Fixpoint pushPattern (targetCount : nat) (patternObjects : list GameObject)
  (objs : list GameObject) (spawned : nat) : list GameObject * nat :=
  match patternObjects with
  | [] => (objs, spawned)
  | pObj :: rest =>
      if (targetCount <=? spawned)%nat then (objs, spawned)
      else pushPattern targetCount rest (objs ++ [pObj]) (S spawned)
  end.

Section Ring.

Variable w : Worlds.World.
Variable rnd : nat -> R.
Variable season : string.
Variable playerSize : R.
Variables centerX centerY maxRadius : R.
Variables targetCount ringIndex : nat.

(** The attempt loop of [spawnObjectsAroundPlayer]: [attempts] is the number
    of iterations left, [objs] the array [objects]. *)
Fixpoint ringLoop (attempts : nat) (rng : Noise.SeededRandom) (a : Alloc)
  (objs : list GameObject) (spawned : nat)
  : list GameObject * Alloc * nat :=
  match attempts with
  | O => (objs, a, spawned)
  | S attempts' =>
      if negb (spawned <? targetCount)%nat then (objs, a, spawned) else
      let '(u1, rng) := Noise.next rng in
      let angle := u1 * PI * 2 in
      let '(u2, rng) := Noise.next rng in
      let dist := sqrt u2 * maxRadius in
      let x := centerX + cos angle * dist in
      let y := centerY + sin angle * dist in
      let x := wrap x WORLD_WIDTH in
      let y := wrap y WORLD_HEIGHT in
      let biome := Worlds.getBiomeAt w x y in
      let seasonalObjects := seasonalObjectsOf biome season in
      if (List.length seasonalObjects =? 0)%nat
      then ringLoop attempts' rng a objs spawned else
      let '(skip, rng) :=
        if (0 <? ringIndex)%nat
        then let '(u, rng) := Noise.next rng in (u >? objectDensity biome, rng)
        else (false, rng) in
      if skip then ringLoop attempts' rng a objs spawned else
      let validObjects :=
        filter (fun obj => shouldSpawnForPlayerSize obj playerSize)
               seasonalObjects in
      if (List.length validObjects =? 0)%nat
      then ringLoop attempts' rng a objs spawned else
      let '(selected, rng) :=
        weightedRandomSelect (Some validObjects) rng (Some playerSize) in
      match selected with
      | None => ringLoop attempts' rng a objs spawned
      | Some objDef =>
          let '(u3, rng) := Noise.next rng in
          let size := minSize objDef + u3 * (maxSize objDef - minSize objDef) in
          let '(obj, a) := create rnd a x y size objDef in
          let objs := objs ++ [obj] in
          let spawned := S spawned in
          let '(patternObjects, rng, a) :=
            spawnPatternObjects w rnd x y objDef rng a in
          let '(objs, spawned) :=
            pushPattern targetCount patternObjects objs spawned in
          ringLoop attempts' rng a objs spawned
      end
  end.

End Ring.

Definition playerSizeOr (st : State) : R :=
  match player st with
  | Some p => Players.size p
  | None => STARTING_SIZE
  end.

Definition spawnObjectsAroundPlayer (st : State)
  (centerX centerY maxRadius : R) (targetCount ringIndex : nat)
  : State * nat :=
  let season := getCurrentSeason (currentSeasonIndex st) in
  let playerSize := playerSizeOr st in
  let rng := Noise.new_SeededRandom
    (WORLD_SEED + Z.of_nat (currentSeasonIndex st) * 1000
                + Z.of_nat ringIndex * 7777) in
  let attempts := (targetCount * 5)%nat in
  let '(objs, a, spawned) :=
    ringLoop (world st) (Math_random st) season playerSize
             centerX centerY maxRadius targetCount ringIndex
             attempts rng (alloc st) (objects st) 0%nat in
  (set_objects st objs a, spawned).

Definition spawnWorldObjects (st : State) : State :=
  let st := set_objects st [] (alloc st) in
  let playerX :=
    match player st with Some p => Players.x p | None => WORLD_CENTER_X end in
  let playerY :=
    match player st with Some p => Players.y p | None => WORLD_CENTER_Y end in
  let st := fst (spawnObjectsAroundPlayer st playerX playerY 100 80 0) in
  let st := fst (spawnObjectsAroundPlayer st playerX playerY 300 120 1) in
  let st := fst (spawnObjectsAroundPlayer st playerX playerY 600 150 2) in
  let st := fst (spawnObjectsAroundPlayer st playerX playerY 1000 150 3) in
  st.

Definition startGame (st : State) : State :=
  let startPos := Worlds.getStartPosition (world st) in
  let p := Players.new_Player (fst startPos) (snd startPos) STARTING_SIZE in
  let cam := Cameras.centerOn
    (Cameras.new_Camera SCREEN_WIDTH SCREEN_HEIGHT WORLD_WIDTH WORLD_HEIGHT)
    (Players.x p) (Players.y p) in
  let st :=
    mkState (gameState st) 0 0 (Some p) (objects st) 0 (world st) cam
      (spawnRng st) (spawnCheckCounter st) (lastPlayerX st) (lastPlayerY st)
      (frameCount st) (alloc st) (Math_random st) in
  let st := spawnWorldObjects st in
  let st := set_lastPlayer st (Players.x p) (Players.y p) in
  set_season st (currentSeasonIndex st) (seasonTimer st) PLAYING.

(** *** Season transition *)

Definition isOnScreenAt (bounds : Cameras.Bounds) (margin x y : R) : bool :=
  (x >? Cameras.left bounds - margin) && (x <? Cameras.right bounds + margin)
  && (y >? Cameras.top bounds - margin) && (y <? Cameras.bottom bounds + margin).

(** The loop over the new land points, and the same loop over the new
    ocean points. *)
Fixpoint respawnPoints (rnd : nat -> R) (season : string) (playerSize : R)
  (bounds : Cameras.Bounds) (margin : R) (points : list Point)
  (rng : Noise.SeededRandom) (a : Alloc)
  : list GameObject * Noise.SeededRandom * Alloc :=
  match points with
  | [] => ([], rng, a)
  | point :: rest =>
      let continue_ := respawnPoints rnd season playerSize bounds margin rest in
      if isOnScreenAt bounds margin (px point) (py point)
      then continue_ rng a else
      let biome := pbiome point in
      let seasonalObjects := seasonalObjectsOf biome season in
      if (List.length seasonalObjects =? 0)%nat then continue_ rng a else
      let '(u, rng) := Noise.next rng in
      if u >? objectDensity biome then continue_ rng a else
      let validObjects :=
        filter (fun obj => shouldSpawnForPlayerSize obj playerSize)
               seasonalObjects in
      if (List.length validObjects =? 0)%nat then continue_ rng a else
      let '(selected, rng) :=
        weightedRandomSelect (Some validObjects) rng (Some playerSize) in
      match selected with
      | None => continue_ rng a
      | Some objDef =>
          let '(u2, rng) := Noise.next rng in
          let size := minSize objDef + u2 * (maxSize objDef - minSize objDef) in
          let '(obj, a) := create rnd a (px point) (py point) size objDef in
          let '(more, rng, a) := continue_ rng a in
          (obj :: more, rng, a)
      end
  end.

(** The filter of [respawnOffScreenObjects]: on screen, or permanent. *)
Definition retained (bounds : Cameras.Bounds) (margin : R) (obj : GameObject)
  : bool :=
  let isOnScreen := isOnScreenAt bounds margin (x obj) (y obj) in
  let isPermanent := PERMANENT_EMOJIS_has (emoji (type obj)) in
  isOnScreen || isPermanent.

Definition respawnOffScreenObjects (st : State) : State :=
  let season := getCurrentSeason (currentSeasonIndex st) in
  let playerSize := playerSizeOr st in
  let idx := Z.of_nat (currentSeasonIndex st) in
  let rng := Noise.new_SeededRandom (WORLD_SEED + idx * 1000) in
  let bounds := Cameras.getVisibleBounds (camera st) in
  let margin := 200 in
  let onScreenObjects := filter (retained bounds margin) (objects st) in
  let targetObjectCount := 8000%Z in
  let objectsToAdd :=
    Z.max 0 (targetObjectCount - Z.of_nat (List.length onScreenObjects)) in
  let newLandPoints :=
    generateLandSpawnPoints (world st)
      (Z.to_nat (JS.Math_floor (IZR objectsToAdd * 0.8)))
      (WORLD_SEED + idx * 100 + 50000) in
  let newOceanPoints :=
    generateOceanSpawnPoints (world st)
      (Z.to_nat (JS.Math_floor (IZR objectsToAdd * 0.2)))
      (WORLD_SEED + idx * 200 + 50000) in
  let '(land, rng, a) :=
    respawnPoints (Math_random st) season playerSize bounds margin
                  newLandPoints rng (alloc st) in
  let '(ocean, rng, a) :=
    respawnPoints (Math_random st) season playerSize bounds margin
                  newOceanPoints rng a in
  set_spawnRng (set_objects st (onScreenObjects ++ land ++ ocean) a) rng.

Definition advanceSeason (st : State) : State :=
  let st := set_season st (S (currentSeasonIndex st)) 0 (gameState st) in
  if (TOTAL_SEASONS <=? currentSeasonIndex st)%nat
  then set_season st (currentSeasonIndex st) (seasonTimer st) STATE_undefined
  else respawnOffScreenObjects st.

(** *** Continuous distance management *)

(** The comparator of the eviction sort. *)
Definition evictionCompare (playerX playerY keepRadius collectibleThreshold : R)
  (a b : GameObject) : R :=
  let distA := getWrappedDistance (x a) (y a) playerX playerY in
  let distB := getWrappedDistance (x b) (y b) playerX playerY in
  let nearCollectibleA :=
    (distA <? keepRadius) && (size a <? collectibleThreshold) in
  let nearCollectibleB :=
    (distB <? keepRadius) && (size b <? collectibleThreshold) in
  if nearCollectibleA && negb nearCollectibleB then 1 else
  if nearCollectibleB && negb nearCollectibleA then -1 else
  let nearA := distA <? keepRadius in
  let nearB := distB <? keepRadius in
  if nearA && negb nearB then 1 else
  if nearB && negb nearA then -1 else
  let priorityA := 1 / Rmax distA 1 in
  let priorityB := 1 / Rmax distB 1 in
  priorityA - priorityB.

(** An object the comparator ranks highest: within the keep radius of the
    player and small enough to be collected. *)
Definition nearCollectible (playerX playerY playerSize keepRadius : R)
  (obj : GameObject) : bool :=
  (getWrappedDistance (x obj) (y obj) playerX playerY <? keepRadius)
  && (size obj <? playerSize * 0.95).

(** The block that enforces [MAX_OBJECTS]: sort by priority, keep the last
    [MAX_OBJECTS]. *)
Definition enforceMaxObjects (playerX playerY playerSize keepRadius : R)
  (objs : list GameObject) : list GameObject :=
  if (MAX_OBJECTS <? List.length objs)%nat then
    let collectibleThreshold := playerSize * 0.95 in
    let sorted :=
      JS.Array_sort
        (evictionCompare playerX playerY keepRadius collectibleThreshold)
        objs in
    skipn (List.length sorted - MAX_OBJECTS) sorted
  else objs.

(** The spawn loop at the edge of the spawn radius, [n] iterations. *)
Fixpoint edgeSpawnLoop (w : Worlds.World) (rnd : nat -> R) (season : string)
  (playerSize playerX playerY spawnRadius : R) (n : nat)
  (rng : Noise.SeededRandom) (a : Alloc) : list GameObject * Alloc :=
  match n with
  | O => ([], a)
  | S n' =>
      let continue_ :=
        edgeSpawnLoop w rnd season playerSize playerX playerY spawnRadius n' in
      let '(u1, rng) := Noise.next rng in
      let angle := u1 * PI * 2 in
      let '(u2, rng) := Noise.next rng in
      let dist := spawnRadius * 0.8 + u2 * spawnRadius * 0.4 in
      let newX := playerX + cos angle * dist in
      let newY := playerY + sin angle * dist in
      let newX := wrap newX WORLD_WIDTH in
      let newY := wrap newY WORLD_HEIGHT in
      let biome := Worlds.getBiomeAt w newX newY in
      let seasonalObjects := seasonalObjectsOf biome season in
      if (List.length seasonalObjects =? 0)%nat then continue_ rng a else
      let validObjects :=
        filter (fun obj => shouldSpawnForPlayerSize obj playerSize)
               seasonalObjects in
      if (List.length validObjects =? 0)%nat then continue_ rng a else
      let '(u3, rng) := Noise.next rng in
      if u3 >? objectDensity biome then continue_ rng a else
      let '(selected, rng) :=
        weightedRandomSelect (Some validObjects) rng (Some playerSize) in
      match selected with
      | None => continue_ rng a
      | Some objDef =>
          let '(u4, rng) := Noise.next rng in
          let size := minSize objDef + u4 * (maxSize objDef - minSize objDef) in
          let '(obj, a) := create rnd a newX newY size objDef in
          let '(more, a) := continue_ rng a in
          (obj :: more, a)
      end
  end.

Definition updateDistanceBasedSpawning (st : State) : State :=
  let st := set_spawnCheckCounter st (S (spawnCheckCounter st)) in
  if (spawnCheckCounter st <? SPAWN_CHECK_INTERVAL)%nat then st else
  let st := set_spawnCheckCounter st 0 in
  match player st with
  | None => st
  | Some p =>
      let playerX := Players.x p in
      let playerY := Players.y p in
      let currentZoom := Cameras.zoom (camera st) in
      let zoomScale := 1 / currentZoom in
      let spawnRadius := BASE_SPAWN_RADIUS * zoomScale in
      let despawnRadius := BASE_DESPAWN_RADIUS * zoomScale in
      let keepRadius := BASE_KEEP_RADIUS * zoomScale in
      let moveThreshold := 50 * zoomScale in
      let moveDistance :=
        getWrappedDistance playerX playerY (lastPlayerX st) (lastPlayerY st) in
      if moveDistance <? moveThreshold then st else
      let st := set_lastPlayer st playerX playerY in
      let season := getCurrentSeason (currentSeasonIndex st) in
      let playerSize := Players.size p in
      let objectsToKeep :=
        filter (fun obj =>
                  getWrappedDistance (x obj) (y obj) playerX playerY
                  <? despawnRadius)
               (objects st) in
      let despawnedCount :=
        (Z.of_nat (List.length (objects st))
         - Z.of_nat (List.length objectsToKeep))%Z in
      let objs :=
        enforceMaxObjects playerX playerY playerSize keepRadius objectsToKeep in
      let visibleRadius := spawnRadius * 0.5 in
      let nearbyCount :=
        List.length
          (filter (fun obj =>
                     getWrappedDistance (x obj) (y obj) playerX playerY
                     <? visibleRadius)
                  objs) in
      let visibleArea := PI * visibleRadius * visibleRadius in
      let targetDensity := visibleArea / (150 * 150) in
      let densityDeficit :=
        Z.max 0 (JS.Math_floor (targetDensity - INR nearbyCount)) in
      let availableSlots :=
        (Z.of_nat MAX_OBJECTS - Z.of_nat (List.length objs))%Z in
      let spawnCount :=
        Z.min (despawnedCount + densityDeficit) availableSlots in
      if (0 <? spawnCount)%Z then
        let spawnSeed := (WORLD_SEED + Z.of_nat (frameCount st))%Z in
        let rng := Noise.new_SeededRandom spawnSeed in
        let '(spawnedObjs, a) :=
          edgeSpawnLoop (world st) (Math_random st) season playerSize
                        playerX playerY spawnRadius
                        (Z.to_nat spawnCount) rng (alloc st) in
        set_objects st (objs ++ spawnedObjs) a
      else set_objects st objs (alloc st)
  end.

(** *** One frame of play *)

Definition gravityStrength : R := 15.

(** The body of the loop that applies gravity and updates every object. *)
Definition gravityStep (p : Players.Player) (obj : GameObject) : GameObject :=
  let obj :=
    if negb (collected obj) && Players.canCollect p obj
    then applyGravity obj (Players.x p) (Players.y p) gravityStrength
                      (Players.size p) WORLD_WIDTH WORLD_HEIGHT
    else obj in
  update obj (Some WORLD_WIDTH) (Some WORLD_HEIGHT).

Definition isRareObject (objType : ObjDef) : bool :=
  match weight objType with
  | Some wt => wt <=? 0.05
  | None => false
  end.

(** The collision loop.  It walks the array from its last index down, so
    [revObjs] is the array reversed; the result is the array that is left,
    in its own order. *)
Fixpoint collisionLoop (revObjs : list GameObject) (p : Players.Player)
  (cc : nat) (gs : STATE) : list GameObject * Players.Player * nat * STATE :=
  match revObjs with
  | [] => ([], p, cc, gs)
  | obj :: rest =>
      if collected obj then
        let '(kept, p, cc, gs) := collisionLoop rest p cc gs in
        (kept ++ [obj], p, cc, gs)
      else if Players.collidesWith p obj WORLD_WIDTH WORLD_HEIGHT then
        if Players.canCollect p obj then
          let growAmount := calculateGrowthAmount (size obj) (Players.size p) in
          let p := Players.grow p growAmount in
          let cc := S cc in
          let gs := if Players.size p >=? PLANET_CONSUME_SIZE
                    then PLANET_CONSUMED else gs in
          collisionLoop rest p cc gs
        else
          let p := Players.bounceFrom p (x obj) (y obj)
                                      WORLD_WIDTH WORLD_HEIGHT in
          let '(kept, p, cc, gs) := collisionLoop rest p cc gs in
          (kept ++ [obj], p, cc, gs)
      else
        let '(kept, p, cc, gs) := collisionLoop rest p cc gs in
        (kept ++ [obj], p, cc, gs)
  end.

(** [updateGame()], with the state of the direction pad as [input].  The
    function runs only while the game is played, when [player] is set. *)
Definition updateGame (st : State) (input : Players.Input) : State :=
  match player st with
  | None => st
  | Some p =>
      let p := Players.update p input WORLD_WIDTH WORLD_HEIGHT
                              (Some (world st)) in
      let cam := Cameras.setTargetZoom (camera st) (calculateZoom p) in
      let cam := Cameras.follow cam (Players.x p) (Players.y p) in
      let st := set_player_camera st p cam in
      let st := updateDistanceBasedSpawning st in
      let objs := map (gravityStep p) (objects st) in
      let '(objs, p, cc, gs) :=
        collisionLoop (rev objs) p (collectedCount st) (gameState st) in
      let st := set_collisions st objs p cc gs in
      let st := set_season st (currentSeasonIndex st) (S (seasonTimer st))
                              (gameState st) in
      if (SEASON_DURATION <=? seasonTimer st)%nat
      then advanceSeason st else st
  end.

(** What the player presses during one frame. *)
Record Controls := mkControls { DPAD : Players.Input; ONE_PLAYER : bool }.

(** [p.draw]: one frame.  The frame counter has been advanced when the
    function body runs.  The screen shake at the head of the function,
    which moves the canvas and decays [screenShake] in every state of the
    game, is left out with the drawing. *)
Definition draw (st : State) (c : Controls) : State :=
  let st := set_frameCount st (S (frameCount st)) in
  match gameState st with
  | TITLE => if ONE_PLAYER c then startGame st else st
  | PLAYING => updateGame st (DPAD c)
  | PLANET_CONSUMED => if ONE_PLAYER c then startGame st else st
  | STATE_undefined => st
  end.


(** The states the simulation reaches from its initial state [st0]: any
    number of frames, each with any controls. *)
Inductive reachable (st0 : State) : State -> Prop :=
| reachable_init : reachable st0 st0
| reachable_draw : forall st c, reachable st0 st -> reachable st0 (draw st c).

End Sketch.

(* ================================================================== *)
(** ** Concrete objects, players, worlds and states *)
(* ================================================================== *)

Module Examples.

Import Biomes.
Open Scope string_scope.
Open Scope list_scope.
Open Scope R_scope.

(** A small collectible entry, and an object of it at the origin. *)
Definition seedling : ObjDef :=
  mkObjDef "🌱" "Seedling" 5 10 (Some 1) "scattered" None None None.

Definition seedlingAtOrigin : GameObjects.GameObject :=
  GameObjects.new_GameObject 0 0.5 0.5 0.5 0.5 0 0 8 seedling.

(** The same object, moving up and to the right. *)
Definition movingSeedling : GameObjects.GameObject :=
  GameObjects.with_velocity seedlingAtOrigin 3 (-4).

Definition noInput : Players.Input := Players.mkInput false false false false.
Definition pressRight : Players.Input := Players.mkInput false false false true.

(** A player of the starting size, at rest. *)
Definition startingPlayer : Players.Player := Players.new_Player 100 100 12.

(** The eviction scenario: [MAX_OBJECTS] small objects ten units from a
    player at the origin, and as many five thousand units away. *)
Definition nearSeedling (i : nat) : GameObjects.GameObject :=
  GameObjects.new_GameObject i 0.5 0.5 0.5 0.5 10 0 8 seedling.

Definition farSeedling (i : nat) : GameObjects.GameObject :=
  GameObjects.new_GameObject i 0.5 0.5 0.5 0.5 5000 0 8 seedling.

Definition crowd : list GameObjects.GameObject :=
  map farSeedling (seq 0 Sketch.MAX_OBJECTS)
  ++ map nearSeedling (seq Sketch.MAX_OBJECTS Sketch.MAX_OBJECTS).

(** A world that is one meadow, with nothing to collect in spring and
    seedlings in the other seasons; the player starts near its corner. *)
Definition bareMeadow : Biome :=
  mkBiome "meadow" "Meadow"
    (fun season => if String.eqb season "spring" then Some []
                   else Some [seedling])
    1 false None.

Definition bareWorld : Worlds.World :=
  Worlds.mkWorld (fun _ _ => bareMeadow) (200, 200).

(** The season transition scenario: object A next to the player, object B
    of the same type far off screen, one frame before the end of spring. *)
Definition objectA : GameObjects.GameObject :=
  GameObjects.new_GameObject 0 0.5 0.5 0.5 0.5 210 190 8 seedling.

Definition objectB : GameObjects.GameObject :=
  GameObjects.new_GameObject 1 0.5 0.5 0.5 0.5 9000 9000 8 seedling.

Definition endOfSpring : Sketch.State :=
  Sketch.mkState Sketch.PLAYING 0 899
    (Some (Players.new_Player 200 200 12))
    [objectA; objectB] 0 bareWorld
    (Cameras.centerOn
       (Cameras.new_Camera Sketch.SCREEN_WIDTH Sketch.SCREEN_HEIGHT
                           WORLD_WIDTH WORLD_HEIGHT) 200 200)
    None 0 200 200 900 (Sketch.mkAlloc 2 8) (fun _ => 0.5).

(** A frame of the first summer in which every part of the frame has work
    to do: the player, at rest at (200, 200), has come a long way since the
    last pass of the distance management, which is due on this frame;
    object B is far beyond the despawn radius, object A is near, and
    object C overlaps the player and is small enough to be collected. *)
Definition objectC : GameObjects.GameObject :=
  GameObjects.new_GameObject 2 0.5 0.5 0.5 0.5 203 200 8 seedling.

Definition midSummer : Sketch.State :=
  Sketch.mkState Sketch.PLAYING 1 100
    (Some (Players.new_Player 200 200 12))
    [objectA; objectB; objectC] 0 bareWorld
    (Cameras.centerOn
       (Cameras.new_Camera Sketch.SCREEN_WIDTH Sketch.SCREEN_HEIGHT
                           WORLD_WIDTH WORLD_HEIGHT) 200 200)
    None 29 0 0 1000 (Sketch.mkAlloc 3 12) (fun _ => 0.5).

(** The game from its title screen in the bare world, the controls of a
    frame that starts the game and of a frame that touches nothing, and
    [n] frames of the latter. *)
Definition titleScreen : Sketch.State :=
  Sketch.mkState Sketch.TITLE 0 0 None [] 0 bareWorld
    (Cameras.new_Camera Sketch.SCREEN_WIDTH Sketch.SCREEN_HEIGHT
                        WORLD_WIDTH WORLD_HEIGHT)
    None 0 0 0 0 (Sketch.mkAlloc 0 0) (fun _ => 0.5).

Definition pressStart : Sketch.Controls := Sketch.mkControls noInput true.
Definition idle : Sketch.Controls := Sketch.mkControls noInput false.





(** The ring seeding scenario in a world that is one range of mountains,
    which spawn in clusters: the player at the center of the world, at the
    start of the first spring. *)
Definition mountain : ObjDef :=
  mkObjDef "🏔" "Mountain" 2800 3000 (Some 1) "clustered" None None None.

Definition mountainRange : Biome :=
  mkBiome "hills" "Hills" (fun _ => Some [mountain]) 1 false None.

Definition mountainWorld : Worlds.World :=
  Worlds.mkWorld (fun _ _ => mountainRange) (WORLD_CENTER_X, WORLD_CENTER_Y).

Definition atWorldCenter : Sketch.State :=
  Sketch.mkState Sketch.PLAYING 0 0
    (Some (Players.new_Player WORLD_CENTER_X WORLD_CENTER_Y 12))
    [] 0 mountainWorld
    (Cameras.centerOn
       (Cameras.new_Camera Sketch.SCREEN_WIDTH Sketch.SCREEN_HEIGHT
                           WORLD_WIDTH WORLD_HEIGHT)
       WORLD_CENTER_X WORLD_CENTER_Y)
    None 0 WORLD_CENTER_X WORLD_CENTER_Y 0 (Sketch.mkAlloc 0 0) (fun _ => 0.5).

(** The camera of a new game, centered on the point (200, 200). *)
Definition startCamera : Cameras.Camera :=
  Cameras.centerOn
    (Cameras.new_Camera Sketch.SCREEN_WIDTH Sketch.SCREEN_HEIGHT
                        WORLD_WIDTH WORLD_HEIGHT) 200 200.

End Examples.

(* ================================================================== *)
(** * Properties *)
(* ================================================================== *)

(** ** Comparisons and arithmetic of the number model *)

Lemma ltb_true_iff (x y : R) : (x <? y) = true <-> x < y.
Proof. unfold JS.ltb. destruct (Rlt_dec x y); split; auto; discriminate. Qed.

Lemma ltb_false_iff (x y : R) : (x <? y) = false <-> y <= x.
Proof.
  unfold JS.ltb. destruct (Rlt_dec x y); split; intros; try discriminate;
    auto; lra.
Qed.

Lemma leb_true_iff (x y : R) : (x <=? y) = true <-> x <= y.
Proof. unfold JS.leb. destruct (Rle_dec x y); split; auto; discriminate. Qed.

Lemma leb_false_iff (x y : R) : (x <=? y) = false <-> y < x.
Proof.
  unfold JS.leb. destruct (Rle_dec x y); split; intros; try discriminate;
    auto; lra.
Qed.

Lemma gtb_true_iff (x y : R) : (x >? y) = true <-> y < x.
Proof. apply ltb_true_iff. Qed.

Lemma gtb_false_iff (x y : R) : (x >? y) = false <-> x <= y.
Proof. apply ltb_false_iff. Qed.

Lemma geb_true_iff (x y : R) : (x >=? y) = true <-> y <= x.
Proof. apply leb_true_iff. Qed.

Lemma geb_false_iff (x y : R) : (x >=? y) = false <-> x < y.
Proof. apply leb_false_iff. Qed.

(** Turns every comparison of the goal and the context into its meaning. *)
Ltac js_cmp :=
  repeat match goal with
  | H : (_ <? _) = true |- _ => apply ltb_true_iff in H
  | H : (_ <? _) = false |- _ => apply ltb_false_iff in H
  | H : (_ <=? _) = true |- _ => apply leb_true_iff in H
  | H : (_ <=? _) = false |- _ => apply leb_false_iff in H
  | H : (_ >? _) = true |- _ => apply gtb_true_iff in H
  | H : (_ >? _) = false |- _ => apply gtb_false_iff in H
  | H : (_ >=? _) = true |- _ => apply geb_true_iff in H
  | H : (_ >=? _) = false |- _ => apply geb_false_iff in H
  end.

Lemma Rabs_bound (v d : R) : Rabs v <= d -> - d <= v <= d.
Proof. unfold Rabs. destruct (Rcase_abs v); lra. Qed.

(** The remainder of a division by a positive number lies strictly between
    the divisor and its opposite, and is not negative for a dividend that
    is not. *)
Lemma rem_bounds (v dim : R) :
  0 < dim -> - dim < JS.rem v dim < dim /\ (0 <= v -> 0 <= JS.rem v dim).
Proof.
  intros Hdim. unfold JS.rem, JS.trunc.
  assert (Hq : v = dim * (v / dim)) by (field; lra).
  destruct (Rle_dec 0 (v / dim)) as [Hpos | Hneg].
  - pose proof (Zfloor_bound (v / dim)) as [Hlo Hhi].
    assert (0 <= dim * (v / dim - IZR (Zfloor (v / dim))) < dim * 1) as Hb.
    { split.
      - apply Rmult_le_pos; lra.
      - apply Rmult_lt_compat_l; lra. }
    split; [split|intros _]; nra.
  - pose proof (Zceil_bound (v / dim)) as [Hlo Hhi].
    assert (v < 0).
    { apply Rnot_le_lt in Hneg. rewrite Hq.
      assert (dim * (v / dim) < dim * 0) by (apply Rmult_lt_compat_l; lra).
      lra. }
    assert (dim * (-1) < dim * (v / dim - IZR (Zceil (v / dim))) <= dim * 0)
      as Hb.
    { split.
      - apply Rmult_lt_compat_l; lra.
      - apply Rmult_le_compat_l; lra. }
    split; [split|intros Hv]; nra.
Qed.

(** The double remainder brings every coordinate into the world. *)
Lemma wrap_range (v dim : R) :
  0 < dim -> 0 <= GameObjects.wrap v dim < dim.
Proof.
  intros Hdim. unfold GameObjects.wrap.
  destruct (rem_bounds v dim Hdim) as [[Hlo Hhi] _].
  set (r := JS.rem v dim + dim) in *.
  assert (Hr : 0 < r < 2 * dim) by (unfold r; lra).
  destruct (rem_bounds r dim Hdim) as [[_ Hhi2] Hnn].
  split; [apply Hnn; lra | exact Hhi2].
Qed.

(** A coordinate inside the world is left where it is. *)
Lemma rem_small (v dim : R) : 0 <= v < dim -> 0 < dim -> JS.rem v dim = v.
Proof.
  intros [Hlo Hhi] Hdim. unfold JS.rem, JS.trunc.
  assert (Hq : 0 <= v / dim < 1).
  { split.
    - apply Rmult_le_pos; [lra|]. left. apply Rinv_0_lt_compat; lra.
    - apply (Rmult_lt_reg_r dim); [lra|]. unfold Rdiv.
      rewrite Rmult_assoc, Rinv_l by lra. lra. }
  destruct (Rle_dec 0 (v / dim)) as [_ | Hneg]; [|lra].
  rewrite (Zfloor_eq 0 (v / dim)) by (simpl; lra). simpl. lra.
Qed.

Lemma rem_shifted (v dim : R) :
  0 <= v < dim -> 0 < dim -> JS.rem (v + dim) dim = v.
Proof.
  intros [Hlo Hhi] Hdim. unfold JS.rem, JS.trunc.
  assert (Hq : (v + dim) / dim = v / dim + 1) by (field; lra).
  assert (Hq' : 0 <= v / dim < 1).
  { split.
    - apply Rmult_le_pos; [lra|]. left. apply Rinv_0_lt_compat; lra.
    - apply (Rmult_lt_reg_r dim); [lra|]. unfold Rdiv.
      rewrite Rmult_assoc, Rinv_l by lra. lra. }
  destruct (Rle_dec 0 ((v + dim) / dim)) as [_ | Hneg]; [|lra].
  rewrite (Zfloor_eq 1 ((v + dim) / dim)) by (simpl; lra). simpl. lra.
Qed.

Lemma wrap_inside (v dim : R) :
  0 <= v < dim -> GameObjects.wrap v dim = v.
Proof.
  intros Hv. assert (Hdim : 0 < dim) by lra.
  unfold GameObjects.wrap. rewrite (rem_small v dim Hv Hdim).
  apply rem_shifted; assumption.
Qed.

(** ** The seeded generator *)

Lemma to_uint32_range (z : Z) : (0 <= JS.to_uint32 z < 4294967296)%Z.
Proof. unfold JS.to_uint32. apply Z.mod_pos_bound. lia. Qed.

Lemma mix_range (st : Z) : (0 <= Noise.mix st < 4294967296)%Z.
Proof.
  unfold Noise.mix, JS.ushr. rewrite Z.shiftr_0_r. apply to_uint32_range.
Qed.

(** [next()] returns a number of [0, 1). *)
Lemma next_range (g : Noise.SeededRandom) : 0 <= fst (Noise.next g) < 1.
Proof.
  unfold Noise.next. simpl.
  pose proof (mix_range (Noise.state g + 1831565813)) as [Hlo Hhi].
  apply IZR_le in Hlo. apply IZR_lt in Hhi.
  split.
  - apply Rmult_le_pos; [exact Hlo|]. left. apply Rinv_0_lt_compat. lra.
  - apply (Rmult_lt_reg_r 4294967296); [lra|]. unfold Rdiv.
    rewrite Rmult_assoc, Rinv_l by lra. lra.
Qed.

(** ** Collectibility *)

(** C7. [canCollect(obj)] holds exactly when the size of the object is
    strictly below 95% of the size of the player: it is false at the
    threshold itself, and no other field of the object (the boundary flag
    included) has a say. *)
Theorem canCollect_threshold :
  forall (p : Players.Player) (obj : GameObjects.GameObject),
    (Players.canCollect p obj = true
       <-> GameObjects.size obj < Players.size p * 0.95)
    /\ (GameObjects.size obj = Players.size p * 0.95
        -> Players.canCollect p obj = false)
    /\ (forall obj' : GameObjects.GameObject,
          GameObjects.size obj' = GameObjects.size obj
          -> Players.canCollect p obj' = Players.canCollect p obj).
Proof.
  intros p obj. unfold Players.canCollect. repeat split.
  - intros H. now apply ltb_true_iff.
  - intros H. now apply ltb_true_iff.
  - intros Heq. apply ltb_false_iff. rewrite Heq. apply Rle_refl.
  - intros obj' Heq. now rewrite Heq.
Qed.

(** ** Weighted selection *)






(** ** Biome classifier *)

(** C8. The classifier is total: for every input it returns the entry
    [BIOMES] has for one key of the closed set of nine, so it is never
    [undefined] for a table that has the nine biomes; on land, where no
    village, zone, elevation or moisture rule applies, that key is
    [meadow]. *)
Theorem selectBiome_total :
  forall (BIOMES : Biomes.BiomeTable)
         (elevation moisture temperature : R) (zonePreference : string)
         (zoneStrength x y coastlineNoise villageNoise : R),
    (exists key, In key Biomes.BiomeIds
       /\ Biomes.selectBiome BIOMES elevation moisture temperature
            zonePreference zoneStrength x y coastlineNoise villageNoise
          = BIOMES key)
    /\ ((forall key, In key Biomes.BiomeIds -> BIOMES key <> None)
        -> Biomes.selectBiome BIOMES elevation moisture temperature
             zonePreference zoneStrength x y coastlineNoise villageNoise
           <> None)
    /\ (Biomes.getTerrainType (Biomes.getDistanceFromCenter x y) coastlineNoise
          = "land"%string
        -> villageNoise <= 0.55 -> zonePreference = "meadow"%string
        -> elevation <= 0.65 -> moisture <= 0.55
        -> Biomes.selectBiome BIOMES elevation moisture temperature
             zonePreference zoneStrength x y coastlineNoise villageNoise
           = BIOMES "meadow"%string).
Proof.
  intros BIOMES elevation moisture temperature zonePreference zoneStrength
         x y coastlineNoise villageNoise.
  assert (Hkey : exists key, In key Biomes.BiomeIds
       /\ Biomes.selectBiome BIOMES elevation moisture temperature
            zonePreference zoneStrength x y coastlineNoise villageNoise
          = BIOMES key).
  { unfold Biomes.selectBiome, Biomes.BiomeIds.
    repeat match goal with
    | |- context [if ?c then _ else _] => destruct c
    end;
    eexists; (split; [|reflexivity]); simpl; tauto. }
  split; [exact Hkey|]. split.
  - intros Hall. destruct Hkey as (key & Hin & ->). now apply Hall.
  - intros Hland Hv -> He Hm. unfold Biomes.selectBiome. rewrite Hland.
    assert (Hv1 : (villageNoise >? 0.75) = false)
      by (apply gtb_false_iff; lra).
    assert (Hv2 : (villageNoise >? 0.55) = false)
      by (apply gtb_false_iff; lra).
    assert (He1 : (elevation >? 0.65) = false)
      by (apply gtb_false_iff; lra).
    assert (Hm1 : (moisture >? 0.55) = false)
      by (apply gtb_false_iff; lra).
    assert (Hm2 : (moisture >? 0.75) = false)
      by (apply gtb_false_iff; lra).
    rewrite Hv1, Hv2, He1, Hm1, Hm2. reflexivity.
Qed.

(** ** Radial force *)

Lemma sqrt_sum_squares_ge (a b : R) : Rabs a <= sqrt (a * a + b * b).
Proof.
  rewrite <- (sqrt_Rsqr_abs a). apply sqrt_le_1_alt. unfold Rsqr. nra.
Qed.

(** Scaling a velocity to a given magnitude gives exactly that magnitude. *)
Lemma rescaled_speed (a b m : R) :
  0 <= m -> 0 < sqrt (a * a + b * b) ->
  let vel := sqrt (a * a + b * b) in
  sqrt ((a / vel * m) * (a / vel * m) + (b / vel * m) * (b / vel * m)) = m.
Proof.
  intros Hm Hvel vel.
  assert (Hs : 0 <= a * a + b * b) by nra.
  assert (Hsq : vel * vel = a * a + b * b) by (apply sqrt_sqrt; exact Hs).
  replace ((a / vel * m) * (a / vel * m) + (b / vel * m) * (b / vel * m))
    with (m * m).
  - apply sqrt_square. exact Hm.
  - assert (Hne : vel <> 0) by (unfold vel; lra).
    transitivity ((a * a + b * b) / (vel * vel) * (m * m)).
    + rewrite <- Hsq. field. exact Hne.
    + field. exact Hne.
Qed.





(** ** Positions stay inside the world *)

Lemma clamped_component (a b m : R) :
  0 <= m ->
  Rabs (if sqrt (a * a + b * b) >? m
        then a / sqrt (a * a + b * b) * m else a) <= m.
Proof.
  intros Hm. pose proof (sqrt_sum_squares_ge a b) as Ha.
  destruct (_ >? m) eqn:E; js_cmp.
  - set (s := sqrt (a * a + b * b)) in *.
    assert (Hs : 0 < s) by lra.
    assert (Ht : Rabs (a / s) <= 1).
    { unfold Rdiv. rewrite Rabs_mult, (Rabs_pos_eq (/ s)).
      - apply (Rmult_le_reg_r s); [exact Hs|].
        rewrite Rmult_assoc, Rinv_l by lra. lra.
      - left. now apply Rinv_0_lt_compat. }
    rewrite Rabs_mult, (Rabs_pos_eq m) by exact Hm.
    pose proof (Rabs_pos (a / s)). nra.
  - lra.
Qed.

(** The single-step wrap of [Player.update] is enough for a displacement
    that is not longer than the world. *)
Lemma single_step_wrap (x v dim : R) :
  0 <= x < dim -> Rabs v <= dim ->
  0 <= (if (if x + v <? 0 then x + v + dim else x + v) >=? dim
        then (if x + v <? 0 then x + v + dim else x + v) - dim
        else (if x + v <? 0 then x + v + dim else x + v)) < dim.
Proof.
  intros Hx Hv. apply Rabs_bound in Hv.
  destruct (x + v <? 0) eqn:E1; js_cmp.
  - destruct (x + v + dim >=? dim) eqn:E2; js_cmp; lra.
  - destruct (x + v >=? dim) eqn:E2; js_cmp; lra.
Qed.

Lemma baseTerrainSpeed_range (b : Biomes.Biome) :
  0.4 <= Biomes.baseTerrainSpeed b <= 1.
Proof.
  unfold Biomes.baseTerrainSpeed, Biomes.TERRAIN_SPEED, JS.or_default.
  repeat match goal with
  | |- context [if ?c then _ else _] => destruct c
  | |- context [match ?c with Some _ => _ | None => _ end] => destruct c
  end; lra.
Qed.

Lemma getTerrainSpeedMultiplier_range (b : Biomes.Biome) (playerSize : R) :
  0 < playerSize ->
  0 <= Biomes.getTerrainSpeedMultiplier b playerSize <= 1.
Proof.
  intros Hps. unfold Biomes.getTerrainSpeedMultiplier.
  pose proof (baseTerrainSpeed_range b) as Hb.
  set (r := Rmin 1 (playerSize / Biomes.TERRAIN_PENALTY_REDUCTION_SIZE)).
  assert (Hr : 0 <= r <= 1).
  { unfold r, Biomes.TERRAIN_PENALTY_REDUCTION_SIZE. split.
    - apply Rmin_glb; [lra|]. apply Rmult_le_pos; lra.
    - apply Rmin_l. }
  nra.
Qed.

(** The single conditional addition or subtraction of one world dimension in
    [Player.update] keeps the player inside the world as long as the bound
    the function puts on the speed does not exceed the world dimensions. *)
Lemma player_stays_in_world (p : Players.Player) (input : Players.Input)
  (world : option Worlds.World) (worldWidth worldHeight : R) :
  0 < Players.size p ->
  (world = None -> 0 <= Players.terrainSpeedMultiplier p <= 1) ->
  Players.speedCap p <= worldWidth ->
  Players.speedCap p <= worldHeight ->
  Players.inWorld p worldWidth worldHeight ->
  Players.inWorld (Players.update p input worldWidth worldHeight world)
                  worldWidth worldHeight.
Proof.
  set (W := worldWidth). set (H := worldHeight).
  intros Hsize Hterrain HcapW HcapH [Hx Hy].
  unfold Players.speedCap, Players.BASE_MAX_SPEED in *.
  unfold Players.update.
  set (terrain1 := snd
    match world with
    | Some w => (Some (Worlds.getBiomeAt w (Players.x p) (Players.y p)),
                 Biomes.getTerrainSpeedMultiplier
                   (Worlds.getBiomeAt w (Players.x p) (Players.y p))
                   (Players.size p))
    | None => (Players.currentBiome p, Players.terrainSpeedMultiplier p)
    end).
  assert (Ht : 0 <= terrain1 <= 1).
  { unfold terrain1. destruct world; simpl.
    - now apply getTerrainSpeedMultiplier_range.
    - now apply Hterrain. }
  assert (Hclamp : forall a b m,
    m = 4.5 * sqrt (Players.size p / 12) * terrain1 ->
    Rabs (if sqrt (a * a + b * b) >? m
          then a / sqrt (a * a + b * b) * m else a) <= W
    /\ Rabs (if sqrt (a * a + b * b) >? m
             then b / sqrt (a * a + b * b) * m else b) <= H).
  { intros a b m ->.
    pose proof (sqrt_pos (Players.size p / 12)) as Hsq.
    assert (Hm : 0 <= 4.5 * sqrt (Players.size p / 12) * terrain1) by nra.
    pose proof (clamped_component a b _ Hm) as Hcx.
    pose proof (clamped_component b a _ Hm) as Hcy.
    replace (b * b + a * a) with (a * a + b * b) in Hcy by lra.
    split; nra. }
  destruct world as [w|]; simpl in terrain1; cbv zeta; fold terrain1;
    unfold Players.BASE_MAX_SPEED;
    match goal with
    | |- context [sqrt (?a * ?a + ?b * ?b) >? ?m] =>
        destruct (Hclamp a b m eq_refl) as [HcW HcH]
    end;
    (split; simpl; apply single_step_wrap; assumption).
Qed.

(** At the sizes the game plays with, the bound on the speed of the player
    is far below the dimensions of the world. *)
Lemma speedCap_in_play (p : Players.Player) :
  Players.size p <= Sketch.PLANET_CONSUME_SIZE -> Players.speedCap p <= 67.5.
Proof.
  unfold Sketch.PLANET_CONSUME_SIZE, Players.speedCap, Players.BASE_MAX_SPEED.
  intros Hsize.
  assert (Hs : sqrt (Players.size p / 12) <= 15).
  { rewrite <- (sqrt_square 15) by lra. apply sqrt_le_1_alt. lra. }
  lra.
Qed.

(** C9.  A position inside the world before the update of a frame is inside
    the world after it.  For an object this is [GameObject.update] called
    with the world dimensions, whatever the velocity.  For the player it is
    [Player.update] as the game calls it, with the dimensions of its world
    and the world itself, at every size at which the game updates the
    player: from [STARTING_SIZE] up to [PLANET_CONSUME_SIZE], where the game
    leaves the state [PLAYING].  At these sizes the speed stays far below
    one world dimension, which the single conditional addition or
    subtraction in [Player.update] relies on. *)
Theorem positions_stay_in_world :
  forall (o : GameObjects.GameObject) (p : Players.Player)
         (input : Players.Input) (world : Worlds.World)
         (worldWidth worldHeight : R),
    0 < worldWidth -> 0 < worldHeight ->
    (GameObjects.inWorld o worldWidth worldHeight ->
     GameObjects.inWorld
       (GameObjects.update o (Some worldWidth) (Some worldHeight))
       worldWidth worldHeight)
    /\ (Sketch.STARTING_SIZE <= Players.size p <= Sketch.PLANET_CONSUME_SIZE ->
        Players.inWorld p Biomes.WORLD_WIDTH Biomes.WORLD_HEIGHT ->
        Players.inWorld
          (Players.update p input Biomes.WORLD_WIDTH Biomes.WORLD_HEIGHT
                          (Some world))
          Biomes.WORLD_WIDTH Biomes.WORLD_HEIGHT).
Proof.
  intros o p input world W H HW HH. split.
  - intros [Hx Hy]. unfold GameObjects.update, GameObjects.truthy.
    assert (EW : JS.eqb W 0 = false)
      by (unfold JS.eqb; destruct (Req_dec_T W 0); [lra | reflexivity]).
    assert (EH : JS.eqb H 0 = false)
      by (unfold JS.eqb; destruct (Req_dec_T H 0); [lra | reflexivity]).
    rewrite EW, EH. simpl.
    destruct (negb _ || negb _).
    + split; simpl; apply wrap_range; assumption.
    + split; simpl; assumption.
  - intros [Hmin Hmax] Hin.
    pose proof (speedCap_in_play p Hmax) as Hcap.
    unfold Sketch.STARTING_SIZE in Hmin.
    apply player_stays_in_world.
    + lra.
    + discriminate.
    + unfold Biomes.WORLD_WIDTH. lra.
    + unfold Biomes.WORLD_HEIGHT. lra.
    + exact Hin.
Qed.

(** The world of the game, an object that moves off its top edge and a
    player of the starting size who presses right. *)
Lemma positions_stay_in_world_witness :
  GameObjects.inWorld
    (GameObjects.update Examples.movingSeedling
       (Some Biomes.WORLD_WIDTH) (Some Biomes.WORLD_HEIGHT))
    Biomes.WORLD_WIDTH Biomes.WORLD_HEIGHT
  /\ Players.inWorld
       (Players.update Examples.startingPlayer Examples.pressRight
          Biomes.WORLD_WIDTH Biomes.WORLD_HEIGHT (Some Examples.bareWorld))
       Biomes.WORLD_WIDTH Biomes.WORLD_HEIGHT.
Proof.
  assert (HW : 0 < Biomes.WORLD_WIDTH) by (unfold Biomes.WORLD_WIDTH; lra).
  assert (HH : 0 < Biomes.WORLD_HEIGHT) by (unfold Biomes.WORLD_HEIGHT; lra).
  destruct (positions_stay_in_world Examples.movingSeedling
              Examples.startingPlayer Examples.pressRight Examples.bareWorld
              Biomes.WORLD_WIDTH Biomes.WORLD_HEIGHT HW HH) as [Hobj Hplayer].
  split.
  - apply Hobj. unfold GameObjects.inWorld. simpl. lra.
  - apply Hplayer.
    + unfold Sketch.STARTING_SIZE, Sketch.PLANET_CONSUME_SIZE. simpl. lra.
    + unfold Players.inWorld, Biomes.WORLD_WIDTH, Biomes.WORLD_HEIGHT.
      simpl. lra.
Defined.


(** ** Eviction over the cap *)

Lemma sort_insert_perm {A : Type} (compare : A -> A -> R) (a : A) (l : list A) :
  Permutation (JS.sort_insert compare a l) (a :: l).
Proof.
  induction l as [|b l IH]; simpl.
  - apply Permutation_refl.
  - destruct (JS.leb (compare a b) 0).
    + apply Permutation_refl.
    + eapply perm_trans; [apply perm_skip, IH | apply perm_swap].
Qed.

(** The sort rearranges the array and loses nothing. *)
Lemma Array_sort_perm {A : Type} (compare : A -> A -> R) (l : list A) :
  Permutation (JS.Array_sort compare l) l.
Proof.
  induction l as [|a l IH]; simpl.
  - apply perm_nil.
  - eapply perm_trans; [apply sort_insert_perm | apply perm_skip, IH].
Qed.

Lemma Array_sort_length {A : Type} (compare : A -> A -> R) (l : list A) :
  List.length (JS.Array_sort compare l) = List.length l.
Proof. apply Permutation_length, Array_sort_perm. Qed.

Section EvictionOrder.

Variables playerX playerY playerSize keepRadius : R.

Let nc := Sketch.nearCollectible playerX playerY playerSize keepRadius.
Let cmp :=
  Sketch.evictionCompare playerX playerY keepRadius (playerSize * 0.95).

(** The comparator puts a near and collectible object after every object
    that is not. *)
Lemma evictionCompare_favours (a b : GameObjects.GameObject) :
  (nc a = true -> nc b = false -> cmp a b = 1)
  /\ (nc a = false -> nc b = true -> cmp a b = -1).
Proof.
  unfold nc, cmp, Sketch.nearCollectible, Sketch.evictionCompare.
  split; intros Ha Hb; rewrite Ha, Hb; reflexivity.
Qed.

(** Inserting into an array that has its near and collectible objects at
    the end keeps them there. *)
Lemma sort_insert_partition (a : GameObjects.GameObject)
  (l1 l2 : list GameObjects.GameObject) :
  Forall (fun o => nc o = false) l1 ->
  Forall (fun o => nc o = true) l2 ->
  exists l1' l2',
    JS.sort_insert cmp a (l1 ++ l2) = l1' ++ l2'
    /\ Forall (fun o => nc o = false) l1'
    /\ Forall (fun o => nc o = true) l2'.
Proof.
  intros H1 H2. induction H1 as [|c l1 Hc H1 IH].
  - destruct (nc a) eqn:Ha.
    + exists [], (JS.sort_insert cmp a l2). repeat split; [constructor|].
      apply Forall_forall. intros o Ho.
      apply (Permutation_in _ (sort_insert_perm cmp a l2)) in Ho.
      destruct Ho as [<- | Ho]; [exact Ha|].
      rewrite Forall_forall in H2. now apply H2.
    + exists [a], l2. repeat split; [|repeat constructor; assumption|exact H2].
      destruct l2 as [|b l2]; [reflexivity|]. simpl.
      inversion H2 as [|? ? Hb _]; subst.
      destruct (evictionCompare_favours a b) as [_ Hneg].
      rewrite (Hneg Ha Hb).
      assert (E : JS.leb (-1) 0 = true) by (apply leb_true_iff; lra).
      rewrite E. reflexivity.
  - simpl. destruct (JS.leb (cmp a c) 0) eqn:E.
    + destruct (nc a) eqn:Ha.
      * destruct (evictionCompare_favours a c) as [Hpos _].
        rewrite (Hpos Ha Hc) in E. apply leb_true_iff in E. lra.
      * exists (a :: c :: l1), l2. repeat split; [|exact H2].
        repeat constructor; assumption.
    + destruct IH as (l1' & l2' & Heq & Hf1 & Hf2).
      exists (c :: l1'), l2'. rewrite Heq. repeat split; [|exact Hf2].
      constructor; assumption.
Qed.

(** After the sort the near and collectible objects are the tail of the
    array. *)
Lemma Array_sort_partition (l : list GameObjects.GameObject) :
  exists l1 l2,
    JS.Array_sort cmp l = l1 ++ l2
    /\ Forall (fun o => nc o = false) l1
    /\ Forall (fun o => nc o = true) l2.
Proof.
  induction l as [|a l IH]; simpl.
  - exists [], []. repeat split; constructor.
  - destruct IH as (l1 & l2 & -> & H1 & H2).
    now apply sort_insert_partition.
Qed.

Lemma filter_none (l : list GameObjects.GameObject) :
  Forall (fun o => nc o = false) l -> filter nc l = [].
Proof.
  induction 1 as [|a l Ha _ IH]; simpl; [reflexivity|]. now rewrite Ha.
Qed.

Lemma filter_all (l : list GameObjects.GameObject) :
  Forall (fun o => nc o = true) l -> filter nc l = l.
Proof.
  induction 1 as [|a l Ha _ IH]; simpl; [reflexivity|]. now rewrite Ha, IH.
Qed.

Lemma filter_perm_length (l l' : list GameObjects.GameObject) :
  Permutation l l' ->
  List.length (filter nc l) = List.length (filter nc l').
Proof.
  induction 1 as [| a l l' _ IH | a b l | l l' l'' _ IH1 _ IH2]; simpl.
  - reflexivity.
  - destruct (nc a); simpl; now rewrite IH.
  - destruct (nc a), (nc b); reflexivity.
  - now rewrite IH1.
Qed.

(** What the truncation keeps when the array is over the cap: exactly the
    near and collectible objects, provided there are [MAX_OBJECTS] of them. *)
Lemma enforceMaxObjects_keeps (objs : list GameObjects.GameObject) :
  (Sketch.MAX_OBJECTS < List.length objs)%nat ->
  List.length (filter nc objs) = Sketch.MAX_OBJECTS ->
  Permutation (Sketch.enforceMaxObjects playerX playerY playerSize keepRadius
                 objs)
              (filter nc objs).
Proof.
  intros Hover Hcount. unfold Sketch.enforceMaxObjects.
  apply Nat.ltb_lt in Hover. rewrite Hover.
  fold cmp. rewrite Array_sort_length.
  destruct (Array_sort_partition objs) as (l1 & l2 & Hsort & H1 & H2).
  pose proof (Array_sort_perm cmp objs) as Hperm.
  pose proof (filter_perm_length _ _ Hperm) as Hlen.
  rewrite Hsort, filter_app, (filter_none l1 H1), (filter_all l2 H2) in Hlen.
  simpl in Hlen.
  pose proof (Permutation_length Hperm) as Hall.
  rewrite Hsort, length_app in Hall.
  rewrite Hsort.
  replace (List.length objs - Sketch.MAX_OBJECTS)%nat
    with (List.length l1 + 0)%nat by lia.
  rewrite skipn_app, Nat.add_0_r, skipn_all.
  replace (List.length l1 - List.length l1)%nat with 0%nat by lia.
  simpl.
  (* l2 and the filter of [objs] are the same objects *)
  assert (Hfilter : Permutation (filter nc (l1 ++ l2)) (filter nc objs)).
  { rewrite <- Hsort. clear -Hperm. revert Hperm.
    generalize (JS.Array_sort cmp objs). intros l Hperm.
    induction Hperm as [| a l l' _ IH | a b l | l l' l'' _ IH1 _ IH2]; simpl.
    - apply perm_nil.
    - destruct (nc a); [apply perm_skip|]; exact IH.
    - destruct (nc a), (nc b); try apply Permutation_refl. apply perm_swap.
    - eapply perm_trans; eassumption. }
  rewrite filter_app, (filter_none l1 H1), (filter_all l2 H2) in Hfilter.
  exact Hfilter.
Qed.

End EvictionOrder.

(** C3. From a population of twice [MAX_OBJECTS] objects of which half are
    within the keep radius and collectible, the eviction over the cap keeps
    every one of that half and leaves exactly [MAX_OBJECTS] objects,
    whatever the other half is. *)
Theorem eviction_keeps_near_collectibles :
  forall (playerX playerY playerSize keepRadius : R)
         (objs : list GameObjects.GameObject),
    List.length objs = (2 * Sketch.MAX_OBJECTS)%nat ->
    List.length
      (filter (Sketch.nearCollectible playerX playerY playerSize keepRadius)
              objs) = Sketch.MAX_OBJECTS ->
    List.length
      (Sketch.enforceMaxObjects playerX playerY playerSize keepRadius objs)
      = Sketch.MAX_OBJECTS
    /\ (forall o, In o objs ->
          Sketch.nearCollectible playerX playerY playerSize keepRadius o = true
          -> In o (Sketch.enforceMaxObjects playerX playerY playerSize
                     keepRadius objs)).
Proof.
  intros px py ps kr objs Hlen Hcount.
  assert (Hover : (Sketch.MAX_OBJECTS < List.length objs)%nat).
  { rewrite Hlen. unfold Sketch.MAX_OBJECTS. lia. }
  pose proof (enforceMaxObjects_keeps px py ps kr objs Hover Hcount) as Hperm.
  split.
  - rewrite (Permutation_length Hperm). exact Hcount.
  - intros o Hin Hnc. apply (Permutation_in _ (Permutation_sym Hperm)).
    apply filter_In. split; assumption.
Qed.

Lemma getWrappedDistance_on_axis (d : R) :
  0 <= d <= Biomes.WORLD_WIDTH / 2 -> Sketch.getWrappedDistance d 0 0 0 = d.
Proof.
  intros Hd. unfold Sketch.getWrappedDistance.
  replace (d - 0) with d by lra. replace (0 - 0) with 0 by lra.
  rewrite Rabs_R0, (Rabs_pos_eq d) by lra.
  assert (E1 : (d >? Biomes.WORLD_WIDTH / 2) = false)
    by (apply gtb_false_iff; lra).
  assert (E2 : (0 >? Biomes.WORLD_HEIGHT / 2) = false)
    by (apply gtb_false_iff; unfold Biomes.WORLD_HEIGHT; lra).
  rewrite E1, E2.
  replace (d * d + 0 * 0) with (d * d) by lra.
  apply sqrt_square. lra.
Qed.

Lemma filter_map_true {A B : Type} (f : A -> B) (p : B -> bool) (l : list A) :
  (forall a, p (f a) = true) -> filter p (map f l) = map f l.
Proof.
  intros H. induction l as [|a l IH]; simpl; [reflexivity|].
  now rewrite H, IH.
Qed.

Lemma filter_map_false {A B : Type} (f : A -> B) (p : B -> bool) (l : list A) :
  (forall a, p (f a) = false) -> filter p (map f l) = [].
Proof.
  intros H. induction l as [|a l IH]; simpl; [reflexivity|].
  now rewrite H.
Qed.

(** The eviction scenario of the specification, for a player of size 12 at
    the origin and a keep radius of 250. *)
Lemma eviction_keeps_near_collectibles_witness :
  List.length
    (Sketch.enforceMaxObjects 0 0 12 250 Examples.crowd) = Sketch.MAX_OBJECTS
  /\ (forall o, In o Examples.crowd ->
        Sketch.nearCollectible 0 0 12 250 o = true ->
        In o (Sketch.enforceMaxObjects 0 0 12 250 Examples.crowd)).
Proof.
  apply eviction_keeps_near_collectibles.
  - unfold Examples.crowd. rewrite length_app, !length_map, !length_seq.
    reflexivity.
  - unfold Examples.crowd. rewrite filter_app.
    rewrite filter_map_false, filter_map_true.
    + rewrite app_nil_l, length_map, length_seq. reflexivity.
    + intros i. unfold Sketch.nearCollectible. simpl.
      rewrite getWrappedDistance_on_axis
        by (unfold Biomes.WORLD_WIDTH; lra).
      apply andb_true_iff. split; apply ltb_true_iff; lra.
    + intros i. unfold Sketch.nearCollectible. simpl.
      rewrite getWrappedDistance_on_axis
        by (unfold Biomes.WORLD_WIDTH; lra).
      apply andb_false_iff. left. apply ltb_false_iff. lra.
Defined.

(** ** The spawn loops *)


Lemma In_firstn {A : Type} (n : nat) (l : list A) (a : A) :
  In a (firstn n l) -> In a l.
Proof.
  intros H. rewrite <- (firstn_skipn n l). apply in_or_app. now left.
Qed.

Lemma pushPattern_spec (targetCount : nat) (pats : list GameObjects.GameObject) :
  forall (objs : list GameObjects.GameObject) (spawned : nat),
    Sketch.pushPattern targetCount pats objs spawned
    = (objs ++ firstn (targetCount - spawned) pats,
       (spawned + List.length (firstn (targetCount - spawned) pats))%nat).
Proof.
  induction pats as [|p rest IH]; intros objs spawned; simpl.
  - rewrite firstn_nil, app_nil_r, Nat.add_0_r. reflexivity.
  - destruct (targetCount <=? spawned)%nat eqn:E.
    + apply Nat.leb_le in E.
      replace (targetCount - spawned)%nat with 0%nat by lia.
      simpl. rewrite app_nil_r, Nat.add_0_r. reflexivity.
    + apply Nat.leb_gt in E. rewrite IH.
      replace (targetCount - spawned)%nat with (S (targetCount - S spawned))
        by lia.
      simpl. rewrite <- app_assoc. simpl. f_equal. lia.
Qed.

(** An entry without player-size gates is valid for every player. *)
Lemma shouldSpawn_ungated (objDef : Biomes.ObjDef) (playerSize : R) :
  Biomes.minPlayerSize objDef = None -> Biomes.maxPlayerSize objDef = None ->
  Biomes.shouldSpawnForPlayerSize objDef playerSize = true.
Proof.
  intros Hmin Hmax. unfold Biomes.shouldSpawnForPlayerSize.
  rewrite Hmin, Hmax. reflexivity.
Qed.

Lemma SEASON_DURATION_eq : Sketch.SEASON_DURATION = 900%nat.
Proof. reflexivity. Qed.


Lemma create_fields (rnd : nat -> R) (a : Sketch.Alloc) (x0 y0 size0 : R)
  (type0 : Biomes.ObjDef) :
  GameObjects.x (fst (Sketch.create rnd a x0 y0 size0 type0)) = x0
  /\ GameObjects.y (fst (Sketch.create rnd a x0 y0 size0 type0)) = y0
  /\ GameObjects.type (fst (Sketch.create rnd a x0 y0 size0 type0)) = type0.
Proof. repeat split; reflexivity. Qed.

Lemma next_value (g : Noise.SeededRandom) :
  fst (Noise.next g) = IZR (Noise.mix (Noise.state g + 1831565813)) / 4294967296.
Proof. reflexivity. Qed.

Lemma next_state (g : Noise.SeededRandom) :
  Noise.state (snd (Noise.next g)) = (Noise.state g + 1831565813)%Z.
Proof. reflexivity. Qed.

(** The seventh number the generator of the first ring of the first spring
    draws. *)
Lemma seventh_draw_of_first_ring :
  fst (Noise.next (Noise.skip 6 (Noise.new_SeededRandom 42)))
  = IZR 1173505300 / 4294967296.
Proof.
  rewrite next_value.
  apply (f_equal (fun z => IZR z / 4294967296)).
  vm_compute. reflexivity.
Qed.

(** A table of one entry: the draw returns the entry, with or without the
    adjusted weight, and consumes one number. *)
Lemma weightedRandomSelect_single (d : Biomes.ObjDef)
  (rng : Noise.SeededRandom) (playerSize : option R) :
  exists sel : Biomes.ObjDef,
    Sketch.weightedRandomSelect (Some [d]) rng playerSize
    = (Some sel, snd (Noise.next rng))
    /\ Biomes.maxSize sel = Biomes.maxSize d
    /\ Sketch.patternOf sel = Sketch.patternOf d.
Proof.
  unfold Sketch.weightedRandomSelect.
  destruct (Noise.next rng) as [u rng1]. simpl.
  destruct (_ <=? 0).
  - eexists. split; [reflexivity|]. split; reflexivity.
  - exists d. split; [reflexivity|]. split; reflexivity.
Qed.

(** From here on the loops of the model are unfolded one iteration at a
    time, and the operations they call stay folded. *)
Opaque Noise.next Sketch.weightedRandomSelect Sketch.create
       Sketch.spawnPatternObjects Sketch.pushPattern GameObjects.wrap
       Biomes.shouldSpawnForPlayerSize.

(** *** Geometry of the rings *)

(** Wrapping a coordinate never takes it farther from the middle of the
    world. *)
Lemma wrap_toward_center (v dim : R) :
  0 < dim -> Rabs (GameObjects.wrap v dim - dim / 2) <= Rabs (v - dim / 2).
Proof.
  intros Hdim. pose proof (wrap_range v dim Hdim) as Hw.
  destruct (Rle_dec 0 v) as [Hlo | Hlo].
  - destruct (Rlt_dec v dim) as [Hhi | Hhi].
    + rewrite wrap_inside by lra. apply Rle_refl.
    + apply Rle_trans with (dim / 2).
      * apply Rabs_le. lra.
      * rewrite Rabs_pos_eq; lra.
  - apply Rle_trans with (dim / 2).
    + apply Rabs_le. lra.
    + rewrite Rabs_left; lra.
Qed.

Lemma norm_le_of_abs (a b a' b' : R) :
  Rabs a <= Rabs a' -> Rabs b <= Rabs b' ->
  sqrt (a * a + b * b) <= sqrt (a' * a' + b' * b').
Proof.
  intros Ha Hb. apply sqrt_le_1_alt.
  apply Rsqr_le_abs_1 in Ha. apply Rsqr_le_abs_1 in Hb.
  unfold Rsqr in *. lra.
Qed.

Lemma norm_le_of_squares (a b r : R) :
  0 <= r -> a * a + b * b <= r * r -> sqrt (a * a + b * b) <= r.
Proof.
  intros Hr H. rewrite <- (sqrt_square r Hr). now apply sqrt_le_1_alt.
Qed.

(** The triangle inequality, on squares. *)
Lemma sum_within (a c b d alpha beta : R) :
  0 <= alpha -> 0 <= beta ->
  a * a + c * c <= alpha * alpha -> b * b + d * d <= beta * beta ->
  (a + b) * (a + b) + (c + d) * (c + d) <= (alpha + beta) * (alpha + beta).
Proof.
  intros Ha Hb H1 H2.
  assert (Hcs : (a * b + c * d) * (a * b + c * d)
                <= (alpha * beta) * (alpha * beta)).
  { apply Rle_trans with ((a * a + c * c) * (b * b + d * d)).
    - replace ((a * a + c * c) * (b * b + d * d))
        with ((a * b + c * d) * (a * b + c * d)
              + (a * d - c * b) * (a * d - c * b)) by ring.
      pose proof (Rle_0_sqr (a * d - c * b)) as Hsq. unfold Rsqr in Hsq. lra.
    - assert (0 <= a * a + c * c) by nra.
      assert (0 <= b * b + d * d) by nra.
      replace (alpha * beta * (alpha * beta))
        with ((alpha * alpha) * (beta * beta)) by ring.
      apply Rmult_le_compat; assumption. }
  assert (Hab : 0 <= alpha * beta) by (apply Rmult_le_pos; assumption).
  assert (Hx : a * b + c * d <= alpha * beta) by nra.
  nra.
Qed.

(** A point within [reach] of a seed that is within [radius] of the center
    of the world is, after wrapping, within their sum of the center. *)
Lemma wrapped_point_within (ux uy sx sy radius reach : R) :
  0 <= radius -> 0 <= reach ->
  (sx - Biomes.WORLD_CENTER_X) * (sx - Biomes.WORLD_CENTER_X)
  + (sy - Biomes.WORLD_CENTER_Y) * (sy - Biomes.WORLD_CENTER_Y)
  <= radius * radius ->
  (ux - sx) * (ux - sx) + (uy - sy) * (uy - sy) <= reach * reach ->
  sqrt ((GameObjects.wrap ux Biomes.WORLD_WIDTH - Biomes.WORLD_CENTER_X)
        * (GameObjects.wrap ux Biomes.WORLD_WIDTH - Biomes.WORLD_CENTER_X)
        + (GameObjects.wrap uy Biomes.WORLD_HEIGHT - Biomes.WORLD_CENTER_Y)
          * (GameObjects.wrap uy Biomes.WORLD_HEIGHT - Biomes.WORLD_CENTER_Y))
  <= radius + reach.
Proof.
  intros Hr Hreach Hseed Hpoint.
  eapply Rle_trans.
  - apply norm_le_of_abs.
    + unfold Biomes.WORLD_CENTER_X. apply wrap_toward_center.
      unfold Biomes.WORLD_WIDTH. lra.
    + unfold Biomes.WORLD_CENTER_Y. apply wrap_toward_center.
      unfold Biomes.WORLD_HEIGHT. lra.
  - fold Biomes.WORLD_CENTER_X Biomes.WORLD_CENTER_Y.
    apply norm_le_of_squares; [lra|].
    replace (ux - Biomes.WORLD_CENTER_X)
      with ((sx - Biomes.WORLD_CENTER_X) + (ux - sx)) by ring.
    replace (uy - Biomes.WORLD_CENTER_Y)
      with ((sy - Biomes.WORLD_CENTER_Y) + (uy - sy)) by ring.
    now apply sum_within.
Qed.

Lemma polar_offset_within (angle d r : R) :
  0 <= d <= r ->
  (cos angle * d) * (cos angle * d) + (sin angle * d) * (sin angle * d)
  <= r * r.
Proof.
  intros Hd. pose proof (sin2_cos2 angle) as H. unfold Rsqr in H.
  replace ((cos angle * d) * (cos angle * d) + (sin angle * d) * (sin angle * d))
    with (d * d * (sin angle * sin angle + cos angle * cos angle)) by ring.
  rewrite H. nra.
Qed.

Lemma patternReach_nonneg (objDef : Biomes.ObjDef) :
  0 <= Sketch.patternReach objDef.
Proof.
  unfold Sketch.patternReach.
  destruct (String.eqb _ "clustered").
  - pose proof (Rmax_l 60 (Biomes.maxSize objDef * 3)). lra.
  - destruct (String.eqb _ "grid").
    + pose proof (Rmax_r (Biomes.maxSize objDef * 1.5) 35). lra.
    + lra.
Qed.

Lemma seed_distance (u2 maxRadius : R) :
  0 <= u2 < 1 -> 0 <= maxRadius ->
  0 <= sqrt u2 * maxRadius <= maxRadius.
Proof.
  intros Hu Hm. pose proof (sqrt_pos u2) as H0.
  assert (H1 : sqrt u2 <= 1).
  { rewrite <- sqrt_1. apply sqrt_le_1_alt. lra. }
  nra.
Qed.

(** The seed of a ring around the center of the world lies, after wrapping,
    within the radius of the ring of the center. *)
Lemma wrapped_seed_within (angle u2 maxRadius : R) :
  0 <= u2 < 1 -> 0 <= maxRadius <= 1000 ->
  (GameObjects.wrap (Biomes.WORLD_CENTER_X + cos angle * (sqrt u2 * maxRadius))
                    Biomes.WORLD_WIDTH - Biomes.WORLD_CENTER_X)
  * (GameObjects.wrap (Biomes.WORLD_CENTER_X + cos angle * (sqrt u2 * maxRadius))
                      Biomes.WORLD_WIDTH - Biomes.WORLD_CENTER_X)
  + (GameObjects.wrap (Biomes.WORLD_CENTER_Y + sin angle * (sqrt u2 * maxRadius))
                      Biomes.WORLD_HEIGHT - Biomes.WORLD_CENTER_Y)
    * (GameObjects.wrap (Biomes.WORLD_CENTER_Y + sin angle * (sqrt u2 * maxRadius))
                        Biomes.WORLD_HEIGHT - Biomes.WORLD_CENTER_Y)
  <= 1000 * 1000.
Proof.
  intros Hu Hm.
  pose proof (seed_distance u2 maxRadius Hu ltac:(lra)) as Hd.
  set (d := sqrt u2 * maxRadius) in *.
  pose proof (polar_offset_within angle d 1000 ltac:(lra)) as Hpolar.
  pose proof (wrap_toward_center (Biomes.WORLD_CENTER_X + cos angle * d)
                Biomes.WORLD_WIDTH ltac:(unfold Biomes.WORLD_WIDTH; lra)) as Hx.
  pose proof (wrap_toward_center (Biomes.WORLD_CENTER_Y + sin angle * d)
                Biomes.WORLD_HEIGHT ltac:(unfold Biomes.WORLD_HEIGHT; lra)) as Hy.
  fold Biomes.WORLD_CENTER_X in Hx. fold Biomes.WORLD_CENTER_Y in Hy.
  replace (Biomes.WORLD_CENTER_X + cos angle * d - Biomes.WORLD_CENTER_X)
    with (cos angle * d) in Hx by ring.
  replace (Biomes.WORLD_CENTER_Y + sin angle * d - Biomes.WORLD_CENTER_Y)
    with (sin angle * d) in Hy by ring.
  apply Rsqr_le_abs_1 in Hx. apply Rsqr_le_abs_1 in Hy.
  unfold Rsqr in Hx, Hy. lra.
Qed.

Lemma scaled_square_le (t m sp : R) :
  - m <= t <= m -> (t * sp) * (t * sp) <= (m * sp) * (m * sp).
Proof.
  intros Ht.
  replace (t * sp * (t * sp)) with ((t * t) * (sp * sp)) by ring.
  replace (m * sp * (m * sp)) with ((m * m) * (sp * sp)) by ring.
  apply Rmult_le_compat_r; [|nra].
  pose proof (Rle_0_sqr sp) as H. exact H.
Qed.

Lemma floor_scaled_range (u : R) (k : Z) :
  0 <= u < 1 -> (0 < k)%Z -> (0 <= JS.Math_floor (u * IZR k) < k)%Z.
Proof.
  intros Hu Hk. unfold JS.Math_floor.
  pose proof (Zfloor_bound (u * IZR k)) as [Hlo Hhi].
  apply IZR_lt in Hk.
  assert (H1 : u * IZR k < IZR k) by nra.
  assert (H0 : 0 <= u * IZR k) by nra.
  split.
  - assert (IZR (-1) < IZR (Zfloor (u * IZR k))) by lra.
    apply lt_IZR in H. lia.
  - apply lt_IZR. lra.
Qed.

Lemma gridCells_range (rows cols : nat) :
  Forall (fun cell => (fst cell < rows)%nat /\ (snd cell < cols)%nat)
         (Sketch.gridCells rows cols).
Proof.
  apply Forall_forall. intros [row col] Hin. unfold Sketch.gridCells in Hin.
  apply in_flat_map in Hin. destruct Hin as (r & Hr & Hin).
  apply in_map_iff in Hin. destruct Hin as (c & Heq & Hc).
  inversion Heq; subst. apply in_seq in Hr. apply in_seq in Hc. simpl. lia.
Qed.

Transparent Sketch.spawnPatternObjects.

Section PatternFacts.

Variable w : Worlds.World.
Variable rnd : nat -> R.
Variables seedX seedY radius : R.
Variable objDef : Biomes.ObjDef.

Hypothesis Hradius : 0 <= radius.
Hypothesis Hseed :
  (seedX - Biomes.WORLD_CENTER_X) * (seedX - Biomes.WORLD_CENTER_X)
  + (seedY - Biomes.WORLD_CENTER_Y) * (seedY - Biomes.WORLD_CENTER_Y)
  <= radius * radius.

Lemma clusterLoop_within (clusterRadius : R) (n : nat) :
  0 <= clusterRadius ->
  forall (rng : Noise.SeededRandom) (a : Sketch.Alloc),
    Forall (Sketch.placedWithin objDef (radius + clusterRadius))
      (fst (fst (Sketch.clusterLoop w rnd seedX seedY objDef clusterRadius
                   n rng a))).
Proof.
  intros Hcr. induction n as [|n IH]; intros rng a; simpl; [constructor|].
  destruct (Noise.next rng) as [u1 rng1].
  pose proof (next_range rng1) as Hu2.
  destruct (Noise.next rng1) as [u2 rng2]. simpl in Hu2.
  destruct (Biomes.isOcean _); [apply IH|].
  destruct (Noise.next rng2) as [u3 rng3].
  match goal with
  | |- context [Sketch.create rnd a ?x0 ?y0 ?s0 objDef] =>
      pose proof (create_fields rnd a x0 y0 s0 objDef) as (Hx & Hy & Ht);
      destruct (Sketch.create rnd a x0 y0 s0 objDef) as [obj a1]
  end.
  simpl in Hx, Hy, Ht. specialize (IH rng3 a1).
  destruct (Sketch.clusterLoop w rnd seedX seedY objDef clusterRadius n rng3 a1)
    as [[rest rng4] a2].
  simpl in *. constructor; [|exact IH]. split; [exact Ht|].
  unfold Sketch.distanceFromWorldCenter. rewrite Hx, Hy.
  apply (wrapped_point_within _ _ seedX seedY); try assumption.
  match goal with
  | |- (seedX + ?p - seedX) * _ + (seedY + ?q - seedY) * _ <= _ =>
      replace (seedX + p - seedX) with p by ring;
      replace (seedY + q - seedY) with q by ring
  end.
  apply polar_offset_within. nra.
Qed.

Lemma gridLoop_within (rows cols : nat) (spacing cosR sinR : R)
  (cells : list (nat * nat)) :
  (cols <= 7)%nat -> (rows <= 5)%nat -> 0 <= spacing ->
  cosR * cosR + sinR * sinR = 1 ->
  Forall (fun cell => (fst cell < rows)%nat /\ (snd cell < cols)%nat) cells ->
  forall (rng : Noise.SeededRandom) (a : Sketch.Alloc),
    Forall (Sketch.placedWithin objDef (radius + 11 * spacing))
      (fst (fst (Sketch.gridLoop w rnd objDef rows cols spacing cosR sinR
                   (seedX - (INR cols - 1) * spacing / 2)
                   (seedY - (INR rows - 1) * spacing / 2)
                   cells rng a))).
Proof.
  intros Hcols Hrows Hsp Hrot Hcells.
  induction Hcells as [|[row col] cells [Hrow Hcol] Hcells IH]; intros rng a;
    simpl; [constructor|].
  simpl in Hrow, Hcol.
  destruct (_ && _); [apply IH|].
  pose proof (next_range rng) as Hu1.
  destruct (Noise.next rng) as [u1 rng1]. simpl in Hu1.
  pose proof (next_range rng1) as Hu2.
  destruct (Noise.next rng1) as [u2 rng2]. simpl in Hu2.
  destruct (Biomes.isOcean _); [apply IH|].
  destruct (Noise.next rng2) as [u3 rng3].
  match goal with
  | |- context [Sketch.create rnd a ?x0 ?y0 ?s0 objDef] =>
      pose proof (create_fields rnd a x0 y0 s0 objDef) as (Hx & Hy & Ht);
      destruct (Sketch.create rnd a x0 y0 s0 objDef) as [obj a1]
  end.
  simpl in Hx, Hy, Ht. specialize (IH rng3 a1).
  destruct (Sketch.gridLoop w rnd objDef rows cols spacing cosR sinR _ _
              cells rng3 a1) as [[rest rng4] a2].
  simpl in *. constructor; [|exact IH]. split; [exact Ht|].
  unfold Sketch.distanceFromWorldCenter. rewrite Hx, Hy.
  apply (wrapped_point_within _ _ seedX seedY);
    [assumption | lra | assumption |].
  assert (HC : 1 <= INR cols <= 7).
  { pose proof (le_INR 1 cols ltac:(lia)) as Hlo.
    pose proof (le_INR cols 7 Hcols) as Hhi. simpl in Hlo, Hhi. lra. }
  assert (HR : 1 <= INR rows <= 5).
  { pose proof (le_INR 1 rows ltac:(lia)) as Hlo.
    pose proof (le_INR rows 5 Hrows) as Hhi. simpl in Hlo, Hhi. lra. }
  assert (Hc : 0 <= INR col <= 6).
  { pose proof (pos_INR col) as Hlo.
    pose proof (le_INR col 6 ltac:(lia)) as Hhi. simpl in Hhi. lra. }
  assert (Hr : 0 <= INR row <= 4).
  { pose proof (pos_INR row) as Hlo.
    pose proof (le_INR row 4 ltac:(lia)) as Hhi. simpl in Hhi. lra. }
  set (tx := INR col + (u1 - 0.5) * 0.2).
  set (ty := INR row + (u2 - 0.5) * 0.2).
  set (ox := - ((INR cols - 1) / 2)).
  set (oy := - ((INR rows - 1) / 2)).
  match goal with
  | |- ?px * ?px + ?py * ?py <= _ =>
      replace px
        with (ox * spacing + ((tx * spacing) * cosR - (ty * spacing) * sinR))
        by (unfold ox, tx, ty; field);
      replace py
        with (oy * spacing + ((tx * spacing) * sinR + (ty * spacing) * cosR))
        by (unfold oy, tx, ty; field)
  end.
  replace (11 * spacing) with (3.65 * spacing + 7.35 * spacing) by lra.
  apply sum_within; [lra | lra | |].
  - pose proof (scaled_square_le ox 3 spacing) as H1.
    pose proof (scaled_square_le oy 2 spacing) as H2.
    unfold ox, oy in *.
    specialize (H1 ltac:(lra)). specialize (H2 ltac:(lra)).
    pose proof (Rle_0_sqr spacing) as H3. unfold Rsqr in H3. nra.
  - replace ((tx * spacing * cosR - ty * spacing * sinR)
             * (tx * spacing * cosR - ty * spacing * sinR)
             + (tx * spacing * sinR + ty * spacing * cosR)
               * (tx * spacing * sinR + ty * spacing * cosR))
      with (((tx * spacing) * (tx * spacing) + (ty * spacing) * (ty * spacing))
            * (cosR * cosR + sinR * sinR)) by ring.
    rewrite Hrot, Rmult_1_r.
    pose proof (scaled_square_le tx 6.1 spacing) as H1.
    pose proof (scaled_square_le ty 4.1 spacing) as H2.
    unfold tx, ty in *.
    specialize (H1 ltac:(lra)). specialize (H2 ltac:(lra)).
    pose proof (Rle_0_sqr spacing) as H3. unfold Rsqr in H3. nra.
Qed.

Lemma spawnPatternObjects_within (rng : Noise.SeededRandom) (a : Sketch.Alloc) :
  Forall (Sketch.placedWithin objDef (radius + Sketch.patternReach objDef))
    (fst (fst (Sketch.spawnPatternObjects w rnd seedX seedY objDef rng a))).
Proof.
  unfold Sketch.spawnPatternObjects, Sketch.patternReach.
  destruct (String.eqb (Sketch.patternOf objDef) "scattered");
    [constructor|].
  destruct (String.eqb (Sketch.patternOf objDef) "clustered") eqn:Hc.
  - apply String.eqb_eq in Hc. rewrite Hc. simpl String.eqb. cbv iota.
    destruct (Noise.next rng) as [u rng1].
    pose proof (clusterLoop_within (Rmax 60 (Biomes.maxSize objDef * 3))
                  (Z.to_nat (4 + JS.Math_floor (u * 7)))) as Hloop.
    specialize (Hloop ltac:(pose proof (Rmax_l 60 (Biomes.maxSize objDef * 3)); lra)
                      rng1 a).
    destruct (Sketch.clusterLoop _ _ _ _ _ _ _ _ _) as [[clustered rng2] a2].
    simpl in *. rewrite app_nil_r. exact Hloop.
  - destruct (String.eqb (Sketch.patternOf objDef) "grid"); [|constructor].
    pose proof (next_range rng) as Hu1.
    destruct (Noise.next rng) as [u1 rng1]. simpl in Hu1.
    pose proof (next_range rng1) as Hu2.
    destruct (Noise.next rng1) as [u2 rng2]. simpl in Hu2.
    pose proof (next_range rng2) as Hu3.
    destruct (Noise.next rng2) as [u3 rng3]. simpl in Hu3.
    pose proof (floor_scaled_range u1 3 Hu1 ltac:(lia)) as Hrows.
    pose proof (floor_scaled_range u2 4 Hu2 ltac:(lia)) as Hcols.
    set (rows := Z.to_nat (3 + JS.Math_floor (u1 * 3))).
    set (cols := Z.to_nat (4 + JS.Math_floor (u2 * 4))).
    set (spacing := Rmax (Biomes.maxSize objDef * 1.5) 35).
    set (rotation := u3 * PI * 0.12 - PI * 0.06).
    pose proof (gridLoop_within rows cols spacing (cos rotation) (sin rotation)
                  (Sketch.gridCells rows cols)) as Hloop.
    specialize (Hloop ltac:(unfold cols; lia) ltac:(unfold rows; lia)).
    specialize (Hloop
      ltac:(unfold spacing;
            pose proof (Rmax_r (Biomes.maxSize objDef * 1.5) 35); lra)).
    specialize (Hloop
      ltac:(pose proof (sin2_cos2 rotation) as H; unfold Rsqr in H; lra)).
    specialize (Hloop (gridCells_range rows cols) rng3 a).
    destruct (Sketch.gridLoop _ _ _ _ _ _ _ _ _ _ _ _ _) as [[grid rng4] a4].
    simpl in *. exact Hloop.
Qed.

End PatternFacts.

(** On land everywhere, a clustered pattern has a first object, placed from
    the second and the third number drawn. *)
Lemma clustered_first (w : Worlds.World) (rnd : nat -> R) (seedX seedY : R)
  (objDef : Biomes.ObjDef) (rng : Noise.SeededRandom) (a : Sketch.Alloc) :
  Sketch.patternOf objDef = "clustered"%string ->
  (forall x y : R, Biomes.isOcean (Worlds.getBiomeAt w x y) = false) ->
  exists (obj : GameObjects.GameObject) (rest : list GameObjects.GameObject),
    fst (fst (Sketch.spawnPatternObjects w rnd seedX seedY objDef rng a))
    = obj :: rest
    /\ GameObjects.x obj
       = GameObjects.wrap
           (seedX + cos (fst (Noise.next (Noise.skip 1 rng)) * PI * 2)
                    * (fst (Noise.next (Noise.skip 2 rng))
                       * Rmax 60 (Biomes.maxSize objDef * 3)))
           Biomes.WORLD_WIDTH
    /\ GameObjects.y obj
       = GameObjects.wrap
           (seedY + sin (fst (Noise.next (Noise.skip 1 rng)) * PI * 2)
                    * (fst (Noise.next (Noise.skip 2 rng))
                       * Rmax 60 (Biomes.maxSize objDef * 3)))
           Biomes.WORLD_HEIGHT.
Proof.
  intros Hpattern Hland. unfold Sketch.spawnPatternObjects, Noise.skip.
  rewrite Hpattern. simpl String.eqb. cbv iota. simpl Nat.iter.
  pose proof (next_range rng) as Hu.
  destruct (Noise.next rng) as [u rng1]. simpl in Hu. simpl snd.
  pose proof (floor_scaled_range u 7 Hu ltac:(lia)) as Hcount.
  destruct (Z.to_nat (4 + JS.Math_floor (u * 7))) as [|n] eqn:Hn; [lia|].
  simpl Sketch.clusterLoop.
  destruct (Noise.next rng1) as [u1 rng2]. simpl fst. simpl snd.
  destruct (Noise.next rng2) as [u2 rng3]. simpl fst.
  rewrite Hland.
  destruct (Noise.next rng3) as [u3 rng4].
  match goal with
  | |- context [Sketch.create rnd a ?x0 ?y0 ?s0 objDef] =>
      pose proof (create_fields rnd a x0 y0 s0 objDef) as (Hx & Hy & _);
      destruct (Sketch.create rnd a x0 y0 s0 objDef) as [obj a1]
  end.
  simpl in Hx, Hy.
  destruct (Sketch.clusterLoop _ _ _ _ _ _ _ _ _) as [[rest rng5] a2].
  exists obj, (rest ++ []). simpl. repeat split; assumption.
Qed.

Opaque Sketch.spawnPatternObjects.

(** *** Ring seeding *)

Section RingFacts.

Variable w : Worlds.World.
Variable rnd : nat -> R.
Variable season : string.
Variable playerSize : R.
Variables centerX centerY maxRadius : R.
Variables targetCount ringIndex : nat.
Variable P : GameObjects.GameObject -> Prop.

Hypothesis Hseed :
  forall (a : Sketch.Alloc) (angle u2 size0 : R) (objDef : Biomes.ObjDef),
    0 <= u2 < 1 ->
    P (fst (Sketch.create rnd a
              (GameObjects.wrap (centerX + cos angle * (sqrt u2 * maxRadius))
                                Biomes.WORLD_WIDTH)
              (GameObjects.wrap (centerY + sin angle * (sqrt u2 * maxRadius))
                                Biomes.WORLD_HEIGHT)
              size0 objDef)).

Hypothesis Hpattern :
  forall (angle u2 : R) (objDef : Biomes.ObjDef)
         (rng : Noise.SeededRandom) (a : Sketch.Alloc),
    0 <= u2 < 1 ->
    Forall P
      (fst (fst (Sketch.spawnPatternObjects w rnd
                   (GameObjects.wrap
                      (centerX + cos angle * (sqrt u2 * maxRadius))
                      Biomes.WORLD_WIDTH)
                   (GameObjects.wrap
                      (centerY + sin angle * (sqrt u2 * maxRadius))
                      Biomes.WORLD_HEIGHT)
                   objDef rng a))).

Lemma ringLoop_invariant (attempts : nat) :
  forall (rng : Noise.SeededRandom) (a : Sketch.Alloc)
         (objs : list GameObjects.GameObject) (spawned : nat),
    (spawned <= targetCount)%nat ->
    exists added : list GameObjects.GameObject,
      fst (fst (Sketch.ringLoop w rnd season playerSize centerX centerY
                  maxRadius targetCount ringIndex attempts rng a objs spawned))
      = objs ++ added
      /\ snd (Sketch.ringLoop w rnd season playerSize centerX centerY
                maxRadius targetCount ringIndex attempts rng a objs spawned)
         = (spawned + List.length added)%nat
      /\ (spawned + List.length added <= targetCount)%nat
      /\ Forall P added.
Proof.
  induction attempts as [|attempts IH]; intros rng a objs spawned Hle.
  - exists []. simpl. rewrite app_nil_r, Nat.add_0_r. auto.
  - simpl.
    destruct (spawned <? targetCount)%nat eqn:Hroom; simpl.
    2:{ exists []. simpl. rewrite app_nil_r, Nat.add_0_r. auto. }
    pose proof (next_range rng) as Hu1.
    destruct (Noise.next rng) as [u1 rng1].
    pose proof (next_range rng1) as Hu2.
    destruct (Noise.next rng1) as [u2 rng2]. simpl in Hu2.
    set (sx := GameObjects.wrap _ Biomes.WORLD_WIDTH).
    set (sy := GameObjects.wrap _ Biomes.WORLD_HEIGHT).
    destruct (_ =? 0)%nat; [now apply IH|].
    match goal with
    | |- context [if (0 <? ringIndex)%nat then ?t else ?e] =>
        destruct (if (0 <? ringIndex)%nat then t else e) as [[|] rng3]
    end; [now apply IH|].
    destruct (_ =? 0)%nat; [now apply IH|].
    destruct (Sketch.weightedRandomSelect _ rng3 _) as [[objDef|] rng4];
      [|now apply IH].
    destruct (Noise.next rng4) as [u3 rng5].
    match goal with
    | |- context [Sketch.create rnd a sx sy ?s0 objDef] =>
        pose proof (Hseed a (u1 * PI * 2) u2 s0 objDef Hu2) as Hobj;
        fold sx sy in Hobj;
        destruct (Sketch.create rnd a sx sy s0 objDef) as [obj a1]
    end.
    simpl in Hobj.
    pose proof (Hpattern (u1 * PI * 2) u2 objDef rng5 a1 Hu2) as Hpats.
    fold sx sy in Hpats.
    destruct (Sketch.spawnPatternObjects w rnd sx sy objDef rng5 a1)
      as [[pats rng6] a2].
    simpl in Hpats. rewrite pushPattern_spec.
    apply Nat.ltb_lt in Hroom.
    set (taken := firstn (targetCount - S spawned) pats).
    assert (Htaken : (List.length taken <= targetCount - S spawned)%nat)
      by apply firstn_le_length.
    destruct (IH rng6 a2 ((objs ++ [obj]) ++ taken)
                (S spawned + List.length taken)%nat)
      as (added & Hobjs & Hcount & Hbound & Hall); [lia|].
    exists (obj :: taken ++ added).
    rewrite Hobjs, Hcount. repeat split.
    + rewrite <- !app_assoc. reflexivity.
    + simpl. rewrite length_app. lia.
    + simpl. rewrite length_app. lia.
    + constructor; [exact Hobj|]. apply Forall_app. split; [|exact Hall].
      apply Forall_forall. intros o Ho. apply In_firstn in Ho.
      rewrite Forall_forall in Hpats. now apply Hpats.
Qed.

End RingFacts.

Section ClusteredField.

Variable w : Worlds.World.
Variable rnd : nat -> R.
Variable season : string.
Variable playerSize : R.
Variables centerX centerY maxRadius : R.
Variable targetCount : nat.
Variable entry : Biomes.ObjDef.

Hypothesis Hobjects :
  forall x y : R,
    Sketch.seasonalObjectsOf (Worlds.getBiomeAt w x y) season = [entry].
Hypothesis Hland :
  forall x y : R, Biomes.isOcean (Worlds.getBiomeAt w x y) = false.
Hypothesis Hmin : Biomes.minPlayerSize entry = None.
Hypothesis Hmax : Biomes.maxPlayerSize entry = None.
Hypothesis Hclustered : Sketch.patternOf entry = "clustered"%string.
Hypothesis Htarget : (2 <= targetCount)%nat.

(** The first attempt of the innermost ring spawns a seed and its cluster,
    and the first object of the cluster stays in the array: it is placed
    around the seed from the sixth and the seventh number of the ring. *)
Lemma ringLoop_first_cluster (attempts : nat) (rng : Noise.SeededRandom)
  (a : Sketch.Alloc) (objs : list GameObjects.GameObject) :
  exists obj : GameObjects.GameObject,
    In obj (fst (fst (Sketch.ringLoop w rnd season playerSize centerX centerY
                        maxRadius targetCount 0 (S attempts) rng a objs 0)))
    /\ GameObjects.x obj
       = GameObjects.wrap
           (GameObjects.wrap
              (centerX + cos (fst (Noise.next rng) * PI * 2)
                         * (sqrt (fst (Noise.next (Noise.skip 1 rng)))
                            * maxRadius))
              Biomes.WORLD_WIDTH
            + cos (fst (Noise.next (Noise.skip 5 rng)) * PI * 2)
              * (fst (Noise.next (Noise.skip 6 rng))
                 * Rmax 60 (Biomes.maxSize entry * 3)))
           Biomes.WORLD_WIDTH
    /\ GameObjects.y obj
       = GameObjects.wrap
           (GameObjects.wrap
              (centerY + sin (fst (Noise.next rng) * PI * 2)
                         * (sqrt (fst (Noise.next (Noise.skip 1 rng)))
                            * maxRadius))
              Biomes.WORLD_HEIGHT
            + sin (fst (Noise.next (Noise.skip 5 rng)) * PI * 2)
              * (fst (Noise.next (Noise.skip 6 rng))
                 * Rmax 60 (Biomes.maxSize entry * 3)))
           Biomes.WORLD_HEIGHT.
Proof.
  unfold Noise.skip. simpl Nat.iter. simpl Sketch.ringLoop.
  replace (0 <? targetCount)%nat with true
    by (symmetry; apply Nat.ltb_lt; lia).
  simpl negb. cbv iota.
  destruct (Noise.next rng) as [u1 rng1]. simpl fst. simpl snd.
  destruct (Noise.next rng1) as [u2 rng2]. simpl fst. simpl snd.
  set (sx := GameObjects.wrap (centerX + _) Biomes.WORLD_WIDTH).
  set (sy := GameObjects.wrap (centerY + _) Biomes.WORLD_HEIGHT).
  rewrite Hobjects. simpl List.length. simpl Nat.eqb. cbv iota.
  simpl filter. rewrite (shouldSpawn_ungated entry playerSize Hmin Hmax).
  simpl List.length. simpl Nat.eqb. cbv iota.
  destruct (weightedRandomSelect_single entry rng2 (Some playerSize))
    as (sel & -> & Hsize & Hsel).
  destruct (Noise.next (snd (Noise.next rng2))) as [u3 rng4].
  simpl snd.
  destruct (Sketch.create rnd a sx sy _ sel) as [seed a1].
  destruct (clustered_first w rnd sx sy sel rng4 a1
              ltac:(rewrite Hsel; exact Hclustered) Hland)
    as (obj & rest & Hpats & Hx & Hy).
  unfold Noise.skip in Hx, Hy. simpl Nat.iter in Hx, Hy.
  rewrite Hsize in Hx, Hy.
  destruct (Sketch.spawnPatternObjects w rnd sx sy sel rng4 a1)
    as [[pats rng5] a2].
  simpl in Hpats. subst pats. rewrite pushPattern_spec.
  destruct (targetCount - 1)%nat as [|k] eqn:Hk; [lia|].
  simpl firstn.
  match goal with
  | |- context [Sketch.ringLoop w rnd season playerSize centerX centerY
                  maxRadius targetCount 0 attempts rng5 a2 ?o ?s] =>
      destruct (ringLoop_invariant w rnd season playerSize centerX centerY
                  maxRadius targetCount 0 (fun _ => True)
                  ltac:(intros; exact I)
                  ltac:(intros; apply Forall_forall; intros; exact I)
                  attempts rng5 a2 o s)
        as (added & Hobjs & _)
  end.
  { pose proof (firstn_le_length k rest). simpl. lia. }
  exists obj. split; [|split; assumption].
  rewrite Hobjs. apply in_or_app. left. apply in_or_app. right. left.
  reflexivity.
Qed.

End ClusteredField.

(** ** Season transition *)


Lemma advanceSeason_respawns (st : Sketch.State) :
  (S (Sketch.currentSeasonIndex st) < Sketch.TOTAL_SEASONS)%nat ->
  Sketch.advanceSeason st
  = Sketch.respawnOffScreenObjects
      (Sketch.set_season st (S (Sketch.currentSeasonIndex st)) 0
                         (Sketch.gameState st)).
Proof.
  intros Hseason. unfold Sketch.advanceSeason.
  change (Sketch.currentSeasonIndex
            (Sketch.set_season st (S (Sketch.currentSeasonIndex st)) 0
                               (Sketch.gameState st)))
    with (S (Sketch.currentSeasonIndex st)).
  apply Nat.leb_gt in Hseason. rewrite Hseason. reflexivity.
Qed.




(** What one ring leaves of the state: the array grows at its end by at most
    [targetCount] objects, the counters move, nothing else changes. *)
Lemma spawnObjectsAroundPlayer_invariant
  (P : GameObjects.GameObject -> Prop) (st : Sketch.State)
  (centerX centerY maxRadius : R) (targetCount ringIndex : nat) :
  (forall (a : Sketch.Alloc) (angle u2 size0 : R) (objDef : Biomes.ObjDef),
      0 <= u2 < 1 ->
      P (fst (Sketch.create (Sketch.Math_random st) a
                (GameObjects.wrap
                   (centerX + cos angle * (sqrt u2 * maxRadius))
                   Biomes.WORLD_WIDTH)
                (GameObjects.wrap
                   (centerY + sin angle * (sqrt u2 * maxRadius))
                   Biomes.WORLD_HEIGHT)
                size0 objDef))) ->
  (forall (angle u2 : R) (objDef : Biomes.ObjDef)
          (rng : Noise.SeededRandom) (a : Sketch.Alloc),
      0 <= u2 < 1 ->
      Forall P
        (fst (fst (Sketch.spawnPatternObjects (Sketch.world st)
                     (Sketch.Math_random st)
                     (GameObjects.wrap
                        (centerX + cos angle * (sqrt u2 * maxRadius))
                        Biomes.WORLD_WIDTH)
                     (GameObjects.wrap
                        (centerY + sin angle * (sqrt u2 * maxRadius))
                        Biomes.WORLD_HEIGHT)
                     objDef rng a)))) ->
  exists (added : list GameObjects.GameObject) (a' : Sketch.Alloc),
    fst (Sketch.spawnObjectsAroundPlayer st centerX centerY maxRadius
           targetCount ringIndex)
    = Sketch.set_objects st (Sketch.objects st ++ added) a'
    /\ (List.length added <= targetCount)%nat
    /\ Forall P added.
Proof.
  intros Hseed Hpattern. unfold Sketch.spawnObjectsAroundPlayer.
  match goal with
  | |- context [Sketch.ringLoop ?w ?rnd ?s ?ps ?cx ?cy ?mr ?tc ?ri ?n ?r ?a ?o ?sp] =>
      destruct (ringLoop_invariant w rnd s ps cx cy mr tc ri P Hseed Hpattern
                  n r a o sp) as (added & Hobjs & _ & Hbound & Hall);
        [lia|];
      destruct (Sketch.ringLoop w rnd s ps cx cy mr tc ri n r a o sp)
        as [[objs a'] spawned]
  end.
  simpl in Hobjs. subst objs. exists added, a'. simpl. repeat split.
  - lia.
  - exact Hall.
Qed.

Lemma spawnWorldObjects_invariant
  (P : GameObjects.GameObject -> Prop) (st : Sketch.State) :
  let playerX :=
    match Sketch.player st with
    | Some p => Players.x p | None => Biomes.WORLD_CENTER_X end in
  let playerY :=
    match Sketch.player st with
    | Some p => Players.y p | None => Biomes.WORLD_CENTER_Y end in
  (forall (a : Sketch.Alloc) (angle u2 size0 maxRadius : R)
          (objDef : Biomes.ObjDef),
      0 <= u2 < 1 -> 0 <= maxRadius <= 1000 ->
      P (fst (Sketch.create (Sketch.Math_random st) a
                (GameObjects.wrap
                   (playerX + cos angle * (sqrt u2 * maxRadius))
                   Biomes.WORLD_WIDTH)
                (GameObjects.wrap
                   (playerY + sin angle * (sqrt u2 * maxRadius))
                   Biomes.WORLD_HEIGHT)
                size0 objDef))) ->
  (forall (angle u2 maxRadius : R) (objDef : Biomes.ObjDef)
          (rng : Noise.SeededRandom) (a : Sketch.Alloc),
      0 <= u2 < 1 -> 0 <= maxRadius <= 1000 ->
      Forall P
        (fst (fst (Sketch.spawnPatternObjects (Sketch.world st)
                     (Sketch.Math_random st)
                     (GameObjects.wrap
                        (playerX + cos angle * (sqrt u2 * maxRadius))
                        Biomes.WORLD_WIDTH)
                     (GameObjects.wrap
                        (playerY + sin angle * (sqrt u2 * maxRadius))
                        Biomes.WORLD_HEIGHT)
                     objDef rng a)))) ->
  exists (objs : list GameObjects.GameObject) (a' : Sketch.Alloc),
    Sketch.spawnWorldObjects st = Sketch.set_objects st objs a'
    /\ (List.length objs <= 500)%nat
    /\ Forall P objs.
Proof.
  intros playerX playerY Hseed Hpattern. unfold Sketch.spawnWorldObjects.
  set (st0 := Sketch.set_objects st [] (Sketch.alloc st)).
  change (match Sketch.player st0 with
          | Some p => Players.x p | None => Biomes.WORLD_CENTER_X end)
    with playerX.
  change (match Sketch.player st0 with
          | Some p => Players.y p | None => Biomes.WORLD_CENTER_Y end)
    with playerY.
  destruct (spawnObjectsAroundPlayer_invariant P st0 playerX playerY 100 80 0)
    as (l1 & a1 & -> & Hn1 & Hp1);
    [intros; apply Hseed; [assumption | lra]
    |intros; apply Hpattern; [assumption | lra] |].
  set (st1 := Sketch.set_objects st0 _ a1).
  destruct (spawnObjectsAroundPlayer_invariant P st1 playerX playerY 300 120 1)
    as (l2 & a2 & -> & Hn2 & Hp2);
    [intros; apply Hseed; [assumption | lra]
    |intros; apply Hpattern; [assumption | lra] |].
  set (st2 := Sketch.set_objects st1 _ a2).
  destruct (spawnObjectsAroundPlayer_invariant P st2 playerX playerY 600 150 2)
    as (l3 & a3 & -> & Hn3 & Hp3);
    [intros; apply Hseed; [assumption | lra]
    |intros; apply Hpattern; [assumption | lra] |].
  set (st3 := Sketch.set_objects st2 _ a3).
  destruct (spawnObjectsAroundPlayer_invariant P st3 playerX playerY 1000 150 3)
    as (l4 & a4 & -> & Hn4 & Hp4);
    [intros; apply Hseed; [assumption | lra]
    |intros; apply Hpattern; [assumption | lra] |].
  exists (((l1 ++ l2) ++ l3) ++ l4), a4. repeat split.
  - rewrite !length_app. lia.
  - repeat (apply Forall_app; split); assumption.
Qed.

(** A ring only appends to the array. *)
Lemma spawnObjectsAroundPlayer_keeps (st : Sketch.State)
  (centerX centerY maxRadius : R) (targetCount ringIndex : nat)
  (o : GameObjects.GameObject) :
  In o (Sketch.objects st) ->
  In o (Sketch.objects
          (fst (Sketch.spawnObjectsAroundPlayer st centerX centerY maxRadius
                  targetCount ringIndex))).
Proof.
  intros Hin.
  destruct (spawnObjectsAroundPlayer_invariant (fun _ => True) st
              centerX centerY maxRadius targetCount ringIndex)
    as (added & a' & -> & _).
  - intros. exact I.
  - intros. apply Forall_forall. intros. exact I.
  - simpl. apply in_or_app. left. exact Hin.
Qed.

(** *** The four seeding rings *)

(** C2 (amended).  With the player at the center of the world (or no
    player yet), the four seeding rings leave at most 500 objects, and every
    object lies within 1000 of the center of the world plus the reach of the
    pattern of its type: the seeds of the rings lie within 1000, and the
    objects of a cluster or of a grid lie around their seed. *)
Theorem ring_seeding_bounds (st : Sketch.State) :
  match Sketch.player st with
  | Some p => Players.x p = Biomes.WORLD_CENTER_X
              /\ Players.y p = Biomes.WORLD_CENTER_Y
  | None => True
  end ->
  (List.length (Sketch.objects (Sketch.spawnWorldObjects st)) <= 500)%nat
  /\ Forall (fun o => Sketch.distanceFromWorldCenter o
                      <= 1000 + Sketch.patternReach (GameObjects.type o))
            (Sketch.objects (Sketch.spawnWorldObjects st)).
Proof.
  intros Hcenter.
  pose proof (spawnWorldObjects_invariant
                (fun o => Sketch.distanceFromWorldCenter o
                          <= 1000 + Sketch.patternReach (GameObjects.type o))
                st) as Hinv.
  cbv zeta in Hinv.
  assert (Hx : match Sketch.player st with
               | Some p => Players.x p | None => Biomes.WORLD_CENTER_X end
               = Biomes.WORLD_CENTER_X)
    by (destruct (Sketch.player st); [apply Hcenter | reflexivity]).
  assert (Hy : match Sketch.player st with
               | Some p => Players.y p | None => Biomes.WORLD_CENTER_Y end
               = Biomes.WORLD_CENTER_Y)
    by (destruct (Sketch.player st); [apply Hcenter | reflexivity]).
  rewrite Hx, Hy in Hinv. clear Hx Hy Hcenter.
  destruct Hinv as (objs & a' & Heq & Hlen & Hall).
  - intros a angle u2 size0 maxRadius objDef Hu2 Hmax.
    destruct (create_fields (Sketch.Math_random st) a
                (GameObjects.wrap
                   (Biomes.WORLD_CENTER_X + cos angle * (sqrt u2 * maxRadius))
                   Biomes.WORLD_WIDTH)
                (GameObjects.wrap
                   (Biomes.WORLD_CENTER_Y + sin angle * (sqrt u2 * maxRadius))
                   Biomes.WORLD_HEIGHT)
                size0 objDef) as (Hx & Hy & Ht).
    unfold Sketch.distanceFromWorldCenter. rewrite Hx, Hy, Ht.
    pose proof (patternReach_nonneg objDef) as Hreach.
    apply Rle_trans with (0 + 1000); [|lra].
    apply (wrapped_point_within _ _ Biomes.WORLD_CENTER_X Biomes.WORLD_CENTER_Y);
      [lra | lra | lra |].
    match goal with
    | |- (?c + ?p - ?c) * _ + (?d + ?q - ?d) * _ <= _ =>
        replace (c + p - c) with p by ring;
        replace (d + q - d) with q by ring
    end.
    apply polar_offset_within.
    pose proof (seed_distance u2 maxRadius Hu2 ltac:(lra)). lra.
  - intros angle u2 maxRadius objDef rng a Hu2 Hmax.
    eapply Forall_impl;
      [|apply (spawnPatternObjects_within (Sketch.world st)
                 (Sketch.Math_random st) _ _ 1000 objDef); [lra|]].
    + intros o [Ht Hd]. rewrite Ht. exact Hd.
    + apply wrapped_seed_within; assumption.
  - rewrite Heq. simpl. split; assumption.
Qed.

(** The scenario of the specification in a world of clustered mountains:
    the player at the center of the world, the first spring. *)
Lemma ring_seeding_bounds_witness :
  (List.length
     (Sketch.objects (Sketch.spawnWorldObjects Examples.atWorldCenter))
   <= 500)%nat
  /\ Forall (fun o => Sketch.distanceFromWorldCenter o
                      <= 1000 + Sketch.patternReach (GameObjects.type o))
            (Sketch.objects (Sketch.spawnWorldObjects Examples.atWorldCenter)).
Proof.
  apply (ring_seeding_bounds Examples.atWorldCenter).
  simpl. split; reflexivity.
Defined.

(** C2, counterexample.  In a world of mountains that spawn in clusters,
    with the player at the center of the world at the start of the first
    spring, the four seeding rings leave an object more than 2000 from the
    center of the world: the first object of the cluster of the first
    seed. *)
Lemma ring_seeding_cluster_leaves_rings :
  exists o : GameObjects.GameObject,
    In o (Sketch.objects (Sketch.spawnWorldObjects Examples.atWorldCenter))
    /\ 2000 < Sketch.distanceFromWorldCenter o.
Proof.
  unfold Sketch.spawnWorldObjects.
  set (st0 := Sketch.set_objects Examples.atWorldCenter []
                (Sketch.alloc Examples.atWorldCenter)).
  change (match Sketch.player st0 with
          | Some p => Players.x p | None => Biomes.WORLD_CENTER_X end)
    with Biomes.WORLD_CENTER_X.
  change (match Sketch.player st0 with
          | Some p => Players.y p | None => Biomes.WORLD_CENTER_Y end)
    with Biomes.WORLD_CENTER_Y.
  set (cx := Biomes.WORLD_CENTER_X). set (cy := Biomes.WORLD_CENTER_Y).
  (* the first ring *)
  assert (Hfirst :
    exists o, In o (Sketch.objects
                      (fst (Sketch.spawnObjectsAroundPlayer st0 cx cy 100 80 0)))
              /\ 2000 < Sketch.distanceFromWorldCenter o).
  { unfold Sketch.spawnObjectsAroundPlayer.
    change (80 * 5)%nat with (S 399).
    change (Sketch.WORLD_SEED
            + Z.of_nat (Sketch.currentSeasonIndex st0) * 1000
            + Z.of_nat 0 * 7777)%Z with 42%Z.
    destruct (ringLoop_first_cluster (Sketch.world st0) (Sketch.Math_random st0)
                (Sketch.getCurrentSeason (Sketch.currentSeasonIndex st0))
                (Sketch.playerSizeOr st0) cx cy 100 80 Examples.mountain
                ltac:(intros; reflexivity) ltac:(intros; reflexivity)
                eq_refl eq_refl eq_refl ltac:(lia)
                399%nat (Noise.new_SeededRandom 42) (Sketch.alloc st0)
                (Sketch.objects st0))
      as (obj & Hin & Hx & Hy).
    destruct (Sketch.ringLoop _ _ _ _ _ _ _ _ _ _ _ _ _ _)
      as [[objs a1] spawned].
    exists obj. split; [exact Hin|].
    rewrite seventh_draw_of_first_ring in Hx, Hy.
    pose proof (next_range (Noise.skip 1 (Noise.new_SeededRandom 42))) as Hu2.
    set (u2 := fst (Noise.next (Noise.skip 1 (Noise.new_SeededRandom 42)))) in *.
    set (a1' := fst (Noise.next (Noise.new_SeededRandom 42)) * PI * 2) in *.
    set (a2' := fst (Noise.next (Noise.skip 5 (Noise.new_SeededRandom 42)))
                * PI * 2) in *.
    change (Biomes.maxSize Examples.mountain) with 3000 in Hx, Hy.
    rewrite Rmax_right in Hx, Hy by lra.
    set (d := IZR 1173505300 / 4294967296 * (3000 * 3)) in *.
    assert (Hd : 2400 < d < 2500) by (unfold d; lra).
    pose proof (seed_distance u2 100 Hu2 ltac:(lra)) as Hs.
    set (s := sqrt u2 * 100) in *.
    pose proof (polar_offset_within a1' s 100 ltac:(lra)) as Hseed.
    pose proof (polar_offset_within a2' d d ltac:(lra)) as Hreach.
    pose proof (sin2_cos2 a2') as Hunit. unfold Rsqr in Hunit.
    set (px := cos a1' * s) in *. set (py := sin a1' * s) in *.
    assert (Hpx : -100 <= px <= 100) by nra.
    assert (Hpy : -100 <= py <= 100) by nra.
    assert (Hqx : -2500 <= cos a2' * d <= 2500)
      by (pose proof (COS_bound a2'); nra).
    assert (Hqy : -2500 <= sin a2' * d <= 2500)
      by (pose proof (SIN_bound a2'); nra).
    unfold cx, cy, Biomes.WORLD_CENTER_X, Biomes.WORLD_CENTER_Y,
      Biomes.WORLD_WIDTH, Biomes.WORLD_HEIGHT in Hx, Hy.
    rewrite (wrap_inside (336 * 72 / 2 + px)) in Hx by lra.
    rewrite (wrap_inside (262 * 72 / 2 + py)) in Hy by lra.
    rewrite wrap_inside in Hx by lra. rewrite wrap_inside in Hy by lra.
    unfold Sketch.distanceFromWorldCenter, Biomes.WORLD_CENTER_X,
      Biomes.WORLD_CENTER_Y, Biomes.WORLD_WIDTH, Biomes.WORLD_HEIGHT.
    rewrite Hx, Hy.
    replace (336 * 72 / 2 + px + cos a2' * d - 336 * 72 / 2)
      with (px + cos a2' * d) by field.
    replace (262 * 72 / 2 + py + sin a2' * d - 262 * 72 / 2)
      with (py + sin a2' * d) by field.
    apply Rnot_le_lt. intros Hnear.
    set (X := (px + cos a2' * d) * (px + cos a2' * d)
              + (py + sin a2' * d) * (py + sin a2' * d)) in *.
    assert (HX : 0 <= X) by (unfold X; nra).
    pose proof (sqrt_sqrt X HX) as Hsq. pose proof (sqrt_pos X) as Hpos.
    assert (HX2 : X <= 2000 * 2000) by nra.
    pose proof (sum_within (px + cos a2' * d) (py + sin a2' * d)
                  (- px) (- py) 2000 100 ltac:(lra) ltac:(lra) HX2
                  ltac:(nra)) as Hsum.
    replace (px + cos a2' * d + - px) with (cos a2' * d) in Hsum by ring.
    replace (py + sin a2' * d + - py) with (sin a2' * d) in Hsum by ring.
    assert (Hdd : cos a2' * d * (cos a2' * d) + sin a2' * d * (sin a2' * d)
                  = d * d * (sin a2' * sin a2' + cos a2' * cos a2')) by ring.
    rewrite Hdd, Hunit in Hsum. nra. }
  destruct Hfirst as (o & Hin & Hfar).
  exists o. split; [|exact Hfar].
  set (st1 := fst (Sketch.spawnObjectsAroundPlayer st0 cx cy 100 80 0)) in *.
  set (st2 := fst (Sketch.spawnObjectsAroundPlayer st1 cx cy 300 120 1)).
  set (st3 := fst (Sketch.spawnObjectsAroundPlayer st2 cx cy 600 150 2)).
  do 3 apply spawnObjectsAroundPlayer_keeps. exact Hin.
Qed.

(** *** Continuous distance management *)






(** ** Population bound *)




(** ** A run of the game through its first spring *)






Opaque Players.update Cameras.follow Cameras.setTargetZoom
       Sketch.calculateZoom Sketch.updateDistanceBasedSpawning
       Sketch.SEASON_DURATION.


(** ** A season transition exceeds the cap *)










(* ================================================================== *)
(** * Further properties of the modelled code *)
(* ================================================================== *)

(** ** The seeded generator *)

Lemma range_bounds (g : Noise.SeededRandom) (lo hi : R) :
  lo < hi -> lo <= fst (Noise.range g lo hi) < hi.
Proof.
  intros Hlt. unfold Noise.range.
  pose proof (next_range g) as Hu.
  destruct (Noise.next g) as [u g']. simpl in *. split; nra.
Qed.

Lemma int_bounds (g : Noise.SeededRandom) (lo hi : Z) :
  (lo <= hi)%Z ->
  (lo <= fst (Noise.int g (IZR lo) (IZR hi)) <= hi)%Z.
Proof.
  intros Hle. unfold Noise.int.
  pose proof (range_bounds g (IZR lo) (IZR hi + 1)) as Hr.
  destruct (Noise.range g (IZR lo) (IZR hi + 1)) as [v g']. simpl in *.
  apply IZR_le in Hle. specialize (Hr ltac:(lra)).
  unfold JS.Math_floor. pose proof (Zfloor_bound v) as [Hlo Hhi].
  split.
  - assert (H : IZR (lo - 1) < IZR (Zfloor v)) by (rewrite minus_IZR; lra).
    apply lt_IZR in H. lia.
  - assert (H : IZR (Zfloor v) < IZR (hi + 1)) by (rewrite plus_IZR; lra).
    apply lt_IZR in H. lia.
Qed.

(** X1.  [next()] returns a number of the half-open interval [[0, 1)]: an
    unsigned 32-bit integer divided by 2^32, for every state of the
    generator. *)
Theorem next_in_unit_interval (g : Noise.SeededRandom) :
  0 <= fst (Noise.next g) < 1
  /\ exists k : Z,
       (0 <= k < 4294967296)%Z /\ fst (Noise.next g) = IZR k / 4294967296.
Proof.
  split; [apply next_range|].
  exists (Noise.mix (Noise.state g + 0x6d2b79f5)).
  split; [apply mix_range | reflexivity].
Qed.

(** X2.  [int(0, i)], the call of the shuffle of the permutation table,
    returns an integer between 0 and [i], both included, for every index
    [i] of the table. *)
Theorem int_in_bounds (g : Noise.SeededRandom) (i : Z) :
  (0 <= i < Z.of_nat Noise.PERM_SIZE)%Z ->
  (0 <= fst (Noise.int g (IZR 0) (IZR i)) <= i)%Z.
Proof. intros [Hi _]. exact (int_bounds g 0 i Hi). Qed.

Lemma int_in_bounds_witness :
  (0 <= fst (Noise.int (Noise.new_SeededRandom 12345) (IZR 0) (IZR 255))
   <= 255)%Z.
Proof. apply int_in_bounds. unfold Noise.PERM_SIZE. simpl. lia. Defined.

Lemma skip_seed (n : nat) (g : Noise.SeededRandom) :
  Noise.seed (Noise.skip n g) = Noise.seed g.
Proof.
  induction n as [|n IH]; [reflexivity|].
  unfold Noise.skip in *. simpl. exact IH.
Qed.

(** X3.  [reset()] replays the generator: after any number of draws and a
    reset, the generator produces again, draw for draw, the numbers a new
    generator of the same seed produces. *)
Theorem reset_replays (s : Z) (n k : nat) :
  fst (Noise.next
         (Noise.skip k (Noise.reset (Noise.skip n (Noise.new_SeededRandom s)))))
  = fst (Noise.next (Noise.skip k (Noise.new_SeededRandom s))).
Proof.
  unfold Noise.reset. rewrite skip_seed. reflexivity.
Qed.

(** ** The permutation table of the noise generator *)

Lemma Array_get_inside {A : Type} (a : list A) (i : Z) :
  (0 <= i < Z.of_nat (List.length a))%Z ->
  JS.Array_get a i = nth_error a (Z.to_nat i)
  /\ exists v, nth_error a (Z.to_nat i) = Some v.
Proof.
  intros Hi. unfold JS.Array_get.
  destruct (Z.ltb_spec i 0) as [Hneg | _]; [lia|]. split; [reflexivity|].
  destruct (nth_error a (Z.to_nat i)) as [v|] eqn:Hnth; [now exists v|].
  apply nth_error_None in Hnth. lia.
Qed.

Lemma Array_set_inside {A : Type} (a : list A) (i : Z) (v : A) :
  (0 <= i < Z.of_nat (List.length a))%Z ->
  JS.Array_set a i v
  = Some (firstn (Z.to_nat i) a ++ v :: skipn (S (Z.to_nat i)) a).
Proof.
  intros Hi. unfold JS.Array_set.
  destruct (Z.leb_spec 0 i) as [_ | Hneg]; [|lia].
  destruct (Z.ltb_spec i (Z.of_nat (List.length a))) as [_ | Hout]; [|lia].
  reflexivity.
Qed.

Lemma nth_error_replaced {A : Type} (a : list A) (i k : nat) (v : A) :
  (i < List.length a)%nat ->
  nth_error (firstn i a ++ v :: skipn (S i) a) k
  = if (k =? i)%nat then Some v else nth_error a k.
Proof.
  intros Hi.
  assert (Hlen : List.length (firstn i a) = i)
    by (rewrite length_firstn; lia).
  destruct (Nat.eqb_spec k i) as [-> | Hne].
  - rewrite nth_error_app2 by lia. rewrite Hlen, Nat.sub_diag. reflexivity.
  - destruct (Nat.lt_ge_cases k i) as [Hlt | Hge].
    + rewrite nth_error_app1 by lia. rewrite nth_error_firstn.
      destruct (Nat.ltb_spec k i); [reflexivity | lia].
    + rewrite nth_error_app2 by lia. rewrite Hlen.
      destruct (k - i)%nat as [|m] eqn:Hm; [lia|].
      change (nth_error (v :: skipn (S i) a) (S m))
        with (nth_error (skipn (S i) a) m).
      rewrite nth_error_skipn. f_equal. lia.
Qed.

Lemma length_replaced {A : Type} (a : list A) (i : nat) (v : A) :
  (i < List.length a)%nat ->
  List.length (firstn i a ++ v :: skipn (S i) a) = List.length a.
Proof.
  intros Hi. rewrite length_app, length_firstn.
  change (List.length (v :: skipn (S i) a))
    with (S (List.length (skipn (S i) a))).
  rewrite length_skipn. lia.
Qed.

(** A swap inside the array succeeds and permutes the array. *)
Lemma swap_permutes (perm : list Z) (i j : Z) :
  (0 <= i < Z.of_nat (List.length perm))%Z ->
  (0 <= j < Z.of_nat (List.length perm))%Z ->
  exists perm' : list Z,
    Noise.swap perm i j = Some perm' /\ Permutation perm perm'.
Proof.
  intros Hi Hj. unfold Noise.swap.
  destruct (Array_get_inside perm j Hj) as (-> & pj & Hpj).
  destruct (Array_get_inside perm i Hi) as (-> & pi & Hpi).
  rewrite Hpj, Hpi. rewrite (Array_set_inside perm i pj Hi).
  set (n := Z.to_nat i) in *. set (m := Z.to_nat j) in *.
  assert (Hn : (n < List.length perm)%nat) by (unfold n; lia).
  assert (Hm : (m < List.length perm)%nat) by (unfold m; lia).
  set (perm1 := firstn n perm ++ pj :: skipn (S n) perm).
  assert (Hlen1 : List.length perm1 = List.length perm)
    by (apply length_replaced; exact Hn).
  rewrite (Array_set_inside perm1 j pi) by (rewrite Hlen1; exact Hj).
  fold m. eexists. split; [reflexivity|].
  apply Permutation_nth_error. split.
  - rewrite length_replaced by (rewrite Hlen1; exact Hm).
    symmetry. exact Hlen1.
  - exists (fun k => if (k =? m)%nat then n
                     else if (k =? n)%nat then m else k).
    split.
    + intros a b.
      destruct (Nat.eqb_spec a m), (Nat.eqb_spec a n),
               (Nat.eqb_spec b m), (Nat.eqb_spec b n); lia.
    + intros k. rewrite nth_error_replaced by (rewrite Hlen1; exact Hm).
      destruct (Nat.eqb_spec k m) as [-> | Hkm]; [symmetry; exact Hpi|].
      unfold perm1. rewrite nth_error_replaced by exact Hn.
      destruct (Nat.eqb_spec k n) as [-> | Hkn]; [symmetry; exact Hpj|].
      reflexivity.
Qed.

Lemma shuffle_step (i : nat) (perm : list Z) (rng : Noise.SeededRandom) :
  Noise.shuffle (S i) perm rng
  = let '(j, rng1) := Noise.int rng 0 (IZR (Z.of_nat (S i))) in
    match Noise.swap perm (Z.of_nat (S i)) j with
    | Some perm1 => Noise.shuffle i perm1 rng1
    | None => (None, rng1)
    end.
Proof. reflexivity. Qed.

Lemma shuffle_permutes (i : nat) :
  forall (perm : list Z) (rng : Noise.SeededRandom),
    (i < List.length perm)%nat ->
    exists perm' : list Z,
      fst (Noise.shuffle i perm rng) = Some perm' /\ Permutation perm perm'.
Proof.
  induction i as [|i IH]; intros perm rng Hi.
  - exists perm. split; [reflexivity | apply Permutation_refl].
  - rewrite shuffle_step.
    pose proof (int_bounds rng 0 (Z.of_nat (S i)) ltac:(lia)) as Hj.
    destruct (Noise.int rng 0 (IZR (Z.of_nat (S i)))) as [j rng1].
    simpl in Hj.
    destruct (swap_permutes perm (Z.of_nat (S i)) j ltac:(lia) ltac:(lia))
      as (perm1 & -> & Hperm1).
    destruct (IH perm1 rng1) as (perm' & Heq & Hperm').
    + rewrite <- (Permutation_length Hperm1). lia.
    + exists perm'. split; [exact Heq|].
      eapply Permutation_trans; eassumption.
Qed.

Lemma generatePermutation_table (rng : Noise.SeededRandom) :
  exists p : list Z,
    fst (Noise.generatePermutation rng) = Some (p ++ p)
    /\ Permutation (map Z.of_nat (seq 0 256)) p.
Proof.
  unfold Noise.generatePermutation, Noise.PERM_SIZE.
  destruct (shuffle_permutes (256 - 1) (map Z.of_nat (seq 0 256)) rng)
    as (p & Heq & Hperm).
  - rewrite length_map, length_seq. lia.
  - destruct (Noise.shuffle (256 - 1) (map Z.of_nat (seq 0 256)) rng)
      as [shuffled rng1].
    simpl in Heq. subst shuffled. exists p. split; [reflexivity | exact Hperm].
Qed.

(** X4.  [generatePermutation] never reads or writes outside its array, and the
    table it returns is a permutation of the numbers 0 to 255, followed by
    the same permutation again. *)
Theorem generatePermutation_doubled_permutation (rng : Noise.SeededRandom) :
  exists p : list Z,
    fst (Noise.generatePermutation rng) = Some (p ++ p)
    /\ Permutation (map Z.of_nat (seq 0 256)) p.
Proof. exact (generatePermutation_table rng). Qed.

(** ** The noise function reads inside its tables *)

Lemma land_255_range (a : Z) : (0 <= Z.land a 255 <= 255)%Z.
Proof.
  change 255%Z with (Z.ones 8) at 1 2. rewrite Z.land_ones by lia.
  pose proof (Z.mod_pos_bound a (2 ^ 8) ltac:(lia)). lia.
Qed.

(** The tables a permutation [p] of 0 to 255 gives: every read the noise
    function makes finds a gradient. *)
Lemma gradientIndex_inside (sn : Noise.SimplexNoise) (p : list Z)
  (base at_ : Z) :
  Permutation (map Z.of_nat (seq 0 256)) p ->
  Noise.perm sn = p ++ p ->
  Noise.permMod12 sn = map (fun v => Z.rem v 12) (p ++ p) ->
  (0 <= base <= 256)%Z -> (0 <= at_ <= 256)%Z ->
  exists k : Z,
    Noise.gradientIndex sn base at_ = Some k /\ (0 <= k < 12)%Z.
Proof.
  intros Hperm Htable Hmod Hbase Hat.
  assert (Hlen : List.length p = 256%nat).
  { rewrite <- (Permutation_length Hperm), length_map, length_seq.
    reflexivity. }
  assert (Hentries : forall v, In v (p ++ p) -> (0 <= v <= 255)%Z).
  { intros v Hin.
    assert (Hp : In v p) by (apply in_app_or in Hin; tauto).
    apply (Permutation_in _ (Permutation_sym Hperm)) in Hp.
    apply in_map_iff in Hp. destruct Hp as (n & <- & Hn).
    apply in_seq in Hn. lia. }
  assert (Hlen2 : List.length (p ++ p) = 512%nat)
    by (rewrite length_app, Hlen; reflexivity).
  unfold Noise.gradientIndex. rewrite Htable, Hmod.
  destruct (Array_get_inside (p ++ p) at_) as (-> & v & Hv);
    [rewrite Hlen2; lia|].
  rewrite Hv. pose proof (Hentries v (nth_error_In _ _ Hv)) as Hrange.
  destruct (Array_get_inside (map (fun v => Z.rem v 12) (p ++ p)) (base + v))
    as (-> & k & Hk); [rewrite length_map, Hlen2; lia|].
  exists k. split; [exact Hk|].
  apply nth_error_In in Hk. apply in_map_iff in Hk.
  destruct Hk as (u & <- & Hu). apply Hentries in Hu.
  pose proof (Z.rem_bound_pos u 12 ltac:(lia) ltac:(lia)). lia.
Qed.

Lemma corner_defined (k : Z) (t x y : R) :
  (0 <= k < 12)%Z -> exists n : R, Noise.corner (Some k) t x y = Some n.
Proof.
  intros Hk. unfold Noise.corner.
  destruct (t <? 0); [now eexists|].
  destruct (Array_get_inside Noise.grad2 k) as (-> & g & ->);
    [simpl; lia|].
  now eexists.
Qed.

(** X5.  For every seed the constructor builds its tables, and [noise2D]
    returns a number at every point: no read of [perm], [permMod12] or
    [grad2] is outside the table. *)
Theorem noise2D_reads_inside_tables (s : Z) :
  exists sn : Noise.SimplexNoise,
    Noise.new_SimplexNoise s = Some sn
    /\ forall x y : R, exists v : R, Noise.noise2D sn x y = Some v.
Proof.
  unfold Noise.new_SimplexNoise.
  destruct (generatePermutation_table (Noise.new_SeededRandom s))
    as (p & Htable & Hperm).
  destruct (Noise.generatePermutation (Noise.new_SeededRandom s))
    as [table rng].
  simpl in Htable. subst table. eexists. split; [reflexivity|].
  intros x y. unfold Noise.noise2D.
  set (i := JS.Math_floor _). set (j := JS.Math_floor _).
  pose proof (land_255_range (JS.to_int32 i)) as Hii.
  pose proof (land_255_range (JS.to_int32 j)) as Hjj.
  set (ii := Z.land (JS.to_int32 i) 255) in *.
  set (jj := Z.land (JS.to_int32 j) 255) in *.
  set (sn := Noise.mkSimplexNoise s rng (p ++ p) _).
  assert (Hread : forall base at_ : Z,
             (0 <= base <= 256)%Z -> (0 <= at_ <= 256)%Z ->
             exists k, Noise.gradientIndex sn base at_ = Some k
                       /\ (0 <= k < 12)%Z).
  { intros base at_. apply (gradientIndex_inside sn p); auto. }
  match goal with
  | |- context [if ?c then (1%Z, 0%Z) else (0%Z, 1%Z)] => destruct c
  end;
    repeat match goal with
    | |- context [Noise.corner (Noise.gradientIndex sn ?b ?a) ?t ?u ?v] =>
        let k := fresh "k" in let Hk := fresh "Hk" in
        let n := fresh "n" in let Hn := fresh "Hn" in
        destruct (Hread b a ltac:(lia) ltac:(lia)) as (k & Hk & ?);
        rewrite Hk;
        destruct (corner_defined k t u v ltac:(assumption)) as (n & Hn);
        rewrite Hn
    end; now eexists.
Qed.

(** ** Zones, coast and terrain *)

Lemma atan2_range (y x : R) : - PI < JS.Math_atan2 y x <= PI.
Proof.
  unfold JS.Math_atan2. pose proof PI_RGT_0 as Hpi.
  pose proof (atan_bound (y / x)) as Hatan.
  destruct (Rlt_dec 0 x) as [Hx | Hx].
  { set (a := atan (y / x)) in *. clearbody a. lra. }
  destruct (Rlt_dec x 0) as [Hneg | Hzero].
  - assert (Hsign : 0 <= y -> atan (y / x) <= 0).
    { intros Hy. assert (Hq : y / x <= 0).
      { unfold Rdiv. assert (Hinv : / x < 0) by (apply Rinv_lt_0_compat; lra).
        set (ix := / x) in *. clearbody ix.
        assert (0 <= y * (- ix)) by (apply Rmult_le_pos; lra). lra. }
      rewrite <- atan_0. destruct Hq as [Hq | Hq].
      - left. apply atan_increasing. exact Hq.
      - rewrite Hq. apply Rle_refl. }
    assert (Hsign' : y < 0 -> 0 < atan (y / x)).
    { intros Hy. rewrite <- atan_0. apply atan_increasing.
      unfold Rdiv. assert (Hinv : / x < 0) by (apply Rinv_lt_0_compat; lra).
      set (ix := / x) in *. clearbody ix.
      assert (0 < (- y) * (- ix)) by (apply Rmult_lt_0_compat; lra). lra. }
    set (a := atan (y / x)) in *. clearbody a.
    destruct (Rle_dec 0 y) as [Hy | Hy];
      [specialize (Hsign Hy) | specialize (Hsign' ltac:(lra))]; lra.
  - destruct (Rlt_dec 0 y); [lra|]. destruct (Rlt_dec y 0); lra.
Qed.

Lemma getAngleFromCenter_range (x y : R) :
  0 <= Biomes.getAngleFromCenter x y < PI * 2.
Proof.
  unfold Biomes.getAngleFromCenter. pose proof PI_RGT_0 as Hpi.
  pose proof (atan2_range (Biomes.WORLD_CENTER_Y - y)
                          (x - Biomes.WORLD_CENTER_X)) as Ha.
  destruct (rem_bounds (JS.Math_atan2 (Biomes.WORLD_CENTER_Y - y)
                                      (x - Biomes.WORLD_CENTER_X) + PI * 2)
                       (PI * 2) ltac:(lra)) as [[_ Hhi] Hlo].
  split; [apply Hlo; lra | exact Hhi].
Qed.

(** X6.  [getZoneInfluence] is total: the angle from the center is in
    [[0, 2 * PI)], the sector is one of 0 to 7, and the result is the name
    of a biome of the closed set, never [undefined]. *)
Theorem getZoneInfluence_defined (x y : R) :
  0 <= Biomes.getAngleFromCenter x y < PI * 2
  /\ (0 <= Biomes.zoneSector x y <= 7)%Z
  /\ exists zone : string,
       Biomes.getZoneInfluence x y = Some zone /\ In zone Biomes.BiomeIds.
Proof.
  pose proof (getAngleFromCenter_range x y) as Hangle.
  pose proof PI_RGT_0 as Hpi.
  assert (Hunit : 0 <= Biomes.getAngleFromCenter x y / (PI * 2) < 1).
  { split.
    - apply Rmult_le_pos; [lra|]. left. apply Rinv_0_lt_compat. lra.
    - apply (Rmult_lt_reg_r (PI * 2)); [lra|]. unfold Rdiv.
      rewrite Rmult_assoc, Rinv_l by lra. lra. }
  pose proof (floor_scaled_range _ 8 Hunit ltac:(lia)) as Hfloor.
  assert (Hsector : (0 <= Biomes.zoneSector x y <= 7)%Z).
  { unfold Biomes.zoneSector. rewrite Z.rem_small by exact Hfloor. lia. }
  split; [exact Hangle|]. split; [exact Hsector|].
  unfold Biomes.getZoneInfluence.
  assert (Hcases : Biomes.zoneSector x y = 0%Z \/ Biomes.zoneSector x y = 1%Z
                   \/ Biomes.zoneSector x y = 2%Z \/ Biomes.zoneSector x y = 3%Z
                   \/ Biomes.zoneSector x y = 4%Z \/ Biomes.zoneSector x y = 5%Z
                   \/ Biomes.zoneSector x y = 6%Z \/ Biomes.zoneSector x y = 7%Z)
    by lia.
  repeat destruct Hcases as [-> | Hcases]; try rewrite Hcases;
    (eexists; split; [reflexivity | simpl; tauto]).
Qed.

Lemma getTerrainType_bands (dist noise : R) :
  0 <= noise <= 1 ->
  (dist < 0.7 -> Biomes.getTerrainType dist noise = "land"%string)
  /\ (1.2 <= dist -> Biomes.getTerrainType dist noise = "ocean"%string).
Proof.
  intros Hn. unfold Biomes.getTerrainType. split; intros Hd.
  - destruct (_ <? 0.85) eqn:E; [reflexivity|].
    apply ltb_false_iff in E. lra.
  - repeat match goal with
    | |- context [?a <? ?b] =>
        let E := fresh "E" in
        destruct (a <? b) eqn:E; [apply ltb_true_iff in E; lra|]
    end.
    reflexivity.
Qed.

(** X7.  The coast moves with the coastline noise by at most 0.15 of the island
    radius: for a noise value in [[0, 1]], a point nearer than 0.7 is never
    classified by the three coastal rules (its terrain is land), and a
    point at 1.2 or farther is ocean whatever the other inputs are. *)
Theorem coast_within_noise_band (BIOMES : Biomes.BiomeTable)
  (elevation moisture temperature : R) (zonePreference : string)
  (zoneStrength x y coastlineNoise villageNoise : R) :
  0 <= coastlineNoise <= 1 ->
  (Biomes.getDistanceFromCenter x y < 0.7 ->
   Biomes.getTerrainType (Biomes.getDistanceFromCenter x y) coastlineNoise
   = "land"%string)
  /\ (1.2 <= Biomes.getDistanceFromCenter x y ->
      Biomes.selectBiome BIOMES elevation moisture temperature zonePreference
        zoneStrength x y coastlineNoise villageNoise
      = BIOMES "ocean"%string).
Proof.
  intros Hn.
  destruct (getTerrainType_bands (Biomes.getDistanceFromCenter x y)
              coastlineNoise Hn) as [Hland Hocean].
  split; [exact Hland|]. intros Hd. unfold Biomes.selectBiome.
  rewrite (Hocean Hd). reflexivity.
Qed.

Lemma coast_within_noise_band_witness :
  Biomes.getTerrainType
    (Biomes.getDistanceFromCenter Biomes.WORLD_CENTER_X Biomes.WORLD_CENTER_Y)
    0.5 = "land"%string.
Proof.
  destruct (coast_within_noise_band (fun _ => None) 0.5 0.5 0.5 "meadow" 0.3
              Biomes.WORLD_CENTER_X Biomes.WORLD_CENTER_Y 0.5 0.5
              ltac:(lra)) as [Hland _].
  apply Hland. unfold Biomes.getDistanceFromCenter.
  replace ((Biomes.WORLD_CENTER_X - Biomes.WORLD_CENTER_X)
           / Biomes.ISLAND_RADIUS_X) with 0
    by (unfold Rdiv; ring).
  replace ((Biomes.WORLD_CENTER_Y - Biomes.WORLD_CENTER_Y)
           / Biomes.ISLAND_RADIUS_Y) with 0
    by (unfold Rdiv; ring).
  replace (0 * 0 + 0 * 0) with 0 by ring. rewrite sqrt_0. lra.
Defined.

(** X8.  The terrain penalty shrinks as the player grows and never turns into a
    bonus; from size 200 on, four fifths of the penalty of the terrain are
    removed (one fifth stays). *)
Theorem terrain_penalty_shrinks_with_size (b : Biomes.Biome) (s1 s2 : R) :
  0 <= s1 <= s2 ->
  Biomes.baseTerrainSpeed b <= Biomes.getTerrainSpeedMultiplier b s1
  /\ Biomes.getTerrainSpeedMultiplier b s1
     <= Biomes.getTerrainSpeedMultiplier b s2
  /\ Biomes.getTerrainSpeedMultiplier b s2 <= 1
  /\ (200 <= s2 ->
      1 - Biomes.getTerrainSpeedMultiplier b s2
      = (1 - Biomes.baseTerrainSpeed b) * 0.2).
Proof.
  intros Hs. unfold Biomes.getTerrainSpeedMultiplier,
    Biomes.TERRAIN_PENALTY_REDUCTION_SIZE.
  pose proof (baseTerrainSpeed_range b) as Hb.
  set (base := Biomes.baseTerrainSpeed b) in *.
  assert (Hr1 : 0 <= Rmin 1 (s1 / 200) <= 1).
  { split; [apply Rmin_glb; lra | apply Rmin_l]. }
  assert (Hr2 : Rmin 1 (s1 / 200) <= Rmin 1 (s2 / 200) <= 1).
  { split; [|apply Rmin_l]. apply Rle_min_compat_l. lra. }
  set (r1 := Rmin 1 (s1 / 200)) in *. set (r2 := Rmin 1 (s2 / 200)) in *.
  repeat split; try nra.
  intros Hbig. unfold r2. rewrite Rmin_left by lra. lra.
Qed.

Lemma terrain_penalty_shrinks_with_size_witness :
  Biomes.getTerrainSpeedMultiplier Examples.bareMeadow 12
  <= Biomes.getTerrainSpeedMultiplier Examples.bareMeadow 250
  /\ 1 - Biomes.getTerrainSpeedMultiplier Examples.bareMeadow 250
     = (1 - Biomes.baseTerrainSpeed Examples.bareMeadow) * 0.2.
Proof.
  destruct (terrain_penalty_shrinks_with_size Examples.bareMeadow 12 250
              ltac:(lra)) as (_ & Hmono & _ & Hlarge).
  split; [exact Hmono | apply Hlarge; lra].
Defined.

(** ** Spawn points of a season transition *)

Lemma island_point_distance (angle r : R) :
  0 <= r ->
  Biomes.getDistanceFromCenter
    (Biomes.WORLD_CENTER_X + cos angle * Biomes.ISLAND_RADIUS_X * r)
    (Biomes.WORLD_CENTER_Y + sin angle * Biomes.ISLAND_RADIUS_Y * r)
  = r.
Proof.
  intros Hr. unfold Biomes.getDistanceFromCenter.
  assert (HX : Biomes.ISLAND_RADIUS_X <> 0)
    by (unfold Biomes.ISLAND_RADIUS_X, Biomes.WORLD_WIDTH; lra).
  assert (HY : Biomes.ISLAND_RADIUS_Y <> 0)
    by (unfold Biomes.ISLAND_RADIUS_Y, Biomes.WORLD_HEIGHT; lra).
  replace ((Biomes.WORLD_CENTER_X + cos angle * Biomes.ISLAND_RADIUS_X * r
            - Biomes.WORLD_CENTER_X) / Biomes.ISLAND_RADIUS_X)
    with (cos angle * r) by (field; exact HX).
  replace ((Biomes.WORLD_CENTER_Y + sin angle * Biomes.ISLAND_RADIUS_Y * r
            - Biomes.WORLD_CENTER_Y) / Biomes.ISLAND_RADIUS_Y)
    with (sin angle * r) by (field; exact HY).
  pose proof (sin2_cos2 angle) as H. unfold Rsqr in H.
  replace (cos angle * r * (cos angle * r) + sin angle * r * (sin angle * r))
    with (r * r * (sin angle * sin angle + cos angle * cos angle)) by ring.
  rewrite H, Rmult_1_r. apply sqrt_square. exact Hr.
Qed.

Lemma land_points_on_island (w : Worlds.World) (count : nat) :
  forall rng : Noise.SeededRandom,
    Forall (fun pt =>
              Biomes.getDistanceFromCenter (Sketch.px pt) (Sketch.py pt) <= 0.85
              /\ Sketch.pbiome pt
                 = Worlds.getBiomeAt w (Sketch.px pt) (Sketch.py pt)
              /\ Biomes.isOcean (Sketch.pbiome pt) = false)
           (Sketch.generateLandSpawnPoints_loop w count rng).
Proof.
  induction count as [|count IH]; intros rng; simpl; [constructor|].
  destruct (Noise.next rng) as [u1 rng1].
  pose proof (next_range rng1) as Hu2.
  destruct (Noise.next rng1) as [u2 rng2]. simpl in Hu2.
  destruct (Biomes.isOcean _) eqn:Hocean; [apply IH|].
  constructor; [|apply IH]. simpl. split; [|split; [reflexivity | exact Hocean]].
  pose proof (sqrt_pos u2) as Hs0.
  assert (Hs1 : sqrt u2 <= 1).
  { rewrite <- sqrt_1. apply sqrt_le_1_alt. lra. }
  rewrite island_point_distance; lra.
Qed.

Lemma ocean_points_off_shore (w : Worlds.World) (count : nat) :
  forall rng : Noise.SeededRandom,
    Forall (fun pt =>
              1.1 <= Biomes.getDistanceFromCenter (Sketch.px pt) (Sketch.py pt)
                  <= 1.4
              /\ 50 <= Sketch.px pt <= Biomes.WORLD_WIDTH - 50
              /\ 50 <= Sketch.py pt <= Biomes.WORLD_HEIGHT - 50
              /\ Biomes.isOcean (Sketch.pbiome pt) = true)
           (Sketch.generateOceanSpawnPoints_loop w count rng).
Proof.
  induction count as [|count IH]; intros rng; simpl; [constructor|].
  destruct (Noise.next rng) as [u1 rng1].
  pose proof (next_range rng1) as Hu2.
  destruct (Noise.next rng1) as [u2 rng2]. simpl in Hu2.
  set (px := Biomes.WORLD_CENTER_X + _). set (py := Biomes.WORLD_CENTER_Y + _).
  destruct (px <? 50) eqn:E1; [apply IH|].
  destruct (px >? Biomes.WORLD_WIDTH - 50) eqn:E2; [apply IH|].
  destruct (py <? 50) eqn:E3; [apply IH|].
  destruct (py >? Biomes.WORLD_HEIGHT - 50) eqn:E4; [apply IH|].
  simpl. destruct (Biomes.isOcean _) eqn:Hocean; [|apply IH].
  constructor; [|apply IH]. simpl.
  apply ltb_false_iff in E1. apply gtb_false_iff in E2.
  apply ltb_false_iff in E3. apply gtb_false_iff in E4.
  repeat split; try assumption; unfold px, py;
    rewrite island_point_distance; lra.
Qed.

(** X9.  The points a season transition spawns at: every land point lies on the
    island, at a normalized distance of at most 0.85 from the center, in a
    biome that is not ocean; every ocean point lies off shore, at a distance
    between 1.1 and 1.4, at least 50 from every edge of the world, in an
    ocean biome.  No more points are returned than were asked for. *)
Theorem spawn_points_on_their_terrain (w : Worlds.World) (count : nat)
  (seed : Z) :
  Forall (fun pt =>
            Biomes.getDistanceFromCenter (Sketch.px pt) (Sketch.py pt) <= 0.85
            /\ Sketch.pbiome pt
               = Worlds.getBiomeAt w (Sketch.px pt) (Sketch.py pt)
            /\ Biomes.isOcean (Sketch.pbiome pt) = false)
         (Sketch.generateLandSpawnPoints w count seed)
  /\ Forall (fun pt =>
               1.1 <= Biomes.getDistanceFromCenter (Sketch.px pt) (Sketch.py pt)
                   <= 1.4
               /\ 50 <= Sketch.px pt <= Biomes.WORLD_WIDTH - 50
               /\ 50 <= Sketch.py pt <= Biomes.WORLD_HEIGHT - 50
               /\ Biomes.isOcean (Sketch.pbiome pt) = true)
            (Sketch.generateOceanSpawnPoints w count seed).
Proof.
  split; [apply land_points_on_island | apply ocean_points_off_shore].
Qed.

Transparent Cameras.follow Cameras.setTargetZoom Sketch.calculateZoom.

(** ** The camera *)

(** X10.  [screenToWorld] undoes [worldToScreen], and the other way round, for a
    zoom other than zero. *)
Theorem screen_world_round_trip (c : Cameras.Camera) (a b : R) :
  Cameras.zoom c <> 0 ->
  Cameras.screenToWorld c (fst (Cameras.worldToScreen c a b))
                          (snd (Cameras.worldToScreen c a b)) = (a, b)
  /\ Cameras.worldToScreen c (fst (Cameras.screenToWorld c a b))
                             (snd (Cameras.screenToWorld c a b)) = (a, b).
Proof.
  intros Hz. unfold Cameras.screenToWorld, Cameras.worldToScreen. simpl.
  split; f_equal; field; exact Hz.
Qed.

Lemma screen_world_round_trip_witness :
  Cameras.screenToWorld
    (Cameras.new_Camera 336 262 Biomes.WORLD_WIDTH Biomes.WORLD_HEIGHT)
    (fst (Cameras.worldToScreen
            (Cameras.new_Camera 336 262 Biomes.WORLD_WIDTH Biomes.WORLD_HEIGHT)
            100 50))
    (snd (Cameras.worldToScreen
            (Cameras.new_Camera 336 262 Biomes.WORLD_WIDTH Biomes.WORLD_HEIGHT)
            100 50))
  = (100, 50)
  /\ Cameras.worldToScreen
       (Cameras.new_Camera 336 262 Biomes.WORLD_WIDTH Biomes.WORLD_HEIGHT)
       (fst (Cameras.screenToWorld
               (Cameras.new_Camera 336 262 Biomes.WORLD_WIDTH
                                   Biomes.WORLD_HEIGHT) 100 50))
       (snd (Cameras.screenToWorld
               (Cameras.new_Camera 336 262 Biomes.WORLD_WIDTH
                                   Biomes.WORLD_HEIGHT) 100 50))
     = (100, 50).
Proof.
  apply (screen_world_round_trip
           (Cameras.new_Camera 336 262 Biomes.WORLD_WIDTH Biomes.WORLD_HEIGHT)
           100 50).
  simpl. lra.
Defined.

(** The two conditional steps bring a delta of at most one and a half
    world dimensions to the nearest copy: at most half a dimension. *)
Lemma wrapDelta_nearest (d dim : R) :
  0 < dim -> - (3 / 2) * dim <= d <= 3 / 2 * dim ->
  - (dim / 2) <= Cameras.wrapDelta d dim <= dim / 2
  /\ (Cameras.wrapDelta d dim = d
      \/ Cameras.wrapDelta d dim = d - dim
      \/ Cameras.wrapDelta d dim = d + dim).
Proof.
  intros Hdim Hd. unfold Cameras.wrapDelta.
  destruct (d >? dim / 2) eqn:E1; js_cmp.
  - destruct (d - dim <? - dim / 2) eqn:E2; js_cmp; split; try lra; auto.
  - destruct (d <? - dim / 2) eqn:E2; js_cmp; split; try lra; auto.
Qed.

(** X11.  [getWrappedPosition] returns the copy of the object nearest to the
    center of the view: the object itself or the object moved by one world
    dimension, at most half a world dimension from the center along each
    axis.  This holds whenever the object is within one and a half world
    dimensions of the center, so for every object and camera center inside
    the world. *)
Theorem getWrappedPosition_nearest_copy (c : Cameras.Camera) (objX objY : R) :
  0 < Cameras.worldWidth c -> 0 < Cameras.worldHeight c ->
  Rabs (objX - fst (Cameras.viewCenter c)) <= 3 / 2 * Cameras.worldWidth c ->
  Rabs (objY - snd (Cameras.viewCenter c)) <= 3 / 2 * Cameras.worldHeight c ->
  Rabs (fst (Cameras.getWrappedPosition c objX objY)
        - fst (Cameras.viewCenter c)) <= Cameras.worldWidth c / 2
  /\ Rabs (snd (Cameras.getWrappedPosition c objX objY)
           - snd (Cameras.viewCenter c)) <= Cameras.worldHeight c / 2
  /\ (fst (Cameras.getWrappedPosition c objX objY) = objX
      \/ fst (Cameras.getWrappedPosition c objX objY)
         = objX - Cameras.worldWidth c
      \/ fst (Cameras.getWrappedPosition c objX objY)
         = objX + Cameras.worldWidth c)
  /\ (snd (Cameras.getWrappedPosition c objX objY) = objY
      \/ snd (Cameras.getWrappedPosition c objX objY)
         = objY - Cameras.worldHeight c
      \/ snd (Cameras.getWrappedPosition c objX objY)
         = objY + Cameras.worldHeight c).
Proof.
  intros HW HH HX HY. unfold Cameras.viewCenter in *. simpl fst in *.
  simpl snd in *.
  set (centerX := Cameras.x c + Cameras.screenWidth c / Cameras.zoom c / 2) in *.
  set (centerY := Cameras.y c + Cameras.screenHeight c / Cameras.zoom c / 2) in *.
  apply Rabs_bound in HX. apply Rabs_bound in HY.
  destruct (wrapDelta_nearest (objX - centerX) (Cameras.worldWidth c) HW
              ltac:(lra)) as [HbX HcX].
  destruct (wrapDelta_nearest (objY - centerY) (Cameras.worldHeight c) HH
              ltac:(lra)) as [HbY HcY].
  unfold Cameras.getWrappedPosition. fold centerX centerY. simpl.
  repeat split.
  - apply Rabs_le. lra.
  - apply Rabs_le. lra.
  - destruct HcX as [-> | [-> | ->]]; [left | right; left | right; right]; ring.
  - destruct HcY as [-> | [-> | ->]]; [left | right; left | right; right]; ring.
Qed.

Lemma startCamera_view :
  Cameras.viewCenter Examples.startCamera = (200, 200)
  /\ Cameras.worldWidth Examples.startCamera = Biomes.WORLD_WIDTH
  /\ Cameras.worldHeight Examples.startCamera = Biomes.WORLD_HEIGHT
  /\ Cameras.screenWidth Examples.startCamera / Cameras.zoom Examples.startCamera
     = 336
  /\ Cameras.screenHeight Examples.startCamera / Cameras.zoom Examples.startCamera
     = 262.
Proof.
  unfold Cameras.viewCenter, Examples.startCamera, Sketch.SCREEN_WIDTH,
    Sketch.SCREEN_HEIGHT. simpl.
  repeat split; try (f_equal; field); field.
Qed.

Lemma getWrappedPosition_nearest_copy_witness :
  Rabs (fst (Cameras.getWrappedPosition Examples.startCamera 24000 300)
        - fst (Cameras.viewCenter Examples.startCamera))
  <= Cameras.worldWidth Examples.startCamera / 2.
Proof.
  destruct startCamera_view as (Hc & HW & HH & _).
  apply (getWrappedPosition_nearest_copy Examples.startCamera 24000 300).
  - rewrite HW. unfold Biomes.WORLD_WIDTH. lra.
  - rewrite HH. unfold Biomes.WORLD_HEIGHT. lra.
  - rewrite Hc, HW. simpl fst. unfold Biomes.WORLD_WIDTH.
    apply Rabs_le. lra.
  - rewrite Hc, HH. simpl snd. unfold Biomes.WORLD_HEIGHT.
    apply Rabs_le. lra.
Defined.

Lemma wrapDelta_small (d dim : R) :
  - (dim / 2) <= d <= dim / 2 -> Cameras.wrapDelta d dim = d.
Proof.
  intros Hd. unfold Cameras.wrapDelta.
  destruct (d >? dim / 2) eqn:E1; js_cmp; [lra|].
  destruct (d <? - dim / 2) eqn:E2; js_cmp; [lra | reflexivity].
Qed.

(** X12.  An object inside the visible bounds is visible: [isVisible] never culls
    an object of positive size whose position is on screen, as long as the
    view is not larger than the world. *)
Theorem isVisible_inside_bounds (c : Cameras.Camera) (worldX worldY size : R) :
  0 < size ->
  0 <= Cameras.screenWidth c / Cameras.zoom c <= Cameras.worldWidth c ->
  0 <= Cameras.screenHeight c / Cameras.zoom c <= Cameras.worldHeight c ->
  Cameras.left (Cameras.getVisibleBounds c) <= worldX
    <= Cameras.right (Cameras.getVisibleBounds c) ->
  Cameras.top (Cameras.getVisibleBounds c) <= worldY
    <= Cameras.bottom (Cameras.getVisibleBounds c) ->
  Cameras.isVisible c worldX worldY size = true.
Proof.
  intros Hsize HW HH HX HY. unfold Cameras.getVisibleBounds in *.
  simpl in HX, HY. unfold Cameras.isVisible.
  set (ew := Cameras.screenWidth c / Cameras.zoom c) in *.
  set (eh := Cameras.screenHeight c / Cameras.zoom c) in *.
  rewrite (wrapDelta_small (worldX - (Cameras.x c + ew / 2))) by lra.
  rewrite (wrapDelta_small (worldY - (Cameras.y c + eh / 2))) by lra.
  apply andb_true_intro. split; apply ltb_true_iff.
  - apply Rle_lt_trans with (ew / 2); [apply Rabs_le|]; lra.
  - apply Rle_lt_trans with (eh / 2); [apply Rabs_le|]; lra.
Qed.

Lemma isVisible_inside_bounds_witness :
  Cameras.isVisible Examples.startCamera 210 190 8 = true.
Proof.
  destruct startCamera_view as (Hc & HW & HH & Hew & Heh).
  apply (isVisible_inside_bounds Examples.startCamera 210 190 8).
  - lra.
  - rewrite Hew, HW. unfold Biomes.WORLD_WIDTH. lra.
  - rewrite Heh, HH. unfold Biomes.WORLD_HEIGHT. lra.
  - unfold Cameras.getVisibleBounds, Examples.startCamera,
      Sketch.SCREEN_WIDTH. simpl. lra.
  - unfold Cameras.getVisibleBounds, Examples.startCamera,
      Sketch.SCREEN_HEIGHT. simpl. lra.
Defined.

Lemma follow_zoom (c : Cameras.Camera) (px py : R) :
  Cameras.targetZoom (Cameras.follow c px py) = Cameras.targetZoom c
  /\ Cameras.zoomSmoothing (Cameras.follow c px py) = Cameras.zoomSmoothing c
  /\ Cameras.targetZoom c - Cameras.zoom (Cameras.follow c px py)
     = (1 - Cameras.zoomSmoothing c) * (Cameras.targetZoom c - Cameras.zoom c).
Proof. unfold Cameras.follow. simpl. repeat split. ring. Qed.

(** X13.  While the target zoom stays the same, every frame of [follow] closes
    the same share of the gap between the zoom and its target: after [n]
    frames the gap is the first gap times [(1 - zoomSmoothing) ^ n],
    wherever the camera is led. *)
Theorem follow_zoom_geometric (targets : list (R * R)) :
  forall c : Cameras.Camera,
    Cameras.targetZoom c
    - Cameras.zoom (fold_left (fun cam p => Cameras.follow cam (fst p) (snd p))
                              targets c)
    = (1 - Cameras.zoomSmoothing c) ^ List.length targets
      * (Cameras.targetZoom c - Cameras.zoom c).
Proof.
  induction targets as [|p targets IH]; intros c.
  - simpl. ring.
  - change (fold_left _ (p :: targets) c)
      with (fold_left (fun cam q => Cameras.follow cam (fst q) (snd q))
                      targets (Cameras.follow c (fst p) (snd p))).
    destruct (follow_zoom c (fst p) (snd p)) as (Ht & Hs & Hz).
    specialize (IH (Cameras.follow c (fst p) (snd p))).
    rewrite Ht, Hs, Hz in IH. rewrite IH. simpl. ring.
Qed.

(** X14.  [follow] leads the camera the short way round the torus: along each
    axis the camera moves by [smoothing] times a delta of at most half a
    world dimension. *)
Theorem follow_short_way (c : Cameras.Camera) (px py : R) :
  0 < Cameras.worldWidth c -> 0 <= Cameras.smoothing c ->
  Rabs (px - Cameras.screenWidth c / Cameras.zoom (Cameras.follow c px py) / 2
        - Cameras.x c) <= 3 / 2 * Cameras.worldWidth c ->
  Rabs (Cameras.x (Cameras.follow c px py) - Cameras.x c)
  <= Cameras.smoothing c * (Cameras.worldWidth c / 2).
Proof.
  intros HW Hs Hnear. unfold Cameras.follow in *. simpl in *.
  set (zoom1 := Cameras.zoom c
                + (Cameras.targetZoom c - Cameras.zoom c)
                  * Cameras.zoomSmoothing c) in *.
  set (d := px - Cameras.screenWidth c / zoom1 / 2 - Cameras.x c) in *.
  apply Rabs_bound in Hnear.
  destruct (wrapDelta_nearest d (Cameras.worldWidth c) HW ltac:(lra))
    as [Hb _].
  unfold Cameras.wrapDelta in Hb.
  match goal with
  | |- Rabs (_ + ?w * _ - _) <= _ =>
      replace (Cameras.x c + w * Cameras.smoothing c - Cameras.x c)
        with (Cameras.smoothing c * w) by ring;
      set (wd := w) in *
  end.
  apply Rabs_le. nra.
Qed.

Lemma follow_short_way_witness :
  Rabs (Cameras.x (Cameras.follow Examples.startCamera 24000 200)
        - Cameras.x Examples.startCamera)
  <= Cameras.smoothing Examples.startCamera
     * (Cameras.worldWidth Examples.startCamera / 2).
Proof.
  apply (follow_short_way Examples.startCamera 24000 200).
  - simpl. unfold Biomes.WORLD_WIDTH. lra.
  - simpl. lra.
  - unfold Cameras.follow, Examples.startCamera, Sketch.SCREEN_WIDTH,
      Biomes.WORLD_WIDTH. simpl.
    replace (1 + (1 - 1) * 0.03) with 1 by ring. apply Rabs_le. lra.
Defined.

(** X15.  The zoom the game asks of the camera: [setTargetZoom(calculateZoom())]
    lies between 0.15 and 2, the limits of the camera, which are inside the
    limits [MIN_ZOOM] and [MAX_ZOOM] of [calculateZoom].  The player covers
    15% of the height of the screen exactly for a size between 19.65 and
    262; below that the target zoom is 2. *)
Theorem camera_zoom_target (c : Cameras.Camera) (p : Players.Player) :
  0.15 <= Cameras.targetZoom (Cameras.setTargetZoom c (Sketch.calculateZoom p))
       <= 2
  /\ (19.65 <= Players.size p <= 262 ->
      Players.size p
      * Cameras.targetZoom (Cameras.setTargetZoom c (Sketch.calculateZoom p))
      = Sketch.SCREEN_HEIGHT * Sketch.PLAYER_SCREEN_RATIO)
  /\ (0 < Players.size p <= 19.65 ->
      Cameras.targetZoom (Cameras.setTargetZoom c (Sketch.calculateZoom p))
      = 2).
Proof.
  unfold Cameras.setTargetZoom, Sketch.calculateZoom, Sketch.MIN_ZOOM,
    Sketch.MAX_ZOOM, Sketch.SCREEN_HEIGHT, Sketch.PLAYER_SCREEN_RATIO.
  simpl Cameras.targetZoom.
  set (s := Players.size p). set (z := 262 * 0.15 / s).
  split; [|split].
  - split.
    + apply Rmax_l.
    + apply Rmax_lub; [lra | apply Rmin_l].
  - intros Hs.
    assert (Hz : 0.15 <= z <= 2).
    { unfold z. split.
      - apply (Rmult_le_reg_r s); [lra|]. unfold Rdiv.
        rewrite Rmult_assoc, Rinv_l by lra. lra.
      - apply (Rmult_le_reg_r s); [lra|]. unfold Rdiv.
        rewrite Rmult_assoc, Rinv_l by lra. lra. }
    rewrite (Rmin_right 4.5 z) by lra. rewrite (Rmax_right 0.1 z) by lra.
    rewrite (Rmin_right 2 z) by lra. rewrite (Rmax_right 0.15 z) by lra.
    unfold z. field. lra.
  - intros Hs.
    assert (Hz : 2 <= z).
    { unfold z. apply (Rmult_le_reg_r s); [lra|]. unfold Rdiv.
      rewrite Rmult_assoc, Rinv_l by lra. lra. }
    assert (Hin : 2 <= Rmax 0.1 (Rmin 4.5 z)).
    { apply Rle_trans with (Rmin 4.5 z); [apply Rmin_glb; lra | apply Rmax_r]. }
    rewrite (Rmin_left 2) by exact Hin. apply Rmax_right. lra.
Qed.

Opaque Cameras.follow Cameras.setTargetZoom Sketch.calculateZoom.

(** ** Objects *)

Lemma friction_component (v : R) :
  let v' := if Rabs (v * 0.95) <? 0.01 then 0 else v * 0.95 in
  Rabs v' <= 0.95 * Rabs v /\ (v' = 0 \/ 0.01 <= Rabs v').
Proof.
  intros v'. unfold v'.
  assert (Hscaled : Rabs (v * 0.95) = 0.95 * Rabs v).
  { rewrite Rabs_mult, (Rabs_pos_eq 0.95) by lra. ring. }
  destruct (_ <? 0.01) eqn:E; js_cmp.
  - rewrite Rabs_R0. pose proof (Rabs_pos v). split; [lra | now left].
  - split; [lra | now right].
Qed.

Lemma update_velocity (o : GameObjects.GameObject)
  (worldWidth worldHeight : option R) :
  (Rabs (GameObjects.vx (GameObjects.update o worldWidth worldHeight))
   <= 0.95 * Rabs (GameObjects.vx o)
   /\ (GameObjects.vx (GameObjects.update o worldWidth worldHeight) = 0
       \/ 0.01 <= Rabs (GameObjects.vx
                          (GameObjects.update o worldWidth worldHeight))))
  /\ (Rabs (GameObjects.vy (GameObjects.update o worldWidth worldHeight))
      <= 0.95 * Rabs (GameObjects.vy o)
      /\ (GameObjects.vy (GameObjects.update o worldWidth worldHeight) = 0
          \/ 0.01 <= Rabs (GameObjects.vy
                             (GameObjects.update o worldWidth worldHeight)))).
Proof.
  unfold GameObjects.update. simpl.
  destruct (negb (JS.eqb (GameObjects.vx o) 0)
            || negb (JS.eqb (GameObjects.vy o) 0)) eqn:Hmoving.
  - match goal with
    | |- context [let '(x2, y2) := ?e in _] => destruct e as [x2 y2]
    end.
    simpl. split; apply friction_component.
  - apply orb_false_elim in Hmoving. destruct Hmoving as [Hx Hy].
    apply negb_false_iff in Hx. apply negb_false_iff in Hy.
    unfold JS.eqb in Hx, Hy.
    destruct (Req_dec_T (GameObjects.vx o) 0) as [Hvx | ]; [|discriminate].
    destruct (Req_dec_T (GameObjects.vy o) 0) as [Hvy | ]; [|discriminate].
    simpl. rewrite Hvx, Hvy, Rabs_R0. split; split; try lra; now left.
Qed.

(** X16.  Friction: one [update] scales each component of the velocity by 0.95
    at most, and leaves no component of a magnitude below 0.01 other than
    zero. *)
Theorem update_applies_friction (o : GameObjects.GameObject)
  (worldWidth worldHeight : option R) :
  Rabs (GameObjects.vx (GameObjects.update o worldWidth worldHeight))
  <= 0.95 * Rabs (GameObjects.vx o)
  /\ Rabs (GameObjects.vy (GameObjects.update o worldWidth worldHeight))
     <= 0.95 * Rabs (GameObjects.vy o)
  /\ (GameObjects.vx (GameObjects.update o worldWidth worldHeight) = 0
      \/ 0.01 <= Rabs (GameObjects.vx
                         (GameObjects.update o worldWidth worldHeight)))
  /\ (GameObjects.vy (GameObjects.update o worldWidth worldHeight) = 0
      \/ 0.01 <= Rabs (GameObjects.vy
                         (GameObjects.update o worldWidth worldHeight))).
Proof.
  destruct (update_velocity o worldWidth worldHeight) as [[H1 H2] [H3 H4]].
  auto.
Qed.

Lemma updates_velocity (worldWidth worldHeight : option R) (n : nat) :
  forall o : GameObjects.GameObject,
    Rabs (GameObjects.vx
            (Nat.iter n (fun obj => GameObjects.update obj worldWidth
                                                       worldHeight) o))
    <= 0.95 ^ n * Rabs (GameObjects.vx o)
    /\ Rabs (GameObjects.vy
               (Nat.iter n (fun obj => GameObjects.update obj worldWidth
                                                          worldHeight) o))
       <= 0.95 ^ n * Rabs (GameObjects.vy o).
Proof.
  induction n as [|n IH]; intros o.
  - simpl. lra.
  - change (Nat.iter (S n) ?f o) with (f (Nat.iter n f o)). cbv beta.
    destruct (IH o) as [IHx IHy].
    destruct (update_velocity
                (Nat.iter n (fun obj => GameObjects.update obj worldWidth
                                                           worldHeight) o)
                worldWidth worldHeight) as [[Hx _] [Hy _]].
    simpl pow. split; nra.
Qed.

(** X17.  An object that is left alone comes to rest: from some frame on, every
    further [update] finds its velocity at exactly zero. *)
Theorem object_comes_to_rest (o : GameObjects.GameObject)
  (worldWidth worldHeight : option R) :
  exists N : nat, forall n : nat, (N <= n)%nat ->
    GameObjects.vx
      (Nat.iter n (fun obj => GameObjects.update obj worldWidth worldHeight) o)
    = 0
    /\ GameObjects.vy
         (Nat.iter n (fun obj => GameObjects.update obj worldWidth worldHeight)
                   o)
       = 0.
Proof.
  set (bound := Rabs (GameObjects.vx o) + Rabs (GameObjects.vy o) + 1).
  pose proof (Rabs_pos (GameObjects.vx o)) as Hvx.
  pose proof (Rabs_pos (GameObjects.vy o)) as Hvy.
  assert (Hbound : 0 < bound) by (unfold bound; lra).
  destruct (pow_lt_1_zero 0.95 ltac:(rewrite Rabs_pos_eq; lra)
              (0.01 / bound)
              ltac:(apply Rdiv_lt_0_compat; lra)) as [N HN].
  exists (S N). intros n Hn. destruct n as [|n]; [lia|].
  assert (Hsmall : 0.95 ^ n * bound < 0.01).
  { specialize (HN n ltac:(lia)).
    rewrite Rabs_pos_eq in HN by (apply pow_le; lra).
    apply (Rmult_lt_compat_r bound) in HN; [|exact Hbound].
    unfold Rdiv in HN. rewrite Rmult_assoc, Rinv_l in HN by lra. lra. }
  assert (Hpow : 0 <= 0.95 ^ n) by (apply pow_le; lra).
  change (Nat.iter (S n) ?f o) with (f (Nat.iter n f o)). cbv beta.
  destruct (updates_velocity worldWidth worldHeight n o) as [Hx Hy].
  destruct (update_velocity
              (Nat.iter n (fun obj => GameObjects.update obj worldWidth
                                                         worldHeight) o)
              worldWidth worldHeight) as [[Hx1 Hx2] [Hy1 Hy2]].
  unfold bound in Hsmall.
  split.
  - destruct Hx2 as [H0 | Hbig]; [exact H0 | nra].
  - destruct Hy2 as [H0 | Hbig]; [exact H0 | nra].
Qed.

Lemma with_velocity_same (o : GameObjects.GameObject) :
  GameObjects.with_velocity o (GameObjects.vx o) (GameObjects.vy o) = o.
Proof. destruct o. reflexivity. Qed.

(** X18.  An object of five sixths of the size of the player or more feels no
    pull: [applyGravity] leaves it as it is (its speed being within the
    cap), although [canCollect] lets the player collect objects up to 95%
    of its size. *)
Theorem applyGravity_spares_large_objects (o : GameObjects.GameObject)
  (targetX targetY strength playerSize worldWidth worldHeight : R) :
  0 < playerSize ->
  playerSize * 5 <= GameObjects.size o * 6 ->
  GameObjects.speed o <= 15 ->
  GameObjects.applyGravity o targetX targetY strength playerSize
                           worldWidth worldHeight = o.
Proof.
  intros Hps Hsize Hspeed. unfold GameObjects.applyGravity.
  destruct (_ <? 1); [reflexivity|].
  destruct (_ >? _); [reflexivity|].
  assert (Hratio : 1 - GameObjects.size o / playerSize * 1.2 <= 0).
  { assert (H : 1 <= GameObjects.size o / playerSize * 1.2).
    { apply (Rmult_le_reg_r playerSize); [exact Hps|].
      replace (GameObjects.size o / playerSize * 1.2 * playerSize)
        with (GameObjects.size o * 1.2) by (field; lra).
      lra. }
    lra. }
  rewrite (Rmax_left 0) by exact Hratio.
  match goal with
  | |- context [GameObjects.vx o + ?n * (?s * ?m * 0 * ?d)] =>
      replace (GameObjects.vx o + n * (s * m * 0 * d))
        with (GameObjects.vx o) by ring
  end.
  match goal with
  | |- context [GameObjects.vy o + ?n * (?s * ?m * 0 * ?d)] =>
      replace (GameObjects.vy o + n * (s * m * 0 * d))
        with (GameObjects.vy o) by ring
  end.
  unfold GameObjects.speed in Hspeed.
  destruct (_ >? 15) eqn:E; js_cmp; [lra|]. apply with_velocity_same.
Qed.

Lemma applyGravity_spares_large_objects_witness :
  GameObjects.applyGravity
    (GameObjects.new_GameObject 0 0.5 0.5 0.5 0.5 10 0 11 Examples.seedling)
    0 0 15 12 Biomes.WORLD_WIDTH Biomes.WORLD_HEIGHT
  = GameObjects.new_GameObject 0 0.5 0.5 0.5 0.5 10 0 11 Examples.seedling.
Proof.
  apply applyGravity_spares_large_objects.
  - lra.
  - simpl. lra.
  - unfold GameObjects.speed. simpl.
    replace (0 * 0 + 0 * 0) with 0 by ring. rewrite sqrt_0. lra.
Defined.

Transparent Players.update.

(** ** The player *)

Lemma clamped_speed (a b m : R) :
  0 <= m ->
  sqrt ((if sqrt (a * a + b * b) >? m
         then a / sqrt (a * a + b * b) * m else a)
        * (if sqrt (a * a + b * b) >? m
           then a / sqrt (a * a + b * b) * m else a)
        + (if sqrt (a * a + b * b) >? m
           then b / sqrt (a * a + b * b) * m else b)
          * (if sqrt (a * a + b * b) >? m
             then b / sqrt (a * a + b * b) * m else b))
  <= m.
Proof.
  intros Hm. destruct (_ >? m) eqn:E; js_cmp.
  - rewrite (rescaled_speed a b m Hm ltac:(lra)). apply Rle_refl.
  - exact E.
Qed.

(** X19.  After [Player.update], as the game calls it, the speed of a player
    of at least the starting size is within a thousandth of
    [BASE_MAX_SPEED * sqrt(size / 12)] times the terrain multiplier of the
    biome the player stands on, so within a thousandth of
    [BASE_MAX_SPEED * sqrt(size / 12)], whatever the input and the velocity
    before.  (The code scales a faster velocity down to the bound; the
    thousandth leaves room for the rounding of that division and
    multiplication.) *)
Theorem player_speed_bound (p : Players.Player) (input : Players.Input)
  (worldWidth worldHeight : R) (w : Worlds.World) :
  Sketch.STARTING_SIZE <= Players.size p ->
  sqrt (Players.vx (Players.update p input worldWidth worldHeight (Some w))
        * Players.vx (Players.update p input worldWidth worldHeight (Some w))
        + Players.vy (Players.update p input worldWidth worldHeight (Some w))
          * Players.vy (Players.update p input worldWidth worldHeight (Some w)))
  <= 1.001 * (Players.speedCap p
              * Players.terrainSpeedMultiplier
                  (Players.update p input worldWidth worldHeight (Some w)))
  /\ sqrt (Players.vx (Players.update p input worldWidth worldHeight (Some w))
           * Players.vx (Players.update p input worldWidth worldHeight (Some w))
           + Players.vy (Players.update p input worldWidth worldHeight (Some w))
             * Players.vy (Players.update p input worldWidth worldHeight
                             (Some w)))
     <= 1.001 * Players.speedCap p.
Proof.
  intros Hmin. unfold Sketch.STARTING_SIZE in Hmin.
  assert (Hsize : 0 < Players.size p) by lra.
  unfold Players.update, Players.speedCap. simpl.
  pose proof (getTerrainSpeedMultiplier_range
                (Worlds.getBiomeAt w (Players.x p) (Players.y p))
                (Players.size p) Hsize) as Hterrain.
  set (terrain := Biomes.getTerrainSpeedMultiplier _ _) in *.
  pose proof (sqrt_pos (Players.size p / 12)) as Hscale.
  set (scale := sqrt (Players.size p / 12)) in *.
  assert (Hmax : 0 <= Players.BASE_MAX_SPEED * scale * terrain).
  { unfold Players.BASE_MAX_SPEED. apply Rmult_le_pos; [|lra].
    apply Rmult_le_pos; lra. }
  match goal with
  | |- sqrt ?v <= _ /\ _ =>
      assert (Hclamped : sqrt v <= Players.BASE_MAX_SPEED * scale * terrain)
        by (apply clamped_speed; exact Hmax);
      set (speed' := sqrt v) in *; clearbody speed'
  end.
  unfold Players.BASE_MAX_SPEED in *. split; nra.
Qed.

Lemma player_speed_bound_witness :
  sqrt (Players.vx (Players.update Examples.startingPlayer Examples.pressRight
                      Biomes.WORLD_WIDTH Biomes.WORLD_HEIGHT
                      (Some Examples.bareWorld))
        * Players.vx (Players.update Examples.startingPlayer Examples.pressRight
                        Biomes.WORLD_WIDTH Biomes.WORLD_HEIGHT
                        (Some Examples.bareWorld))
        + Players.vy (Players.update Examples.startingPlayer Examples.pressRight
                        Biomes.WORLD_WIDTH Biomes.WORLD_HEIGHT
                        (Some Examples.bareWorld))
          * Players.vy (Players.update Examples.startingPlayer
                          Examples.pressRight
                          Biomes.WORLD_WIDTH Biomes.WORLD_HEIGHT
                          (Some Examples.bareWorld)))
  <= 1.001 * Players.speedCap Examples.startingPlayer.
Proof.
  apply (player_speed_bound Examples.startingPlayer Examples.pressRight
           Biomes.WORLD_WIDTH Biomes.WORLD_HEIGHT Examples.bareWorld).
  unfold Sketch.STARTING_SIZE. simpl. lra.
Defined.

(** X20.  [bounceFrom] sends the player straight away from the object, the short
    way round the torus, at a speed of [3 * sqrt(size / 12)] whatever the
    speed before; the position and the size stay.  A player exactly on the
    object is left as it is. *)
Theorem bounceFrom_knockback (p : Players.Player)
  (objX objY worldWidth worldHeight : R) :
  Players.x (Players.bounceFrom p objX objY worldWidth worldHeight)
  = Players.x p
  /\ Players.y (Players.bounceFrom p objX objY worldWidth worldHeight)
     = Players.y p
  /\ Players.size (Players.bounceFrom p objX objY worldWidth worldHeight)
     = Players.size p
  /\ (GameObjects.shortest (Players.x p - objX) worldWidth = 0 ->
      GameObjects.shortest (Players.y p - objY) worldHeight = 0 ->
      Players.bounceFrom p objX objY worldWidth worldHeight = p)
  /\ (GameObjects.shortest (Players.x p - objX) worldWidth <> 0
      \/ GameObjects.shortest (Players.y p - objY) worldHeight <> 0 ->
      sqrt (Players.vx (Players.bounceFrom p objX objY worldWidth worldHeight)
            * Players.vx (Players.bounceFrom p objX objY worldWidth worldHeight)
            + Players.vy (Players.bounceFrom p objX objY worldWidth worldHeight)
              * Players.vy (Players.bounceFrom p objX objY worldWidth
                                               worldHeight))
      = 3 * sqrt (Players.size p / 12)
      /\ 0 <= Players.vx (Players.bounceFrom p objX objY worldWidth worldHeight)
              * GameObjects.shortest (Players.x p - objX) worldWidth
      /\ 0 <= Players.vy (Players.bounceFrom p objX objY worldWidth worldHeight)
              * GameObjects.shortest (Players.y p - objY) worldHeight
      /\ Players.vx (Players.bounceFrom p objX objY worldWidth worldHeight)
         * GameObjects.shortest (Players.y p - objY) worldHeight
         = Players.vy (Players.bounceFrom p objX objY worldWidth worldHeight)
           * GameObjects.shortest (Players.x p - objX) worldWidth).
Proof.
  unfold Players.bounceFrom.
  set (dx := GameObjects.shortest (Players.x p - objX) worldWidth).
  set (dy := GameObjects.shortest (Players.y p - objY) worldHeight).
  set (dist := sqrt (dx * dx + dy * dy)).
  pose proof (sqrt_pos (Players.size p / 12)) as Hscale.
  set (scale := sqrt (Players.size p / 12)) in *.
  assert (Hdist : dx <> 0 \/ dy <> 0 -> 0 < dist).
  { intros Hne. unfold dist. apply sqrt_lt_R0. destruct Hne; nra. }
  assert (Hzero : dx = 0 -> dy = 0 -> dist = 0).
  { intros -> ->. unfold dist. replace (0 * 0 + 0 * 0) with 0 by ring.
    apply sqrt_0. }
  destruct (dist >? 0) eqn:E; js_cmp; simpl.
  - split; [reflexivity|]. split; [reflexivity|]. split; [reflexivity|].
    split; [intros H1 H2; specialize (Hzero H1 H2); lra|].
    intros _. split; [|split; [|split]].
    + replace (dx / dist * (3 * scale) * (dx / dist * (3 * scale))
               + dy / dist * (3 * scale) * (dy / dist * (3 * scale)))
        with ((dx / dist * (3 * scale)) * (dx / dist * (3 * scale))
              + (dy / dist * (3 * scale)) * (dy / dist * (3 * scale))) by ring.
      apply (rescaled_speed dx dy (3 * scale)); [lra | exact E].
    + assert (Hinv : 0 < / dist) by (apply Rinv_0_lt_compat; lra).
      replace (dx / dist * (3 * scale) * dx)
        with ((dx * dx) * (/ dist * (3 * scale))) by (field; lra).
      apply Rmult_le_pos; [nra|]. apply Rmult_le_pos; lra.
    + assert (Hinv : 0 < / dist) by (apply Rinv_0_lt_compat; lra).
      replace (dy / dist * (3 * scale) * dy)
        with ((dy * dy) * (/ dist * (3 * scale))) by (field; lra).
      apply Rmult_le_pos; [nra|]. apply Rmult_le_pos; lra.
    + field. lra.
  - split; [reflexivity|]. split; [reflexivity|]. split; [reflexivity|].
    split; [intros _ _; reflexivity|].
    intros Hne. specialize (Hdist Hne). lra.
Qed.

Opaque Players.update.

(** ** Distances on the torus *)

Lemma shortest_square (d dim : R) :
  GameObjects.shortest d dim * GameObjects.shortest d dim
  = (if Rabs d >? dim / 2 then dim - Rabs d else Rabs d)
    * (if Rabs d >? dim / 2 then dim - Rabs d else Rabs d).
Proof.
  unfold GameObjects.shortest.
  destruct (Rabs d >? dim / 2).
  - destruct (d >? 0) eqn:E; js_cmp.
    + rewrite Rabs_pos_eq by lra. ring.
    + rewrite Rabs_left1 by lra. ring.
  - unfold Rabs. destruct (Rcase_abs d); ring.
Qed.

(** X21.  The three computations of the distance on the torus agree: the distance
    [collidesWith] compares with the sum of the radii and the distance
    [applyGravity] starts from are the distance [getWrappedDistance] gives,
    for the dimensions of the world. *)
Theorem wrapped_distances_agree (p : Players.Player)
  (o : GameObjects.GameObject) :
  Players.collidesWith p o Biomes.WORLD_WIDTH Biomes.WORLD_HEIGHT
  = (Sketch.getWrappedDistance (Players.x p) (Players.y p)
                               (GameObjects.x o) (GameObjects.y o)
     <? Players.radius p + GameObjects.radius o)
  /\ GameObjects.gravityDist o (Players.x p) (Players.y p)
                             Biomes.WORLD_WIDTH Biomes.WORLD_HEIGHT
     = Sketch.getWrappedDistance (Players.x p) (Players.y p)
                                 (GameObjects.x o) (GameObjects.y o).
Proof.
  unfold Players.collidesWith, GameObjects.gravityDist,
    Sketch.getWrappedDistance.
  rewrite !shortest_square. split; reflexivity.
Qed.

Lemma wrapped_component (d dim : R) :
  Rabs d <= dim ->
  0 <= (if Rabs d >? dim / 2 then dim - Rabs d else Rabs d) <= Rabs d
  /\ (if Rabs d >? dim / 2 then dim - Rabs d else Rabs d) <= dim / 2.
Proof.
  intros Hd. pose proof (Rabs_pos d) as H0.
  destruct (Rabs d >? dim / 2) eqn:E; js_cmp; lra.
Qed.

Lemma norm_monotone (a b a' b' : R) :
  0 <= a <= a' -> 0 <= b <= b' ->
  sqrt (a * a + b * b) <= sqrt (a' * a' + b' * b').
Proof. intros Ha Hb. apply sqrt_le_1_alt. nra. Qed.

(** X22.  [getWrappedDistance] is symmetric and, for two points no farther apart
    than one world dimension along each axis (so for any two points inside
    the world), it is at most the straight distance and at most half the
    diagonal of the world. *)
Theorem getWrappedDistance_metric (x1 y1 x2 y2 : R) :
  Rabs (x1 - x2) <= Biomes.WORLD_WIDTH ->
  Rabs (y1 - y2) <= Biomes.WORLD_HEIGHT ->
  Sketch.getWrappedDistance x1 y1 x2 y2 = Sketch.getWrappedDistance x2 y2 x1 y1
  /\ 0 <= Sketch.getWrappedDistance x1 y1 x2 y2
  /\ Sketch.getWrappedDistance x1 y1 x2 y2
     <= sqrt ((x1 - x2) * (x1 - x2) + (y1 - y2) * (y1 - y2))
  /\ Sketch.getWrappedDistance x1 y1 x2 y2
     <= sqrt (Biomes.WORLD_WIDTH / 2 * (Biomes.WORLD_WIDTH / 2)
              + Biomes.WORLD_HEIGHT / 2 * (Biomes.WORLD_HEIGHT / 2)).
Proof.
  intros HX HY. unfold Sketch.getWrappedDistance.
  split; [|split; [apply sqrt_pos|]].
  - rewrite (Rabs_minus_sym x2 x1), (Rabs_minus_sym y2 y1). reflexivity.
  - destruct (wrapped_component (x1 - x2) Biomes.WORLD_WIDTH HX) as [Hx1 Hx2].
    destruct (wrapped_component (y1 - y2) Biomes.WORLD_HEIGHT HY) as [Hy1 Hy2].
    split.
    + replace ((x1 - x2) * (x1 - x2) + (y1 - y2) * (y1 - y2))
        with (Rabs (x1 - x2) * Rabs (x1 - x2)
              + Rabs (y1 - y2) * Rabs (y1 - y2)).
      * apply norm_monotone; assumption.
      * pose proof (Rsqr_abs (x1 - x2)) as H1.
        pose proof (Rsqr_abs (y1 - y2)) as H2. unfold Rsqr in H1, H2. lra.
    + apply norm_monotone; lra.
Qed.

Lemma getWrappedDistance_metric_witness :
  Sketch.getWrappedDistance 10 20 24000 18000
  <= sqrt ((10 - 24000) * (10 - 24000) + (20 - 18000) * (20 - 18000)).
Proof.
  apply (getWrappedDistance_metric 10 20 24000 18000).
  - unfold Biomes.WORLD_WIDTH. apply Rabs_le. lra.
  - unfold Biomes.WORLD_HEIGHT. apply Rabs_le. lra.
Defined.

(** ** Weights *)

Lemma half_power_range (y : R) : 0 < y -> 0 < JS.Math_pow 0.5 y < 1.
Proof.
  intros Hy. unfold JS.Math_pow.
  destruct (Req_dec_T 0.5 0) as [H | _]; [lra|]. unfold Rpower. split.
  - apply exp_pos.
  - rewrite <- exp_0. apply exp_increasing.
    assert (Hln : ln 0.5 < 0).
    { rewrite <- ln_1. apply ln_increasing; lra. }
    nra.
Qed.

(** X23.  The weight [weightedRandomSelect] gives an entry, for a player of
    positive size: an entry the player can collect keeps its weight or gets
    up to five times as much, the more the smaller it is; an entry too large
    to collect loses weight but keeps at least one hundredth of it. *)
Theorem adjustWeight_range (playerSize : R) (item : Biomes.ObjDef) :
  0 < playerSize ->
  0 <= Biomes.minSize item + Biomes.maxSize item ->
  0 <= JS.or_default (Biomes.weight item) 1 ->
  ((Biomes.minSize item + Biomes.maxSize item) / 2 <= playerSize * 0.95 ->
   JS.or_default (Biomes.weight item) 1
   <= Sketch.adjustWeight (Some playerSize) item
   <= 5 * JS.or_default (Biomes.weight item) 1)
  /\ (playerSize * 0.95 < (Biomes.minSize item + Biomes.maxSize item) / 2 ->
      0.01 * JS.or_default (Biomes.weight item) 1
      <= Sketch.adjustWeight (Some playerSize) item
      <= JS.or_default (Biomes.weight item) 1).
Proof.
  intros Hps Hsizes Hw. unfold Sketch.adjustWeight.
  set (w := JS.or_default (Biomes.weight item) 1) in *.
  set (avg := (Biomes.minSize item + Biomes.maxSize item) / 2).
  assert (Havg : 0 <= avg) by (unfold avg; lra).
  assert (Hth : 0 < playerSize * 0.95) by lra.
  set (th := playerSize * 0.95) in *.
  split; intros Hcase.
  - destruct (avg <=? th) eqn:E; js_cmp; [|lra].
    assert (Hratio : 0 <= avg / th <= 1).
    { split.
      - apply Rmult_le_pos; [lra|]. left. now apply Rinv_0_lt_compat.
      - apply (Rmult_le_reg_r th); [exact Hth|]. unfold Rdiv.
        rewrite Rmult_assoc, Rinv_l by lra. lra. }
    set (ratio := avg / th) in *. nra.
  - destruct (avg <=? th) eqn:E; js_cmp; [lra|].
    assert (Hratio : 1 < avg / th).
    { apply (Rmult_lt_reg_r th); [exact Hth|]. unfold Rdiv.
      rewrite Rmult_assoc, Rinv_l by lra. lra. }
    pose proof (half_power_range (avg / th - 1) ltac:(lra)) as Hpow.
    set (pw := JS.Math_pow 0.5 (avg / th - 1)) in *.
    assert (Hred : 0 <= Rmin 0.99 (1 - pw) <= 0.99).
    { split; [apply Rmin_glb; lra | apply Rmin_l]. }
    set (red := Rmin 0.99 (1 - pw)) in *. nra.
Qed.

Lemma adjustWeight_range_witness :
  JS.or_default (Biomes.weight Examples.seedling) 1
  <= Sketch.adjustWeight (Some 12) Examples.seedling
  <= 5 * JS.or_default (Biomes.weight Examples.seedling) 1.
Proof.
  assert (Hweight : 0 <= JS.or_default (Biomes.weight Examples.seedling) 1).
  { unfold JS.or_default. simpl. destruct (Req_dec_T 1 0); lra. }
  destruct (adjustWeight_range 12 Examples.seedling ltac:(lra)
              ltac:(simpl; lra) Hweight) as [Hcollectible _].
  apply Hcollectible. simpl. lra.
Defined.

(** ** Collisions *)

Lemma bounceFrom_frame (p : Players.Player)
  (objX objY worldWidth worldHeight : R) :
  Players.x (Players.bounceFrom p objX objY worldWidth worldHeight)
  = Players.x p
  /\ Players.y (Players.bounceFrom p objX objY worldWidth worldHeight)
     = Players.y p
  /\ Players.size (Players.bounceFrom p objX objY worldWidth worldHeight)
     = Players.size p.
Proof.
  unfold Players.bounceFrom. destruct (_ >? 0); simpl; repeat split.
Qed.

Lemma collisionLoop_accounts (revObjs : list GameObjects.GameObject) :
  forall (p : Players.Player) (cc : nat) (gs : Sketch.STATE),
    let '(kept, p', cc', gs') := Sketch.collisionLoop revObjs p cc gs in
    (List.length kept + (cc' - cc) = List.length revObjs)%nat
    /\ (cc <= cc')%nat
    /\ Players.size p + 0.1 * INR (cc' - cc) <= Players.size p'
    /\ Players.x p' = Players.x p /\ Players.y p' = Players.y p
    /\ (forall o, In o kept -> In o revObjs)
    /\ (gs' = gs \/ gs' = Sketch.PLANET_CONSUMED).
Proof.
  induction revObjs as [|obj rest IH]; intros p cc gs.
  - simpl. rewrite Nat.sub_diag. simpl.
    split; [lia|]. split; [lia|]. split; [lra|]. split; [reflexivity|].
    split; [reflexivity|]. split; [intros o [] | now left].
  - simpl.
    assert (Hrest : forall p0 : Players.Player,
              Players.size p0 = Players.size p ->
              Players.x p0 = Players.x p -> Players.y p0 = Players.y p ->
              let '(kept, p', cc', gs') :=
                (let '(kept, p1, cc1, gs1) :=
                   Sketch.collisionLoop rest p0 cc gs in
                 (kept ++ [obj], p1, cc1, gs1)) in
              (List.length kept + (cc' - cc)
               = S (List.length rest))%nat
              /\ (cc <= cc')%nat
              /\ Players.size p + 0.1 * INR (cc' - cc) <= Players.size p'
              /\ Players.x p' = Players.x p /\ Players.y p' = Players.y p
              /\ (forall o, In o kept -> obj = o \/ In o rest)
              /\ (gs' = gs \/ gs' = Sketch.PLANET_CONSUMED)).
    { intros p0 Hs Hx Hy. specialize (IH p0 cc gs).
      destruct (Sketch.collisionLoop rest p0 cc gs) as [[[kept p1] cc1] gs1].
      destruct IH as (Hlen & Hcc & Hsize & Hx1 & Hy1 & Hin & Hgs).
      rewrite length_app. simpl.
      split; [lia|]. split; [lia|]. split; [rewrite <- Hs; exact Hsize|].
      split; [congruence|]. split; [congruence|]. split; [|exact Hgs].
      intros o Ho. apply in_app_or in Ho. destruct Ho as [Ho | [-> | []]];
        [right; now apply Hin | now left]. }
    destruct (GameObjects.collected obj); [apply Hrest; reflexivity|].
    destruct (Players.collidesWith p obj _ _); [|apply Hrest; reflexivity].
    destruct (Players.canCollect p obj).
    + set (amount := Sketch.calculateGrowthAmount (GameObjects.size obj)
                                                  (Players.size p)).
      assert (Hamount : 0.1 <= amount) by apply Rmax_l.
      match goal with
      | |- context [Sketch.collisionLoop rest ?p0 ?c0 ?g0] =>
          specialize (IH p0 c0 g0);
          destruct (Sketch.collisionLoop rest p0 c0 g0)
            as [[[kept p1] cc1] gs1]
      end.
      destruct IH as (Hlen & Hcc & Hsize & Hx1 & Hy1 & Hin & Hgs).
      simpl in Hsize, Hx1, Hy1.
      assert (Hcount : (cc1 - cc = S (cc1 - S cc))%nat) by lia.
      split; [lia|]. split; [lia|].
      split; [rewrite Hcount, S_INR; lra|].
      split; [exact Hx1|]. split; [exact Hy1|].
      split; [intros o Ho; right; now apply Hin|].
      destruct Hgs as [-> | ->]; [|now right].
      destruct (_ >=? _); [now right | now left].
    + destruct (bounceFrom_frame p (GameObjects.x obj) (GameObjects.y obj)
                  Biomes.WORLD_WIDTH Biomes.WORLD_HEIGHT) as (Hx & Hy & Hs).
      now apply Hrest.
Qed.

(** X24.  The collision loop only removes what the player collects: the objects
    left and the objects counted as collected add up to the objects before,
    every object left was there before, every collected object grows the
    player by at least 0.1, and neither collecting nor bouncing moves the
    player. *)
Theorem collisions_conserve (revObjs : list GameObjects.GameObject)
  (p : Players.Player) (cc : nat) (gs : Sketch.STATE) :
  let '(kept, p', cc', gs') := Sketch.collisionLoop revObjs p cc gs in
  (List.length kept + (cc' - cc) = List.length revObjs)%nat
  /\ (cc <= cc')%nat
  /\ Players.size p + 0.1 * INR (cc' - cc) <= Players.size p'
  /\ Players.x p' = Players.x p /\ Players.y p' = Players.y p
  /\ (forall o, In o kept -> In o revObjs)
  /\ (gs' = gs \/ gs' = Sketch.PLANET_CONSUMED).
Proof. exact (collisionLoop_accounts revObjs p cc gs). Qed.

(** ** The cap *)

(** X25.  Enforcing the cap never invents or duplicates an object: the array is
    split into the objects dropped and the objects kept, and as many are
    kept as the cap allows. *)
Theorem enforceMaxObjects_drops_only
  (playerX playerY playerSize keepRadius : R)
  (objs : list GameObjects.GameObject) :
  exists dropped : list GameObjects.GameObject,
    Permutation objs
      (dropped ++ Sketch.enforceMaxObjects playerX playerY playerSize
                                           keepRadius objs)
    /\ List.length (Sketch.enforceMaxObjects playerX playerY playerSize
                                             keepRadius objs)
       = Nat.min (List.length objs) Sketch.MAX_OBJECTS.
Proof.
  unfold Sketch.enforceMaxObjects.
  destruct (Nat.ltb_spec Sketch.MAX_OBJECTS (List.length objs)) as [Hover | Hin].
  - set (sorted := JS.Array_sort _ objs).
    assert (Hperm : Permutation objs sorted)
      by (apply Permutation_sym, Array_sort_perm).
    assert (Hlen : List.length sorted = List.length objs)
      by apply Array_sort_length.
    exists (firstn (List.length sorted - Sketch.MAX_OBJECTS) sorted). split.
    + rewrite firstn_skipn. exact Hperm.
    + rewrite length_skipn, Hlen. lia.
  - exists []. split; [apply Permutation_refl | lia].
Qed.

(** ** What a season transition adds *)








(** ** The despawn radius *)

Transparent GameObjects.wrap.

(** Wrapping moves a coordinate by a whole number of world dimensions. *)
Lemma wrap_offset (v dim : R) :
  exists k : Z, GameObjects.wrap v dim = v - IZR k * dim.
Proof.
  unfold GameObjects.wrap, JS.rem.
  set (k1 := JS.trunc (v / dim)).
  set (k2 := JS.trunc ((v - dim * IZR k1 + dim) / dim)).
  exists (k1 + k2 - 1)%Z. rewrite minus_IZR, plus_IZR. ring.
Qed.

Opaque GameObjects.wrap.

(** Along one axis, the distance on the torus between a wrapped coordinate
    and a coordinate inside the world is at most their straight distance
    before wrapping. *)
Lemma torus_component (t b dim : R) :
  0 < dim -> 0 <= b < dim ->
  0 <= (if Rabs (GameObjects.wrap t dim - b) >? dim / 2
        then dim - Rabs (GameObjects.wrap t dim - b)
        else Rabs (GameObjects.wrap t dim - b))
    <= Rabs (t - b).
Proof.
  intros Hdim Hb. pose proof (wrap_range t dim Hdim) as Ha.
  destruct (wrap_offset t dim) as [k Hk].
  set (a := GameObjects.wrap t dim) in *.
  assert (Hmin : forall w,
            w = (if Rabs (a - b) >? dim / 2 then dim - Rabs (a - b)
                 else Rabs (a - b)) ->
            0 <= w /\ w <= Rabs (a - b) /\ w <= dim - Rabs (a - b)).
  { intros w ->. assert (Hab : Rabs (a - b) <= dim) by (apply Rabs_le; lra).
    pose proof (Rabs_pos (a - b)).
    destruct (Rabs (a - b) >? dim / 2) eqn:E; js_cmp; lra. }
  destruct (Hmin _ eq_refl) as (H0 & H1 & H2).
  split; [exact H0|].
  set (w := if Rabs (a - b) >? dim / 2 then dim - Rabs (a - b)
            else Rabs (a - b)) in *.
  clearbody w. clear Hmin.
  assert (Hcases : (k = 0 \/ 1 <= k \/ k <= -1)%Z) by lia.
  destruct Hcases as [-> | [Hpos | Hneg]].
  - replace (t - b) with (a - b) by (rewrite Hk; simpl; ring). exact H1.
  - apply IZR_le in Hpos.
    assert (Hkd : dim <= IZR k * dim) by nra.
    set (kd := IZR k * dim) in *. clearbody kd.
    unfold Rabs in *. destruct (Rcase_abs (a - b)), (Rcase_abs (t - b)); lra.
  - apply IZR_le in Hneg.
    assert (Hkd : IZR k * dim <= - dim) by nra.
    set (kd := IZR k * dim) in *. clearbody kd.
    unfold Rabs in *. destruct (Rcase_abs (a - b)), (Rcase_abs (t - b)); lra.
Qed.

Lemma wrapped_spawn_distance (px py angle d : R) :
  0 <= px < Biomes.WORLD_WIDTH -> 0 <= py < Biomes.WORLD_HEIGHT -> 0 <= d ->
  Sketch.getWrappedDistance
    (GameObjects.wrap (px + cos angle * d) Biomes.WORLD_WIDTH)
    (GameObjects.wrap (py + sin angle * d) Biomes.WORLD_HEIGHT) px py
  <= d.
Proof.
  intros Hx Hy Hd. unfold Sketch.getWrappedDistance.
  pose proof (torus_component (px + cos angle * d) px Biomes.WORLD_WIDTH
                ltac:(lra) Hx) as Hwx.
  pose proof (torus_component (py + sin angle * d) py Biomes.WORLD_HEIGHT
                ltac:(lra) Hy) as Hwy.
  replace (px + cos angle * d - px) with (cos angle * d) in Hwx by ring.
  replace (py + sin angle * d - py) with (sin angle * d) in Hwy by ring.
  eapply Rle_trans; [apply norm_monotone; [exact Hwx | exact Hwy]|].
  apply norm_le_of_squares; [exact Hd|].
  pose proof (Rsqr_abs (cos angle * d)) as H1.
  pose proof (Rsqr_abs (sin angle * d)) as H2. unfold Rsqr in H1, H2.
  rewrite <- H1, <- H2. apply polar_offset_within. lra.
Qed.

Lemma edgeSpawnLoop_near (w : Worlds.World) (rnd : nat -> R)
  (season : string) (playerSize playerX playerY spawnRadius : R) (n : nat) :
  0 <= playerX < Biomes.WORLD_WIDTH -> 0 <= playerY < Biomes.WORLD_HEIGHT ->
  0 <= spawnRadius ->
  forall (rng : Noise.SeededRandom) (a : Sketch.Alloc),
    Forall (fun o => Sketch.getWrappedDistance (GameObjects.x o)
                       (GameObjects.y o) playerX playerY
                     <= spawnRadius * 1.2)
           (fst (Sketch.edgeSpawnLoop w rnd season playerSize playerX playerY
                   spawnRadius n rng a)).
Proof.
  intros Hx Hy Hr. induction n as [|n IH]; intros rng a; simpl; [constructor|].
  destruct (Noise.next rng) as [u1 rng1].
  pose proof (next_range rng1) as Hu2.
  destruct (Noise.next rng1) as [u2 rng2]. simpl in Hu2.
  destruct (_ =? 0)%nat; [apply IH|].
  destruct (_ =? 0)%nat; [apply IH|].
  destruct (Noise.next rng2) as [u3 rng3].
  destruct (u3 >? _); [apply IH|].
  destruct (Sketch.weightedRandomSelect _ rng3 _) as [[objDef|] rng4];
    [|apply IH].
  destruct (Noise.next rng4) as [u4 rng5].
  match goal with
  | |- context [Sketch.create ?r ?a0 ?x0 ?y0 ?s0 ?t0] =>
      pose proof (create_fields r a0 x0 y0 s0 t0) as (Hox & Hoy & _);
      destruct (Sketch.create r a0 x0 y0 s0 t0) as [obj a1]
  end.
  simpl in Hox, Hoy. specialize (IH rng5 a1).
  destruct (Sketch.edgeSpawnLoop w rnd season playerSize playerX playerY
              spawnRadius n rng5 a1) as [more a2].
  simpl in *. constructor; [|exact IH]. rewrite Hox, Hoy.
  eapply Rle_trans; [apply wrapped_spawn_distance; try assumption; nra|].
  nra.
Qed.

Lemma enforceMaxObjects_split (playerX playerY playerSize keepRadius : R)
  (objs : list GameObjects.GameObject) :
  exists dropped : list GameObjects.GameObject,
    Permutation objs
      (dropped ++ Sketch.enforceMaxObjects playerX playerY playerSize
                                           keepRadius objs).
Proof.
  unfold Sketch.enforceMaxObjects.
  destruct (_ <? _)%nat.
  - set (sorted := JS.Array_sort _ objs).
    exists (firstn (List.length sorted - Sketch.MAX_OBJECTS) sorted).
    rewrite firstn_skipn. apply Permutation_sym, Array_sort_perm.
  - exists []. apply Permutation_refl.
Qed.

Transparent Sketch.updateDistanceBasedSpawning.

(** X27.  A pass of the distance management leaves no object beyond the despawn
    radius, permanent or not.  Either the call leaves the array as it is (it
    only counts the frame, or the player has not moved far enough), or
    every object of the array afterwards, kept or new, is nearer to the
    player than [BASE_DESPAWN_RADIUS / zoom]; and the latter is the case
    whenever the pass is due ([SPAWN_CHECK_INTERVAL] calls have been
    counted) and the player has moved at least [50 / zoom] since the last
    pass. *)
Theorem distance_pass_keeps_objects_near (st : Sketch.State)
  (p : Players.Player) :
  Sketch.player st = Some p ->
  0 < Cameras.zoom (Sketch.camera st) ->
  Players.inWorld p Biomes.WORLD_WIDTH Biomes.WORLD_HEIGHT ->
  (Sketch.objects (Sketch.updateDistanceBasedSpawning st) = Sketch.objects st
   \/ Forall (fun o => Sketch.getWrappedDistance (GameObjects.x o)
                         (GameObjects.y o) (Players.x p) (Players.y p)
                       < Sketch.BASE_DESPAWN_RADIUS
                         * (1 / Cameras.zoom (Sketch.camera st)))
             (Sketch.objects (Sketch.updateDistanceBasedSpawning st)))
  /\ ((Sketch.SPAWN_CHECK_INTERVAL <= S (Sketch.spawnCheckCounter st))%nat ->
      50 * (1 / Cameras.zoom (Sketch.camera st))
      <= Sketch.getWrappedDistance (Players.x p) (Players.y p)
           (Sketch.lastPlayerX st) (Sketch.lastPlayerY st) ->
      Forall (fun o => Sketch.getWrappedDistance (GameObjects.x o)
                         (GameObjects.y o) (Players.x p) (Players.y p)
                       < Sketch.BASE_DESPAWN_RADIUS
                         * (1 / Cameras.zoom (Sketch.camera st)))
             (Sketch.objects (Sketch.updateDistanceBasedSpawning st))).
Proof.
  intros Hplayer Hzoom [Hpx Hpy].
  assert (Hpass :
    (Sketch.SPAWN_CHECK_INTERVAL <= S (Sketch.spawnCheckCounter st))%nat ->
    50 * (1 / Cameras.zoom (Sketch.camera st))
    <= Sketch.getWrappedDistance (Players.x p) (Players.y p)
         (Sketch.lastPlayerX st) (Sketch.lastPlayerY st) ->
    Forall (fun o => Sketch.getWrappedDistance (GameObjects.x o)
                       (GameObjects.y o) (Players.x p) (Players.y p)
                     < Sketch.BASE_DESPAWN_RADIUS
                       * (1 / Cameras.zoom (Sketch.camera st)))
           (Sketch.objects (Sketch.updateDistanceBasedSpawning st))).
  { intros Hdue Hmoved. unfold Sketch.updateDistanceBasedSpawning.
    cbn [Sketch.spawnCheckCounter Sketch.set_spawnCheckCounter].
    destruct (Nat.ltb_spec (S (Sketch.spawnCheckCounter st))
                Sketch.SPAWN_CHECK_INTERVAL) as [Hnot | _]; [lia|].
    cbn [Sketch.player Sketch.set_spawnCheckCounter]. rewrite Hplayer.
    cbn [Sketch.objects Sketch.set_lastPlayer Sketch.set_spawnCheckCounter
         Sketch.camera Sketch.world Sketch.Math_random Sketch.alloc
         Sketch.currentSeasonIndex Sketch.frameCount Sketch.lastPlayerX
         Sketch.lastPlayerY].
    destruct (_ <? _) eqn:Estill; js_cmp; [lra|]. clear Estill.
  assert (Hscale : 0 < 1 / Cameras.zoom (Sketch.camera st)).
  { unfold Rdiv. rewrite Rmult_1_l. now apply Rinv_0_lt_compat. }
  set (zoomScale := 1 / Cameras.zoom (Sketch.camera st)) in *.
  set (near := fun obj : GameObjects.GameObject =>
                 Sketch.getWrappedDistance (GameObjects.x obj)
                   (GameObjects.y obj) (Players.x p) (Players.y p)
                 <? Sketch.BASE_DESPAWN_RADIUS * zoomScale).
  set (kept := filter near (Sketch.objects st)).
  assert (Hkept : Forall (fun o => Sketch.getWrappedDistance (GameObjects.x o)
                            (GameObjects.y o) (Players.x p) (Players.y p)
                          < Sketch.BASE_DESPAWN_RADIUS * zoomScale)
                    (Sketch.enforceMaxObjects (Players.x p) (Players.y p)
                       (Players.size p)
                       (Sketch.BASE_KEEP_RADIUS * zoomScale) kept)).
  { destruct (enforceMaxObjects_split (Players.x p) (Players.y p)
                (Players.size p) (Sketch.BASE_KEEP_RADIUS * zoomScale) kept)
      as [dropped Hperm].
    apply Forall_forall. intros o Ho.
    assert (Hin : In o kept).
    { apply (Permutation_in _ (Permutation_sym Hperm)).
      apply in_or_app. now right. }
    unfold kept in Hin. apply filter_In in Hin. destruct Hin as [_ Hnear].
    unfold near in Hnear. now apply ltb_true_iff in Hnear. }
  set (objs := Sketch.enforceMaxObjects _ _ _ _ kept) in *.
  match goal with
  | |- context [(0 <? ?c)%Z] => destruct (0 <? c)%Z
  end; [|exact Hkept].
  match goal with
  | |- context [Sketch.edgeSpawnLoop ?w ?rnd ?s ?ps ?x ?y ?sr ?n ?r ?a] =>
      pose proof (edgeSpawnLoop_near w rnd s ps x y sr n Hpx Hpy
                    ltac:(unfold Sketch.BASE_SPAWN_RADIUS; nra) r a) as Hnew;
      destruct (Sketch.edgeSpawnLoop w rnd s ps x y sr n r a)
        as [spawnedObjs a']
  end.
  simpl in Hnew |- *. apply Forall_app. split; [exact Hkept|].
  eapply Forall_impl; [|exact Hnew]. simpl. intros o Ho.
  unfold Sketch.BASE_SPAWN_RADIUS, Sketch.BASE_DESPAWN_RADIUS in *. nra. }
  split; [|exact Hpass].
  destruct (Nat.ltb_spec (S (Sketch.spawnCheckCounter st))
              Sketch.SPAWN_CHECK_INTERVAL) as [Hnot | Hdue].
  - left. unfold Sketch.updateDistanceBasedSpawning.
    cbn [Sketch.spawnCheckCounter Sketch.set_spawnCheckCounter].
    apply Nat.ltb_lt in Hnot. rewrite Hnot. reflexivity.
  - destruct (Rlt_le_dec
                (Sketch.getWrappedDistance (Players.x p) (Players.y p)
                   (Sketch.lastPlayerX st) (Sketch.lastPlayerY st))
                (50 * (1 / Cameras.zoom (Sketch.camera st)))) as [Hstill | Hmoved].
    + left. unfold Sketch.updateDistanceBasedSpawning.
      cbn [Sketch.spawnCheckCounter Sketch.set_spawnCheckCounter].
      apply Nat.ltb_ge in Hdue. rewrite Hdue.
      cbn [Sketch.player Sketch.set_spawnCheckCounter]. rewrite Hplayer.
      cbn [Sketch.objects Sketch.set_lastPlayer Sketch.set_spawnCheckCounter
         Sketch.camera Sketch.world Sketch.Math_random Sketch.alloc
         Sketch.currentSeasonIndex Sketch.frameCount Sketch.lastPlayerX
         Sketch.lastPlayerY].
      apply ltb_true_iff in Hstill. rewrite Hstill. reflexivity.
    + right. now apply Hpass.
Qed.

Opaque Sketch.updateDistanceBasedSpawning.

(** Object B of the examples is beyond the despawn radius of a player at
    (200, 200). *)
Lemma objectB_far :
  600 < Sketch.getWrappedDistance (GameObjects.x Examples.objectB)
          (GameObjects.y Examples.objectB) 200 200.
Proof.
  unfold Sketch.getWrappedDistance, Biomes.WORLD_WIDTH, Biomes.WORLD_HEIGHT. simpl.
  replace (9000 - 200) with 8800 by lra.
  rewrite (Rabs_pos_eq 8800) by lra.
  assert (E1 : (8800 >? 336 * 72 / 2) = false) by (apply gtb_false_iff; lra).
  assert (E2 : (8800 >? 262 * 72 / 2) = false) by (apply gtb_false_iff; lra).
  rewrite E1, E2.
  pose proof (sqrt_sum_squares_ge 8800 8800) as H.
  rewrite (Rabs_pos_eq 8800) in H by lra. lra.
Qed.

(** A pass that is due, after a long move of the player: every object left
    is within the despawn radius, and object B, which was beyond it, is
    gone. *)
Lemma distance_pass_keeps_objects_near_witness :
  Forall (fun o => Sketch.getWrappedDistance (GameObjects.x o)
                     (GameObjects.y o) 200 200 < 600)
         (Sketch.objects
            (Sketch.updateDistanceBasedSpawning Examples.midSummer))
  /\ ~ In Examples.objectB
         (Sketch.objects
            (Sketch.updateDistanceBasedSpawning Examples.midSummer)).
Proof.
  assert (Hnear :
    Forall (fun o => Sketch.getWrappedDistance (GameObjects.x o)
                       (GameObjects.y o) 200 200 < 600)
           (Sketch.objects
              (Sketch.updateDistanceBasedSpawning Examples.midSummer))).
  { destruct (distance_pass_keeps_objects_near Examples.midSummer
                (Players.new_Player 200 200 12)) as [_ Hpass].
    - reflexivity.
    - simpl. lra.
    - split; simpl; unfold Biomes.WORLD_WIDTH, Biomes.WORLD_HEIGHT; lra.
    - eapply Forall_impl; [|apply Hpass].
      + intros o Ho. simpl in Ho.
        unfold Sketch.BASE_DESPAWN_RADIUS in Ho. lra.
      + unfold Sketch.SPAWN_CHECK_INTERVAL. simpl. lia.
      + unfold Sketch.getWrappedDistance, Biomes.WORLD_WIDTH,
          Biomes.WORLD_HEIGHT. simpl.
        replace (200 - 0) with 200 by lra.
        rewrite (Rabs_pos_eq 200) by lra.
        assert (E1 : (200 >? 336 * 72 / 2) = false)
          by (apply gtb_false_iff; lra).
        assert (E2 : (200 >? 262 * 72 / 2) = false)
          by (apply gtb_false_iff; lra).
        rewrite E1, E2.
        pose proof (sqrt_sum_squares_ge 200 200) as H.
        rewrite (Rabs_pos_eq 200) in H by lra. lra. }
  split; [exact Hnear|].
  intros Hin. rewrite Forall_forall in Hnear.
  pose proof (Hnear _ Hin) as Hlt. pose proof objectB_far as Hfar. lra.
Defined.

(** ** The season clock *)

Transparent Sketch.updateDistanceBasedSpawning.

Lemma updateDistanceBasedSpawning_clock (st : Sketch.State) :
  Sketch.gameState (Sketch.updateDistanceBasedSpawning st) = Sketch.gameState st
  /\ Sketch.currentSeasonIndex (Sketch.updateDistanceBasedSpawning st)
     = Sketch.currentSeasonIndex st
  /\ Sketch.seasonTimer (Sketch.updateDistanceBasedSpawning st)
     = Sketch.seasonTimer st
  /\ Sketch.collectedCount (Sketch.updateDistanceBasedSpawning st)
     = Sketch.collectedCount st.
Proof.
  unfold Sketch.updateDistanceBasedSpawning.
  destruct (_ <? Sketch.SPAWN_CHECK_INTERVAL)%nat; [repeat split|].
  cbn [Sketch.player Sketch.set_spawnCheckCounter].
  destruct (Sketch.player st) as [p|]; [|repeat split].
  destruct (_ <? _); [repeat split|].
  match goal with
  | |- context [(0 <? ?c)%Z] => destruct (0 <? c)%Z
  end; [|repeat split].
  match goal with
  | |- context [Sketch.edgeSpawnLoop ?w ?rnd ?s ?ps ?x ?y ?sr ?n ?r ?a] =>
      destruct (Sketch.edgeSpawnLoop w rnd s ps x y sr n r a)
        as [spawnedObjs a']
  end.
  repeat split.
Qed.

Opaque Sketch.updateDistanceBasedSpawning.

Lemma respawnOffScreenObjects_clock (st : Sketch.State) :
  Sketch.gameState (Sketch.respawnOffScreenObjects st) = Sketch.gameState st
  /\ Sketch.currentSeasonIndex (Sketch.respawnOffScreenObjects st)
     = Sketch.currentSeasonIndex st
  /\ Sketch.seasonTimer (Sketch.respawnOffScreenObjects st)
     = Sketch.seasonTimer st.
Proof.
  unfold Sketch.respawnOffScreenObjects.
  repeat match goal with
  | |- context [Sketch.respawnPoints ?rnd ?s ?ps ?b ?m ?pts ?r ?a0] =>
      destruct (Sketch.respawnPoints rnd s ps b m pts r a0) as [[? ?] ?]
  end.
  repeat split.
Qed.

Lemma advanceSeason_clock (st : Sketch.State) :
  Sketch.currentSeasonIndex (Sketch.advanceSeason st)
  = S (Sketch.currentSeasonIndex st)
  /\ Sketch.seasonTimer (Sketch.advanceSeason st) = 0%nat
  /\ ((Sketch.TOTAL_SEASONS <= S (Sketch.currentSeasonIndex st))%nat ->
      Sketch.gameState (Sketch.advanceSeason st) = Sketch.STATE_undefined)
  /\ ((S (Sketch.currentSeasonIndex st) < Sketch.TOTAL_SEASONS)%nat ->
      Sketch.gameState (Sketch.advanceSeason st) = Sketch.gameState st).
Proof.
  destruct (Nat.le_gt_cases Sketch.TOTAL_SEASONS
              (S (Sketch.currentSeasonIndex st))) as [Hlast | Hmore].
  - assert (Heq : Sketch.advanceSeason st
                  = Sketch.set_season st (S (Sketch.currentSeasonIndex st)) 0
                      Sketch.STATE_undefined).
    { unfold Sketch.advanceSeason.
      change (Sketch.currentSeasonIndex
                (Sketch.set_season st (S (Sketch.currentSeasonIndex st)) 0
                                   (Sketch.gameState st)))
        with (S (Sketch.currentSeasonIndex st)).
      apply Nat.leb_le in Hlast. rewrite Hlast. reflexivity. }
    rewrite Heq. repeat split. intros Hlt. lia.
  - rewrite (advanceSeason_respawns st Hmore).
    destruct (respawnOffScreenObjects_clock
                (Sketch.set_season st (S (Sketch.currentSeasonIndex st)) 0
                                   (Sketch.gameState st)))
      as (Hgs & Hidx & Htimer).
    rewrite Hgs, Hidx, Htimer. repeat split. intros Hge. lia.
Qed.

(** What a frame of play does to the season clock and to the state of the
    game: the timer advances, or the season does; collisions may end the
    game by consuming the planet. *)
Lemma updateGame_clock (st : Sketch.State) (input : Players.Input)
  (p : Players.Player) :
  Sketch.player st = Some p ->
  exists st1 : Sketch.State,
    (Sketch.gameState st1 = Sketch.gameState st
     \/ Sketch.gameState st1 = Sketch.PLANET_CONSUMED)
    /\ Sketch.currentSeasonIndex st1 = Sketch.currentSeasonIndex st
    /\ Sketch.seasonTimer st1 = S (Sketch.seasonTimer st)
    /\ Sketch.updateGame st input
       = if (Sketch.SEASON_DURATION <=? S (Sketch.seasonTimer st))%nat
         then Sketch.advanceSeason st1 else st1.
Proof.
  intros Hplayer. unfold Sketch.updateGame. rewrite Hplayer.
  set (st2 := Sketch.updateDistanceBasedSpawning _).
  destruct (updateDistanceBasedSpawning_clock
              (Sketch.set_player_camera st
                 (Players.update p input Biomes.WORLD_WIDTH Biomes.WORLD_HEIGHT
                    (Some (Sketch.world st)))
                 (Cameras.follow
                    (Cameras.setTargetZoom (Sketch.camera st)
                       (Sketch.calculateZoom
                          (Players.update p input Biomes.WORLD_WIDTH
                             Biomes.WORLD_HEIGHT (Some (Sketch.world st)))))
                    (Players.x (Players.update p input Biomes.WORLD_WIDTH
                                  Biomes.WORLD_HEIGHT (Some (Sketch.world st))))
                    (Players.y (Players.update p input Biomes.WORLD_WIDTH
                                  Biomes.WORLD_HEIGHT
                                  (Some (Sketch.world st)))))))
    as (Hgs & Hidx & Htimer & _).
  fold st2 in Hgs, Hidx, Htimer.
  cbn [Sketch.gameState Sketch.currentSeasonIndex Sketch.seasonTimer
       Sketch.set_player_camera] in Hgs, Hidx, Htimer.
  match goal with
  | |- context [Sketch.collisionLoop ?l ?p0 ?c0 ?g0] =>
      pose proof (collisionLoop_accounts l p0 c0 g0) as Hloop;
      destruct (Sketch.collisionLoop l p0 c0 g0) as [[[objs p'] cc'] gs']
  end.
  destruct Hloop as (_ & _ & _ & _ & _ & _ & Hgs').
  cbn [Sketch.gameState Sketch.currentSeasonIndex Sketch.seasonTimer
       Sketch.set_collisions Sketch.set_season].
  rewrite Htimer, Hidx.
  eexists. split; [|split; [|split; [|reflexivity]]].
  - cbn [Sketch.gameState]. rewrite <- Hgs. exact Hgs'.
  - reflexivity.
  - reflexivity.
Qed.

(** X28.  The season clock: in every state the game reaches from its title
    screen, the season timer is below [SEASON_DURATION], the season index is
    at most [TOTAL_SEASONS], and it is [TOTAL_SEASONS] exactly when the state
    of the game is the value of [STATE.WIN], which [STATE] does not
    define. *)
Theorem season_clock_invariant (st0 st : Sketch.State) :
  Sketch.gameState st0 = Sketch.TITLE ->
  Sketch.currentSeasonIndex st0 = 0%nat ->
  Sketch.seasonTimer st0 = 0%nat ->
  Sketch.reachable st0 st ->
  (Sketch.seasonTimer st < Sketch.SEASON_DURATION)%nat
  /\ (Sketch.currentSeasonIndex st <= Sketch.TOTAL_SEASONS)%nat
  /\ (Sketch.gameState st = Sketch.STATE_undefined
      <-> Sketch.currentSeasonIndex st = Sketch.TOTAL_SEASONS).
Proof.
  intros Hgs0 Hidx0 Htimer0 Hreach.
  induction Hreach as [|st c Hreach IH].
  - rewrite Hgs0, Hidx0, Htimer0, SEASON_DURATION_eq.
    unfold Sketch.TOTAL_SEASONS.
    split; [lia|]. split; [lia|]. split; [discriminate | lia].
  - destruct IH as (Htimer & Hidx & Hwin).
    assert (Hstart : forall s : Sketch.State,
              (Sketch.seasonTimer (Sketch.startGame s) < Sketch.SEASON_DURATION)%nat
              /\ (Sketch.currentSeasonIndex (Sketch.startGame s)
                  <= Sketch.TOTAL_SEASONS)%nat
              /\ (Sketch.gameState (Sketch.startGame s) = Sketch.STATE_undefined
                  <-> Sketch.currentSeasonIndex (Sketch.startGame s)
                      = Sketch.TOTAL_SEASONS)).
    { intros s. unfold Sketch.startGame.
      match goal with
      | |- context [Sketch.spawnWorldObjects ?s1] =>
          destruct (spawnWorldObjects_invariant (fun _ => True) s1
                      ltac:(intros; exact I)
                      ltac:(intros; apply Forall_forall; intros; exact I))
            as (objs & a' & -> & _)
      end.
      cbn. rewrite SEASON_DURATION_eq. unfold Sketch.TOTAL_SEASONS.
      split; [lia|]. split; [lia|]. split; [discriminate | lia]. }
    assert (Hsame : (Sketch.seasonTimer
                       (Sketch.set_frameCount st (S (Sketch.frameCount st)))
                     < Sketch.SEASON_DURATION)%nat
                    /\ (Sketch.currentSeasonIndex
                          (Sketch.set_frameCount st (S (Sketch.frameCount st)))
                        <= Sketch.TOTAL_SEASONS)%nat
                    /\ (Sketch.gameState
                          (Sketch.set_frameCount st (S (Sketch.frameCount st)))
                        = Sketch.STATE_undefined
                        <-> Sketch.currentSeasonIndex
                              (Sketch.set_frameCount st
                                 (S (Sketch.frameCount st)))
                            = Sketch.TOTAL_SEASONS))
      by (cbn; auto).
    unfold Sketch.draw.
    set (st1 := Sketch.set_frameCount st (S (Sketch.frameCount st))) in *.
    destruct (Sketch.gameState st1) eqn:Hstate.
    + destruct (Sketch.ONE_PLAYER c);
        [apply Hstart | rewrite Hstate; exact Hsame].
    + destruct (Sketch.player st1) as [p|] eqn:Hplayer.
      * destruct (updateGame_clock st1 (Sketch.DPAD c) p Hplayer)
          as (st2 & Hgs2 & Hidx2 & Htimer2 & ->).
        destruct Hsame as (Ht1 & Hi1 & Hw1).
        assert (Hnotwin : Sketch.currentSeasonIndex st1 <> Sketch.TOTAL_SEASONS).
        { intros Heq. apply Hw1 in Heq. discriminate. }
        assert (Hgs2' : Sketch.gameState st2 <> Sketch.STATE_undefined).
        { destruct Hgs2 as [H | H]; rewrite H; [rewrite Hstate|];
            discriminate. }
        destruct (Nat.leb_spec Sketch.SEASON_DURATION
                    (S (Sketch.seasonTimer st1))) as [Hend | Hgo].
        -- destruct (advanceSeason_clock st2) as (Hi & Ht & Hlast & Hmore).
           rewrite Hi, Ht, Hidx2, SEASON_DURATION_eq.
           split; [lia|]. split; [lia|].
           destruct (Nat.le_gt_cases Sketch.TOTAL_SEASONS
                       (S (Sketch.currentSeasonIndex st1))) as [Hl | Hm].
           ++ rewrite Hlast by (rewrite Hidx2; exact Hl).
              split; [intros _; lia | reflexivity].
           ++ rewrite Hmore by (rewrite Hidx2; exact Hm).
              split; [intros H; contradiction | intros H; lia].
        -- rewrite Htimer2, Hidx2.
           split; [exact Hgo|]. split; [exact Hi1|].
           split; [intros H; contradiction | intros H; contradiction].
      * unfold Sketch.updateGame. rewrite Hplayer, Hstate. exact Hsame.
    + destruct (Sketch.ONE_PLAYER c);
        [apply Hstart | rewrite Hstate; exact Hsame].
    + rewrite Hstate. exact Hsame.
Qed.

Lemma season_clock_invariant_witness :
  (Sketch.seasonTimer (Sketch.draw Examples.titleScreen Examples.pressStart)
   < Sketch.SEASON_DURATION)%nat
  /\ (Sketch.currentSeasonIndex
        (Sketch.draw Examples.titleScreen Examples.pressStart)
      <= Sketch.TOTAL_SEASONS)%nat
  /\ (Sketch.gameState (Sketch.draw Examples.titleScreen Examples.pressStart)
      = Sketch.STATE_undefined
      <-> Sketch.currentSeasonIndex
            (Sketch.draw Examples.titleScreen Examples.pressStart)
          = Sketch.TOTAL_SEASONS).
Proof.
  apply (season_clock_invariant Examples.titleScreen).
  - reflexivity.
  - reflexivity.
  - reflexivity.
  - apply Sketch.reachable_draw. apply Sketch.reachable_init.
Defined.

Lemma draw_undefined (st : Sketch.State) (c : Sketch.Controls) (n : nat) :
  Sketch.gameState st = Sketch.STATE_undefined ->
  Sketch.draw (Sketch.set_frameCount st n) c = Sketch.set_frameCount st (S n).
Proof.
  intros Hgs. unfold Sketch.draw.
  cbn [Sketch.gameState Sketch.set_frameCount Sketch.frameCount].
  rewrite Hgs. reflexivity.
Qed.

Lemma draws_undefined (cs : list Sketch.Controls) :
  forall (st : Sketch.State) (n : nat),
    Sketch.gameState st = Sketch.STATE_undefined ->
    fold_left Sketch.draw cs (Sketch.set_frameCount st n)
    = Sketch.set_frameCount st (List.length cs + n).
Proof.
  induction cs as [|c cs IH]; intros st n Hgs; [reflexivity|].
  simpl fold_left. rewrite (draw_undefined st c n Hgs), (IH st (S n) Hgs).
  simpl List.length. f_equal. lia.
Qed.

Lemma set_frameCount_same (st : Sketch.State) :
  Sketch.set_frameCount st (Sketch.frameCount st) = st.
Proof. destruct st. reflexivity. Qed.

(** X29.  The end of the last season: the frame of play that ends season
    [TOTAL_SEASONS] sets the state of the game to [STATE.WIN], a value
    [STATE] does not define, and no case of [draw] matches it: from then on
    no frame runs [updateGame] or [startGame], whatever the player presses,
    so the state of the game, the player, the objects, the count of
    collected objects, the season, its timer and the camera stay as that
    frame left them. *)
Theorem game_stops_after_last_season (st : Sketch.State)
  (input : Players.Input) (cs : list Sketch.Controls) :
  Sketch.player st <> None ->
  S (Sketch.currentSeasonIndex st) = Sketch.TOTAL_SEASONS ->
  S (Sketch.seasonTimer st) = Sketch.SEASON_DURATION ->
  Sketch.gameState (Sketch.updateGame st input) = Sketch.STATE_undefined
  /\ Sketch.gameState (fold_left Sketch.draw cs (Sketch.updateGame st input))
     = Sketch.STATE_undefined
  /\ Sketch.player (fold_left Sketch.draw cs (Sketch.updateGame st input))
     = Sketch.player (Sketch.updateGame st input)
  /\ Sketch.objects (fold_left Sketch.draw cs (Sketch.updateGame st input))
     = Sketch.objects (Sketch.updateGame st input)
  /\ Sketch.collectedCount
       (fold_left Sketch.draw cs (Sketch.updateGame st input))
     = Sketch.collectedCount (Sketch.updateGame st input)
  /\ Sketch.currentSeasonIndex
       (fold_left Sketch.draw cs (Sketch.updateGame st input))
     = Sketch.currentSeasonIndex (Sketch.updateGame st input)
  /\ Sketch.seasonTimer
       (fold_left Sketch.draw cs (Sketch.updateGame st input))
     = Sketch.seasonTimer (Sketch.updateGame st input)
  /\ Sketch.camera (fold_left Sketch.draw cs (Sketch.updateGame st input))
     = Sketch.camera (Sketch.updateGame st input).
Proof.
  intros Hplayer Hidx Htimer.
  destruct (Sketch.player st) as [p|] eqn:Hp; [|contradiction].
  assert (Hgs : Sketch.gameState (Sketch.updateGame st input)
                = Sketch.STATE_undefined).
  { destruct (updateGame_clock st input p Hp)
      as (st1 & _ & Hidx1 & _ & ->).
    rewrite Htimer, Nat.leb_refl.
    destruct (advanceSeason_clock st1) as (_ & _ & Hlast & _).
    apply Hlast. rewrite Hidx1, Hidx. apply Nat.le_refl. }
  split; [exact Hgs|].
  set (final := Sketch.updateGame st input) in *. clearbody final.
  pose proof (draws_undefined cs final (Sketch.frameCount final) Hgs) as Hfold.
  rewrite set_frameCount_same in Hfold. rewrite Hfold.
  cbn [Sketch.gameState Sketch.player Sketch.objects Sketch.collectedCount
       Sketch.currentSeasonIndex Sketch.seasonTimer Sketch.camera
       Sketch.set_frameCount].
  split; [exact Hgs|]. repeat split; reflexivity.
Qed.

(** The last frame of the tenth season, and two frames after it, in the
    first of which the player presses the start button. *)
Lemma game_stops_after_last_season_witness :
  Sketch.gameState
    (fold_left Sketch.draw [Examples.pressStart; Examples.idle]
       (Sketch.updateGame
          (Sketch.set_season Examples.endOfSpring 9 899 Sketch.PLAYING)
          Examples.noInput))
  = Sketch.STATE_undefined
  /\ Sketch.objects
       (fold_left Sketch.draw [Examples.pressStart; Examples.idle]
          (Sketch.updateGame
             (Sketch.set_season Examples.endOfSpring 9 899 Sketch.PLAYING)
             Examples.noInput))
     = Sketch.objects
         (Sketch.updateGame
            (Sketch.set_season Examples.endOfSpring 9 899 Sketch.PLAYING)
            Examples.noInput).
Proof.
  destruct (game_stops_after_last_season
              (Sketch.set_season Examples.endOfSpring 9 899 Sketch.PLAYING)
              Examples.noInput [Examples.pressStart; Examples.idle])
    as (_ & Hgs & _ & Hobjs & _).
  - simpl. discriminate.
  - reflexivity.
  - rewrite SEASON_DURATION_eq. reflexivity.
  - split; [exact Hgs | exact Hobjs].
Defined.
